(** * Parquetastic: the metadata decoder, checked against its specification

    A shallow embedding of the decoding core of the repository:

    - [src/thrift.js]          the Thrift compact-protocol reader
                               ([TCompactProtocolReader]);
    - [src/parquetParser.js]   footer location, page-index fetching and
                               decoding ([parseParquetFile],
                               [parseParquetFileStreaming],
                               [parsePageIndexes],
                               [parsePageIndexesStreaming]);
    - [src/statsFormatter.js]  the statistics formatter ([formatDecimal],
                               [formatStatValue] and their helpers) and
                               [findSchemaElement];
    - [src/components/hierarchical/encodingUtils.js]
                               the encoding helpers of the column view.

    Conventions of the embedding.

    - A [Uint8Array] is a [list byte]; a JavaScript [BigInt] is a [Z]; a
      JavaScript [Number] that holds an integer is a [Z] too.  The latter is
      exact for safe integers (magnitude at most [2^53 - 1]), which covers
      every array length, file offset and 16/32-bit field.  For a larger
      magnitude the model keeps the integer where the code holds the
      nearest double; the counter of a [for] loop, which stops counting at
      [2^53], is modelled as the double it is ([forLoop]).
    - The longest string an engine builds is a parameter of the runtime
      ([maxStringLength]); the limits of an engine on the size of a BigInt
      and on the depth of the call stack are not modelled.
    - A [throw] is the [Throw] outcome of [Result]; a method of the reader
      is a function from the reader's state to an outcome and a new state.
    - The struct decoders generated into [parquet_types.js] and the enum
      tables of that file are not part of the sources at hand; they are
      parameters of the development. *)

From Stdlib Require Import ZArith List String Ascii Bool Lia DecimalString.
From Stdlib Require Import Sorted Permutation.
From Stdlib.Strings Require Import Byte.
Import ListNotations.
Open Scope Z_scope.

(* ================================================================== *)
(** * Outcomes *)

(** The exceptions the modelled code raises, one constructor per [throw]
    statement (the text of each is given by [message]), and the
    [RangeError] of the engine for a string longer than it can build. *)
Inductive Exn : Type :=
| FileTooSmall
| MissingHeaderMagic
| MissingFooterMagic
| InvalidFooterLength (footerLength : Z)
| FailedToRead (start end_ : Z)
| BufferUnderflow
| BufferUnderflowReadingVarint
| NegativeBinaryLength
| BufferUnderflowReadingBinary
| EmptyFieldIdStack
| InvalidStringLength
| RuntimeError (code : Z).

Inductive Result (A : Type) : Type :=
| Ok (a : A)
| Throw (e : Exn).
Arguments Ok {A} a.
Arguments Throw {A} e.

Definition toString (z : Z) : string := NilZero.string_of_int (Z.to_int z).

(** The message of the [Error] object, where the source fixes it (for a
    failed read, the words its message starts with).
    [EmptyFieldIdStack] marks a reader state the model does not follow (a
    field header read after more [readStructEnd] than [readStructBegin]
    calls); [RuntimeError] stands for an exception raised by code that is
    a parameter here. *)
Definition message (e : Exn) : string :=
  match e with
  | FileTooSmall => "File too small to be a valid Parquet file"
  | MissingHeaderMagic => "Invalid Parquet file: missing header magic bytes (PAR1)"
  | MissingFooterMagic => "Invalid Parquet file: missing footer magic bytes (PAR1)"
  | InvalidFooterLength n => "Invalid footer length: " ++ toString n ++ " exceeds file size"
  | FailedToRead _ _ => "Failed to read"
  | BufferUnderflow => "Buffer underflow"
  | BufferUnderflowReadingVarint => "Buffer underflow reading varint"
  | NegativeBinaryLength => "Negative binary length"
  | BufferUnderflowReadingBinary => "Buffer underflow reading binary"
  | EmptyFieldIdStack => ""
  | InvalidStringLength => "Invalid string length"
  | RuntimeError _ => ""
  end%string.

(** The error classes of the specification, read off the exceptions:
    [InvalidFormat] is a bad or missing magic marker or a footer length
    that exceeds the file; [TruncatedInput] is a read past the end of the
    buffer; [IoError] is a failed range read. *)
Definition isInvalidFormat (e : Exn) : bool :=
  match e with
  | MissingHeaderMagic | MissingFooterMagic | InvalidFooterLength _ => true
  | _ => false
  end.

Definition isTruncatedInput (e : Exn) : bool :=
  match e with
  | BufferUnderflow | BufferUnderflowReadingVarint
  | BufferUnderflowReadingBinary | NegativeBinaryLength => true
  | _ => false
  end.

Definition isIoError (e : Exn) : bool :=
  match e with
  | FailedToRead _ _ => true
  | _ => false
  end.

(* ================================================================== *)
(** * Primitives of the JavaScript runtime *)

Module JS.

(** The numeric value of a byte. *)
Definition u8 (b : byte) : Z := Z.of_N (Byte.to_N b).

(** [len l] is [l.length]. *)
Definition len {A : Type} (l : list A) : Z := Z.of_nat (List.length l).

(** Index normalisation shared by [Uint8Array.prototype.slice],
    [Blob.prototype.slice] and [String.prototype.slice]: a negative index
    counts from the end, and the result is clamped to [0, length]. *)
Definition relativeIndex (length i : Z) : Z :=
  if i <? 0 then Z.max (length + i) 0 else Z.min i length.

(** [slice l s e] is [l.slice(s, e)]. *)
Definition slice {A : Type} (l : list A) (s e : Z) : list A :=
  let k := relativeIndex (len l) s in
  let final := relativeIndex (len l) e in
  firstn (Z.to_nat (Z.max (final - k) 0)) (skipn (Z.to_nat k) l).

(** [new DataView(b.buffer, b.byteOffset, 4).getUint32(0, true)] on a
    view of at least four bytes: the little-endian unsigned value. *)
Definition getUint32LE (b : list byte) : Z :=
  u8 (nth 0 b x00) + u8 (nth 1 b x00) * 2 ^ 8
  + u8 (nth 2 b x00) * 2 ^ 16 + u8 (nth 3 b x00) * 2 ^ 24.

(** [getInt32(0, true)]: the same four bytes as a two's-complement value. *)
Definition getInt32LE (b : list byte) : Z :=
  let u := getUint32LE b in
  if u <? 2 ^ 31 then u else u - 2 ^ 32.

(** [getBigInt64(0, true)] on a view of at least eight bytes. *)
Definition getBigInt64LE (b : list byte) : Z :=
  let u := getUint32LE b + getUint32LE (skipn 4 b) * 2 ^ 32 in
  if u <? 2 ^ 63 then u else u - 2 ^ 64.

(** [Number(v)] for a BigInt [v], and [Number.MAX_SAFE_INTEGER].  The
    model keeps the integer.  This is the value of [Number(v)] for a safe
    [v]; for a [v] of larger magnitude [Number(v)] is the double nearest
    to it, which the model does not compute, so that a value obtained
    through [Number] is the one the code holds when it is a safe integer. *)
Definition Number (v : Z) : Z := v.
Definition MAX_SAFE_INTEGER : Z := 2 ^ 53 - 1.
Definition MIN_SAFE_INTEGER : Z := - (2 ^ 53 - 1).

(** [BigInt.asIntN(bits, v)]: [v] reinterpreted as a signed integer of
    [bits] bits. *)
Definition asIntN (bits v : Z) : Z :=
  (v + 2 ^ (bits - 1)) mod 2 ^ bits - 2 ^ (bits - 1).

End JS.
Import JS.

(* ================================================================== *)
(** * src/thrift.js *)

Module Thrift.

(** [Thrift.Type]. *)
Module TType.
Definition STOP : Z := 0.
Definition BOOL_TRUE : Z := 1.
Definition BOOL_FALSE : Z := 2.
Definition BYTE : Z := 3.
Definition I16 : Z := 4.
Definition I32 : Z := 5.
Definition I64 : Z := 6.
Definition DOUBLE : Z := 7.
Definition STRING : Z := 8.
Definition LIST : Z := 9.
Definition SET : Z := 10.
Definition MAP : Z := 11.
Definition STRUCT : Z := 12.
Definition BOOL : Z := 2.
Definition I08 : Z := 3.
End TType.

(** [COMPACT_TYPES]. *)
Module COMPACT_TYPES.
Definition STOP : Z := 0.
Definition BOOL_TRUE : Z := 1.
Definition BOOL_FALSE : Z := 2.
Definition BYTE : Z := 3.
Definition I16 : Z := 4.
Definition I32 : Z := 5.
Definition I64 : Z := 6.
Definition DOUBLE : Z := 7.
Definition BINARY : Z := 8.
Definition LIST : Z := 9.
Definition SET : Z := 10.
Definition MAP : Z := 11.
Definition STRUCT : Z := 12.
End COMPACT_TYPES.

(** [compactTypeToThriftType]: the [switch], case by case. *)
Definition compactTypeToThriftType (compactType : Z) : Z :=
  if compactType =? COMPACT_TYPES.STOP then TType.STOP
  else if compactType =? COMPACT_TYPES.BOOL_TRUE then TType.BOOL
  else if compactType =? COMPACT_TYPES.BOOL_FALSE then TType.BOOL
  else if compactType =? COMPACT_TYPES.BYTE then TType.BYTE
  else if compactType =? COMPACT_TYPES.I16 then TType.I16
  else if compactType =? COMPACT_TYPES.I32 then TType.I32
  else if compactType =? COMPACT_TYPES.I64 then TType.I64
  else if compactType =? COMPACT_TYPES.DOUBLE then TType.DOUBLE
  else if compactType =? COMPACT_TYPES.BINARY then TType.STRING
  else if compactType =? COMPACT_TYPES.LIST then TType.LIST
  else if compactType =? COMPACT_TYPES.SET then TType.SET
  else if compactType =? COMPACT_TYPES.MAP then TType.MAP
  else if compactType =? COMPACT_TYPES.STRUCT then TType.STRUCT
  else compactType.

(** The state of a [TCompactProtocolReader].  [lastFieldId] is the stack
    of last field ids, innermost struct first (the head of the list is the
    last element of the JavaScript array); [boolValue] is the pending
    boolean, [None] for [null]. *)
Record Reader : Type := mkReader {
  buffer : list byte;
  offset : nat;
  lastFieldId : list Z;
  boolValue : option bool
}.

(** [new TCompactProtocolReader(buffer)]. *)
Definition newReader (buffer : list byte) : Reader :=
  mkReader buffer 0 [0] None.

(** A method of the reader: it returns a value and the next state, or
    throws (the reader is not used again after a throw). *)
Definition M (A : Type) : Type := Reader -> Result (A * Reader).

Definition ret {A : Type} (a : A) : M A := fun r => Ok (a, r).

Definition bind {A B : Type} (m : M A) (k : A -> M B) : M B :=
  fun r =>
    match m r with
    | Ok (a, r') => k a r'
    | Throw e => Throw e
    end.

Declare Scope reader_scope.
Delimit Scope reader_scope with reader.
Notation "x <- m ;; k" := (bind m (fun x => k))
  (at level 61, m at next level, right associativity) : reader_scope.
Notation "m ;;; k" := (bind m (fun _ => k))
  (at level 61, right associativity) : reader_scope.
Local Open Scope reader_scope.

Definition setOffset (o : nat) (r : Reader) : Reader :=
  mkReader (buffer r) o (lastFieldId r) (boolValue r).

Definition setLastFieldId (s : list Z) (r : Reader) : Reader :=
  mkReader (buffer r) (offset r) s (boolValue r).

Definition setBoolValue (b : option bool) (r : Reader) : Reader :=
  mkReader (buffer r) (offset r) (lastFieldId r) b.

(** [readByte]. *)
Definition readByte : M Z := fun r =>
  if (List.length (buffer r) <=? offset r)%nat then Throw BufferUnderflow
  else Ok (u8 (nth (offset r) (buffer r) x00), setOffset (S (offset r)) r).

(** The [do ... while (byte & 0x80)] loop of [readVarint] over the bytes
    from the cursor on: [result] and [shift] are the loop variables,
    [consumed] counts the bytes read so far.  [None] is the exhaustion of
    the buffer before a byte without continuation bit. *)
Fixpoint readVarint_loop (rest : list byte) (result shift : Z) (consumed : nat)
  : option (Z * nat) :=
  match rest with
  | [] => None
  | b :: rest' =>
      let byte := u8 b in
      let result := Z.lor result (Z.shiftl (Z.land byte 127) shift) in
      let shift := shift + 7 in
      if Z.land byte 128 =? 0 then Some (result, S consumed)
      else readVarint_loop rest' result shift (S consumed)
  end.

(** [readVarint]. *)
Definition readVarint : M Z := fun r =>
  match readVarint_loop (skipn (offset r) (buffer r)) 0 0 0 with
  | None => Throw BufferUnderflowReadingVarint
  | Some (result, consumed) => Ok (result, setOffset (offset r + consumed) r)
  end.

(** [(n >> 1n) ^ (-(n & 1n))]. *)
Definition zigzag (n : Z) : Z := Z.lxor (Z.shiftr n 1) (- (Z.land n 1)).

(** [readZigZag]. *)
Definition readZigZag : M Z :=
  n <- readVarint ;;
  ret (zigzag n).

(** [readI16] and [readI32]. *)
Definition readI16 : M Z :=
  val <- readZigZag ;;
  ret (Number val).

Definition readI32 : M Z :=
  val <- readZigZag ;;
  ret (Number val).

(** The value of [readI64]: a Number when it is safe, a BigInt otherwise. *)
Inductive Int64Value : Type :=
| AsNumber (v : Z)
| AsBigInt (v : Z).

Definition int64Value (x : Int64Value) : Z :=
  match x with AsNumber v => v | AsBigInt v => v end.

(** [readI64]. *)
Definition readI64 : M Int64Value :=
  val <- readZigZag ;;
  if (val >=? MIN_SAFE_INTEGER) && (val <=? MAX_SAFE_INTEGER)
  then ret (AsNumber (Number val))
  else ret (AsBigInt val).

(** [readBinary]. *)
Definition readBinary : M (list byte) :=
  n <- readVarint ;;
  let length := Number n in
  fun r =>
    if length <? 0 then Throw NegativeBinaryLength
    else if Z.of_nat (offset r) + length >? len (buffer r)
    then Throw BufferUnderflowReadingBinary
    else
      let value := slice (buffer r) (Z.of_nat (offset r))
                         (Z.of_nat (offset r) + length) in
      Ok (value, setOffset (Z.to_nat (Z.of_nat (offset r) + length)) r).

(** [readBool]. *)
Definition readBool : M bool := fun r =>
  match boolValue r with
  | Some value => Ok (value, setBoolValue None r)
  | None => (byte <- readByte ;; ret (byte =? 1)) r
  end.

(** [readStructBegin] and [readStructEnd]. *)
Definition readStructBegin : M unit := fun r =>
  Ok (tt, setLastFieldId (0 :: lastFieldId r) r).

Definition readStructEnd : M unit := fun r =>
  Ok (tt, setLastFieldId (tl (lastFieldId r)) r).

(** The value of [readFieldBegin]. *)
Record Field : Type := mkField { ftype : Z; fid : Z }.

(** [this.lastFieldId[this.lastFieldId.length - 1]], read and written.
    The stack holds an entry whenever the reader is driven by a struct
    decoder (it starts as [[0]] and every [readStructEnd] follows a
    [readStructBegin]); the model stops at [EmptyFieldIdStack] otherwise. *)
Definition getLastFieldId : M Z := fun r =>
  match lastFieldId r with
  | top :: _ => Ok (top, r)
  | [] => Throw EmptyFieldIdStack
  end.

Definition putLastFieldId (fieldId : Z) : M unit := fun r =>
  match lastFieldId r with
  | _ :: below => Ok (tt, setLastFieldId (fieldId :: below) r)
  | [] => Throw EmptyFieldIdStack
  end.

(** [readFieldBegin]. *)
Definition readFieldBegin : M Field :=
  byte <- readByte ;;
  if byte =? 0 then ret (mkField TType.STOP 0)
  else
    let delta := Z.land (Z.shiftr byte 4) 15 in
    let compactType := Z.land byte 15 in
    fieldId <- (if delta =? 0
                then (v <- readZigZag ;; ret (Number v))
                else (top <- getLastFieldId ;; ret (top + delta))) ;;
    putLastFieldId fieldId ;;;
    (if compactType =? COMPACT_TYPES.BOOL_TRUE
     then (fun r => Ok (tt, setBoolValue (Some true) r))
     else if compactType =? COMPACT_TYPES.BOOL_FALSE
     then (fun r => Ok (tt, setBoolValue (Some false) r))
     else ret tt) ;;;
    ret (mkField (compactTypeToThriftType compactType) fieldId).

(** The pending boolean after a field header of compact type
    [compactType], given the one before it. *)
Definition pendingBool (compactType : Z) (previous : option bool) : option bool :=
  if compactType =? COMPACT_TYPES.BOOL_TRUE then Some true
  else if compactType =? COMPACT_TYPES.BOOL_FALSE then Some false
  else previous.

(** ** The other methods of the reader *)

(** [readSignedByte]. *)
Definition readSignedByte : M Z :=
  val <- readByte ;;
  ret (if val >? 127 then val - 256 else val).

(** The value of [readListBegin] and [readSetBegin]. *)
Module ListHeader.
Record t : Type := mk { etype : Z; size : Z }.
End ListHeader.

(** [readListBegin]. *)
Definition readListBegin : M ListHeader.t :=
  byte <- readByte ;;
  let size := Z.land (Z.shiftr byte 4) 15 in
  let elemType := Z.land byte 15 in
  size <- (if size =? 15 then (n <- readVarint ;; ret (Number n)) else ret size) ;;
  ret (ListHeader.mk (compactTypeToThriftType elemType) size).

(** [readSetBegin]. *)
Definition readSetBegin : M ListHeader.t := readListBegin.

(** The value of [readMapBegin]. *)
Module MapHeader.
Record t : Type := mk { ktype : Z; vtype : Z; size : Z }.
End MapHeader.

(** [readMapBegin]. *)
Definition readMapBegin : M MapHeader.t :=
  n <- readVarint ;;
  let size := Number n in
  if size =? 0 then ret (MapHeader.mk TType.STOP TType.STOP 0)
  else
    types <- readByte ;;
    ret (MapHeader.mk (compactTypeToThriftType (Z.land (Z.shiftr types 4) 15))
                      (compactTypeToThriftType (Z.land types 15))
                      size).

(** What [readDouble] and [skip] throw: an exception of a method above, or
    one of their own ('Buffer underflow reading double', 'Unknown type to
    skip: ...'). *)
Inductive SkipExn : Type :=
| Raised (e : Exn)
| BufferUnderflowReadingDouble
| UnknownTypeToSkip (type : Z).

(** How a call of [readDouble] or [skip] ends: it returns a value and
    leaves the reader in a state, or it throws. *)
Inductive Completion (A : Type) : Type :=
| Normal (a : A) (r : Reader)
| Abrupt (e : SkipExn).
Arguments Normal {A} a r.
Arguments Abrupt {A} e.

Definition lift {A : Type} (m : M A) (r : Reader) : Completion A :=
  match m r with
  | Ok (a, r') => Normal a r'
  | Throw e => Abrupt (Raised e)
  end.

(** [readDouble].  The double is given by the eight bytes
    [getFloat64(offset, true)] reads; their reading as an IEEE 754 number
    is not modelled. *)
Definition readDouble (r : Reader) : Completion (list byte) :=
  if Z.of_nat (offset r) + 8 >? len (buffer r) then Abrupt BufferUnderflowReadingDouble
  else Normal (slice (buffer r) (Z.of_nat (offset r)) (Z.of_nat (offset r) + 8))
              (setOffset (offset r + 8) r).

(** Sequencing for [skip], whose recursion is bounded by a fuel: [None] is
    the exhaustion of the fuel. *)
Definition andThen {A B : Type} (c : option (Completion A))
  (k : A -> Reader -> option (Completion B)) : option (Completion B) :=
  match c with
  | None => None
  | Some (Abrupt e) => Some (Abrupt e)
  | Some (Normal a r) => k a r
  end.

(** A loop body run [n] times, and one run without end: the latter ends
    only when the body throws, and the fuel bounds its iterations. *)
Fixpoint repeatBody (n : nat) (body : Reader -> option (Completion unit)) (r : Reader)
  : option (Completion unit) :=
  match n with
  | O => Some (Normal tt r)
  | S n' => andThen (body r) (fun _ r' => repeatBody n' body r')
  end.

Fixpoint repeatForever (fuel : nat) (body : Reader -> option (Completion unit))
  (r : Reader) : option (Completion unit) :=
  match fuel with
  | O => None
  | S fuel' => andThen (body r) (fun _ r' => repeatForever fuel' body r')
  end.

(** [for (let i = 0; i < size; i++) body].  The counter is a double: it
    counts 0, 1, 2, ... up to [2^53] and stays there, since [2^53 + 1] is
    no double and [i++] rounds it back to [2^53].  The size it is compared
    with is a header nibble or [Number(n)] for the BigInt [n] of a varint,
    of which the model keeps [n] (see [Number]); the double nearest to [n]
    is at most [2^53] exactly when [n <= 2^53 + 1], and is the smaller of
    [n] and [2^53] then.  So the loop runs that many times for a size up to
    [2^53 + 1], and for a larger one it does not end unless the body
    throws. *)
Definition forLoop (fuel : nat) (size : Z) (body : Reader -> option (Completion unit))
  (r : Reader) : option (Completion unit) :=
  if size <=? 2 ^ 53 + 1 then repeatBody (Z.to_nat (Z.min size (2 ^ 53))) body r
  else repeatForever fuel body r.

(** [skip], and the [while (true)] loop of its STRUCT case.  The fuel
    bounds the nesting of the recursion, the iterations of that loop and
    those of a [for] loop that does not end; [None] is its exhaustion, and
    a call that yields [None] with every fuel is one that does not return. *)
Fixpoint skip (fuel : nat) (type : Z) (r : Reader) {struct fuel}
  : option (Completion unit) :=
  match fuel with
  | O => None
  | S fuel' =>
      if type =? TType.STOP then Some (Normal tt r)
      else if (type =? TType.BOOL) || (type =? TType.BOOL_TRUE) || (type =? TType.BOOL_FALSE)
      then
        match boolValue r with
        | None => Some (lift (readByte ;;; ret tt) r)
        | Some _ => Some (Normal tt (setBoolValue None r))
        end
      else if (type =? TType.BYTE) || (type =? TType.I08)
      then Some (lift (readByte ;;; ret tt) r)
      else if type =? TType.I16 then Some (lift (readI16 ;;; ret tt) r)
      else if type =? TType.I32 then Some (lift (readI32 ;;; ret tt) r)
      else if type =? TType.I64 then Some (lift (readI64 ;;; ret tt) r)
      else if type =? TType.DOUBLE then
        andThen (Some (readDouble r)) (fun _ r' => Some (Normal tt r'))
      else if type =? TType.STRING then Some (lift (readBinary ;;; ret tt) r)
      else if type =? TType.STRUCT then
        andThen (Some (lift readStructBegin r)) (fun _ r1 =>
        andThen (skipFields fuel' r1) (fun _ r2 =>
        Some (lift readStructEnd r2)))
      else if (type =? TType.LIST) || (type =? TType.SET) then
        andThen (Some (lift readListBegin r)) (fun list r1 =>
        forLoop fuel' (ListHeader.size list)
                (skip fuel' (ListHeader.etype list)) r1)
      else if type =? TType.MAP then
        andThen (Some (lift readMapBegin r)) (fun map r1 =>
        forLoop fuel' (MapHeader.size map)
                (fun r' =>
                   andThen (skip fuel' (MapHeader.ktype map) r') (fun _ r'' =>
                   skip fuel' (MapHeader.vtype map) r''))
                r1)
      else Some (Abrupt (UnknownTypeToSkip type))
  end
with skipFields (fuel : nat) (r : Reader) {struct fuel} : option (Completion unit) :=
  match fuel with
  | O => None
  | S fuel' =>
      andThen (Some (lift readFieldBegin r)) (fun field r1 =>
      if ftype field =? TType.STOP then Some (Normal tt r1)
      else
        andThen (skip fuel' (ftype field) r1) (fun _ r2 =>
        skipFields fuel' r2))
  end.

(** ** Notions used to state the properties *)

(** The bytes still to be read. *)
Definition remaining (r : Reader) : nat := List.length (buffer r) - offset r.

(** A fuel that suffices for [skip] on a reader, if any does. *)
Definition skipFuel (r : Reader) : nat := 2 * remaining r + 2.

(** A later state of a reader: the buffer is the same, the cursor is where
    it was or further, and within the buffer if it was. *)
Definition follows (r r' : Reader) : Prop :=
  buffer r' = buffer r
  /\ (offset r <= offset r')%nat
  /\ ((offset r <= List.length (buffer r))%nat ->
      (offset r' <= List.length (buffer r))%nat).

(** A method that leaves the reader in a later state when it returns. *)
Definition advances {A : Type} (m : M A) : Prop :=
  forall r a r', m r = Ok (a, r') -> follows r r'.

(** The types [skip] has a case for, and the exceptions that end on a
    buffer that is too short or on a type without a case. *)
Definition knownType (type : Z) : bool := (0 <=? type) && (type <=? 12).

Definition skipFailure (e : SkipExn) : bool :=
  match e with
  | Raised BufferUnderflow => true
  | Raised BufferUnderflowReadingVarint => true
  | Raised BufferUnderflowReadingBinary => true
  | Raised _ => false
  | BufferUnderflowReadingDouble => true
  | UnknownTypeToSkip type => negb (knownType type)
  end.

(** A method that changes nothing of the reader but its cursor, one that
    throws only buffer underflows, and one that moves the cursor forward
    when it returns. *)
Definition cursorOnly {A : Type} (m : M A) : Prop :=
  forall r a r', m r = Ok (a, r') ->
    lastFieldId r' = lastFieldId r /\ boolValue r' = boolValue r.

Definition truncates {A : Type} (m : M A) : Prop :=
  forall r e, m r = Throw e -> skipFailure (Raised e) = true.

Definition consumes {A : Type} (m : M A) : Prop :=
  forall r a r', m r = Ok (a, r') -> (remaining r' < remaining r)%nat.

(** What [skip] leaves of a reader: a later state with the stack of last
    field ids as it was, and with no pending boolean if there was none. *)
Definition restores (r r' : Reader) : Prop :=
  follows r r' /\ lastFieldId r' = lastFieldId r
  /\ (boolValue r = None -> boolValue r' = None).

(** What is left for [skip] to do before the buffer is exhausted: the
    bytes to be read, and the pending boolean to be cleared. *)
Definition effort (r : Reader) : nat :=
  remaining r + match boolValue r with Some _ => 1 | None => 0 end.

(** At the cursor or after it, the header of a list, set or map announces
    more than [2^53 + 1] entries. *)
Definition announcesHuge (r : Reader) : Prop :=
  exists r1, follows r r1
    /\ ((exists h r2, readListBegin r1 = Ok (h, r2) /\ 2 ^ 53 + 1 < ListHeader.size h)
        \/ (exists h r2, readMapBegin r1 = Ok (h, r2) /\ 2 ^ 53 + 1 < MapHeader.size h)).

(** The byte of a number below 256. *)
Definition byteOf (n : Z) : byte :=
  match Byte.of_N (Z.to_N n) with
  | Some b => b
  | None => x00
  end.

(** The base-128 encoding of an unsigned integer, least significant group
    first, every byte but the last with its high bit set; [groups] bounds
    the number of bytes after the first. *)
Fixpoint encodeVarint_groups (groups : nat) (n : Z) : list byte :=
  match groups with
  | O => [byteOf n]
  | S groups' =>
      if n <? 128 then [byteOf n]
      else byteOf (n mod 128 + 128) :: encodeVarint_groups groups' (n / 128)
  end.

Definition encodeVarint (n : Z) : list byte :=
  encodeVarint_groups (Z.to_nat (Z.log2 n)) n.

(** The unsigned integer whose zig-zag decoding is [i]. *)
Definition zigzagEncode (i : Z) : Z := if 0 <=? i then 2 * i else - 2 * i - 1.

End Thrift.

(* ================================================================== *)
(** * src/parquetParser.js *)

Module Parser.

(** ** The metadata the parser navigates *)

(** Modelled from the spec: the [ColumnChunk] class of [parquet_types.js],
    which is not among the sources; only the four fields the parser reads
    are kept ("optional offset/length pair locating a serialized
    OffsetIndex, optional offset/length pair locating a serialized
    ColumnIndex").  [None] is [null]. *)
Record ColumnChunk : Type := mkColumnChunk {
  offset_index_offset : option Z;
  offset_index_length : option Z;
  column_index_offset : option Z;
  column_index_length : option Z
}.

(** Modelled from the spec: the [RowGroup] class of [parquet_types.js]
    ("ordered sequence of ColumnChunk"). *)
Record RowGroup : Type := mkRowGroup {
  columns : list ColumnChunk
}.

(** Modelled from the spec: the [FileMetaData] class of [parquet_types.js]
    ("ordered sequence of RowGroup"; the format version and the row count
    stand for the fields the parser does not look at). *)
Record FileMetaData : Type := mkFileMetaData {
  version : Z;
  num_rows : Z;
  row_groups : list RowGroup
}.

(** The truth value of a field in a condition: [null] and zero are false. *)
Definition truthy (x : option Z) : bool :=
  match x with
  | Some v => negb (v =? 0)
  | None => false
  end.

(** [Number(x)] for a field. *)
Definition numberOf (x : option Z) : Z :=
  match x with
  | Some v => Number v
  | None => 0
  end.

(** ** Bytes and files *)

Definition PARQUET_MAGIC : list byte := [x50; x41; x52; x31].

(** [bytesEqual]. *)
Definition bytesEqual (a b : list byte) : bool :=
  if negb (List.length a =? List.length b)%nat then false
  else forallb (fun i => Byte.eqb (nth i a x00) (nth i b x00))
               (seq 0 (List.length a)).

(** A [File]: its bytes, and the ranges whose read is rejected by the
    runtime ([blob.arrayBuffer()] fails). *)
Record File : Type := mkFile {
  contents : list byte;
  unreadable : Z -> Z -> bool
}.

Definition fileSize_of (file : File) : Z := len (contents file).

(** An [async] function that reads the file: the reads it issued, in
    order, and its outcome. *)
Definition IO (A : Type) : Type := (list (Z * Z) * Result A)%type.

Definition ioRet {A : Type} (a : A) : IO A := ([], Ok a).

Definition ioThrow {A : Type} (e : Exn) : IO A := ([], Throw e).

Definition ioBind {A B : Type} (m : IO A) (k : A -> IO B) : IO B :=
  match m with
  | (reads, Ok a) => let (reads', r) := k a in (reads ++ reads', r)
  | (reads, Throw e) => (reads, Throw e)
  end.

(** [readFileSlice]. *)
Definition readFileSlice (file : File) (start end_ : Z) : IO (list byte) :=
  ([(start, end_)],
   if unreadable file start end_ then Throw (FailedToRead start end_)
   else Ok (slice (contents file) start end_)).

(** Sequencing of outcomes in a function that reads no file. *)
Definition resultBind {A B : Type} (m : Result A) (k : A -> Result B) : Result B :=
  match m with
  | Ok a => k a
  | Throw e => Throw e
  end.

(** ** Page indexes *)

Inductive IndexType : Type := columnIndex_ | offsetIndex_.

(** An element of [readRequests]. *)
Record ReadRequest : Type := mkReadRequest {
  rgIdx : nat;
  colIdx : nat;
  type : IndexType;
  offset : Z;
  length : Z
}.

(** An element of [batches]. *)
Record Batch : Type := mkBatch {
  start : Z;
  end_ : Z;
  requests : list ReadRequest
}.

(** The requests pushed for one column chunk. *)
Definition columnRequests (rgIdx colIdx : nat) (columnChunk : ColumnChunk)
  : list ReadRequest :=
  (if truthy (column_index_offset columnChunk) && truthy (column_index_length columnChunk)
   then [mkReadRequest rgIdx colIdx columnIndex_
           (numberOf (column_index_offset columnChunk))
           (numberOf (column_index_length columnChunk))]
   else [])
  ++
  (if truthy (offset_index_offset columnChunk) && truthy (offset_index_length columnChunk)
   then [mkReadRequest rgIdx colIdx offsetIndex_
           (numberOf (offset_index_offset columnChunk))
           (numberOf (offset_index_length columnChunk))]
   else []).

(** The two nested collection loops, from column [colIdx] resp. row group
    [rgIdx] on. *)
Fixpoint collectColumns (rgIdx colIdx : nat) (cols : list ColumnChunk)
  : list ReadRequest :=
  match cols with
  | [] => []
  | columnChunk :: cols' =>
      columnRequests rgIdx colIdx columnChunk ++ collectColumns rgIdx (S colIdx) cols'
  end.

Fixpoint collectRowGroups (rgIdx : nat) (rgs : list RowGroup) : list ReadRequest :=
  match rgs with
  | [] => []
  | rowGroup :: rgs' =>
      collectColumns rgIdx 0 (columns rowGroup) ++ collectRowGroups (S rgIdx) rgs'
  end.

Definition collectReadRequests (fileMetaData : FileMetaData) : list ReadRequest :=
  collectRowGroups 0 (row_groups fileMetaData).

(** [readRequests.sort((a, b) => a.offset - b.offset)]: the sort is stable,
    so requests of equal offset keep their order. *)
Fixpoint insertByOffset (req : ReadRequest) (sorted : list ReadRequest)
  : list ReadRequest :=
  match sorted with
  | [] => [req]
  | r :: rest =>
      if offset req <=? offset r then req :: r :: rest
      else r :: insertByOffset req rest
  end.

Fixpoint sortByOffset (reqs : list ReadRequest) : list ReadRequest :=
  match reqs with
  | [] => []
  | req :: rest => insertByOffset req (sortByOffset rest)
  end.

(** The gap threshold of the batching loop. *)
Definition MAX_GAP : Z := 64 * 1024.

Definition newBatch (req : ReadRequest) : Batch :=
  mkBatch (offset req) (offset req + length req) [req].

(** One iteration of the batching loop; the state is [batches] and
    [currentBatch].  The threshold is a parameter here, the source fixes it
    to [MAX_GAP]. *)
Definition batchStep (gap : Z) (st : list Batch * option Batch) (req : ReadRequest)
  : list Batch * option Batch :=
  match snd st with
  | None => (fst st, Some (newBatch req))
  | Some currentBatch =>
      if offset req <=? end_ currentBatch + gap
      then (fst st,
            Some (mkBatch (start currentBatch)
                          (Z.max (end_ currentBatch) (offset req + length req))
                          (requests currentBatch ++ [req])))
      else (fst st ++ [currentBatch], Some (newBatch req))
  end.

(** The batching loop and the final push of [currentBatch]. *)
Definition batchRequests (gap : Z) (readRequests : list ReadRequest) : list Batch :=
  let st := fold_left (batchStep gap) readRequests ([], None) in
  match snd st with
  | Some currentBatch => fst st ++ [currentBatch]
  | None => fst st
  end.

(** The plan of [parsePageIndexesStreaming]: collect, sort, batch. *)
Definition planBatches (fileMetaData : FileMetaData) : list Batch :=
  batchRequests MAX_GAP (sortByOffset (collectReadRequests fileMetaData)).

(** The bytes handed to the decoder for one request of a batch. *)
Definition indexBytesOf (batchBytes : list byte) (batch : Batch) (req : ReadRequest)
  : list byte :=
  let localOffset := offset req - start batch in
  slice batchBytes localOffset (localOffset + length req).

(** ** Notions used to state the properties *)

(** The three parts of a file that the entry points validate, and a byte
    range [[from, to)] of it. *)
Definition leadingMagic (bytes : list byte) : list byte := firstn 4 bytes.

Definition trailingMagic (bytes : list byte) : list byte :=
  skipn (List.length bytes - 4) bytes.

Definition footerLengthField (bytes : list byte) : Z :=
  getUint32LE (firstn 4 (skipn (List.length bytes - 8) bytes)).

Definition byteRange (bytes : list byte) (from to : Z) : list byte :=
  firstn (Z.to_nat (to - from)) (skipn (Z.to_nat from) bytes).

(** A file none of whose reads fails, and one whose three footer reads do
    not fail. *)
Definition reliable (file : File) : Prop :=
  forall s e, unreadable file s e = false.

Definition headerReadable (file : File) : Prop :=
  let F := len (contents file) in
  let L := footerLengthField (contents file) in
  unreadable file 0 4 = false /\ unreadable file (F - 8) F = false
  /\ unreadable file (F - 8 - L) (F - 8 - L + L) = false.

(** The order the requests are sorted by. *)
Definition offsetLe (a b : ReadRequest) : Prop := offset a <= offset b.

(** The end of a batch that starts with end [currentEnd] and is joined by
    the requests [rs] in turn; [None] if one of them is further than [gap]
    from the end reached before it. *)
Fixpoint runningEnd (gap currentEnd : Z) (rs : list ReadRequest) : option Z :=
  match rs with
  | [] => Some currentEnd
  | r :: rs' =>
      if offset r <=? currentEnd + gap
      then runningEnd gap (Z.max currentEnd (offset r + length r)) rs'
      else None
  end.

(** A batch as the greedy merge builds it: it starts at its first request,
    every later request joined within the tolerance, and its end is the
    running maximum of the requests' ends. *)
Definition greedyBatch (gap : Z) (b : Batch) : Prop :=
  match requests b with
  | [] => False
  | first :: rest =>
      start b = offset first
      /\ runningEnd gap (offset first + length first) rest = Some (end_ b)
  end.

(** Each batch after the first starts with a request further than [gap]
    from the end of the batch before it. *)
Fixpoint gapsBetween (gap : Z) (bs : list Batch) : Prop :=
  match bs with
  | b1 :: bs' =>
      match bs' with
      | b2 :: _ =>
          (exists first, hd_error (requests b2) = Some first
                         /\ end_ b1 + gap < offset first)
          /\ gapsBetween gap bs'
      | [] => True
      end
  | [] => True
  end.

(** The range of a batch contains the range of each of its requests. *)
Definition covers (b : Batch) : Prop :=
  forall r, In r (requests b) ->
    start b <= offset r /\ offset r + length r <= end_ b.

(** The batching loop as a recursion on the requests that follow the
    current batch. *)
Definition extendBatch (cur : Batch) (r : ReadRequest) : Batch :=
  mkBatch (start cur) (Z.max (end_ cur) (offset r + length r)) (requests cur ++ [r]).

Fixpoint absorb (gap : Z) (cur : Batch) (rs : list ReadRequest) : list Batch :=
  match rs with
  | [] => [cur]
  | r :: rs' =>
      if offset r <=? end_ cur + gap
      then absorb gap (extendBatch cur r) rs'
      else cur :: absorb gap (newBatch r) rs'
  end.

(** The reads a list of batches asks for. *)
Definition ranges (batches : list Batch) : list (Z * Z) :=
  map (fun b => (start b, end_ b)) batches.

Section Decoders.

(** The decoded index structures, and the [read] methods generated into
    [parquet_types.js].  A call [obj[Symbol.for('read')](reader)] on a fresh
    object is a function of the reader: it gives the object as the call
    leaves it (complete, or filled as far as the call got) and the
    exception if the call threw. *)
Context {ColumnIndex OffsetIndex : Type}.
Variable FileMetaData_read : Thrift.Reader -> FileMetaData * option Exn.
Variable ColumnIndex_read : Thrift.Reader -> ColumnIndex * option Exn.
Variable OffsetIndex_read : Thrift.Reader -> OffsetIndex * option Exn.

(** An entry [{ columnIndex, offsetIndex }] of [pageIndexes]. *)
Record Slot : Type := mkSlot {
  columnIndex : option ColumnIndex;
  offsetIndex : option OffsetIndex
}.

Definition PageIndexes : Type := list (list Slot).

(** The value returned by both entry points. *)
Record Parsed : Type := mkParsed {
  fileSize : Z;
  footerLength : Z;
  footerStart : Z;
  fileMetaData : FileMetaData;
  pageIndexes : PageIndexes
}.

(** [new FileMetaData()] read from a fresh reader; a throw propagates. *)
Definition readFileMetaData (footerBytes : list byte) : Result FileMetaData :=
  match FileMetaData_read (Thrift.newReader footerBytes) with
  | (fileMetaData, None) => Ok fileMetaData
  | (_, Some e) => Throw e
  end.

(** *** The legacy path: [parsePageIndexes] *)

(** One iteration of the inner loop.  Each slot is assigned the fresh
    object before its [read] is called inside the [try]; the [catch] only
    logs. *)
Definition parseColumnChunk (bytes : list byte) (columnChunk : ColumnChunk) : Slot :=
  let columnIndex :=
    if truthy (column_index_offset columnChunk) && truthy (column_index_length columnChunk)
    then
      let offset := numberOf (column_index_offset columnChunk) in
      let length := numberOf (column_index_length columnChunk) in
      let indexBytes := slice bytes offset (offset + length) in
      Some (fst (ColumnIndex_read (Thrift.newReader indexBytes)))
    else None in
  let offsetIndex :=
    if truthy (offset_index_offset columnChunk) && truthy (offset_index_length columnChunk)
    then
      let offset := numberOf (offset_index_offset columnChunk) in
      let length := numberOf (offset_index_length columnChunk) in
      let indexBytes := slice bytes offset (offset + length) in
      Some (fst (OffsetIndex_read (Thrift.newReader indexBytes)))
    else None in
  mkSlot columnIndex offsetIndex.

Definition parsePageIndexes (bytes : list byte) (fileMetaData : FileMetaData)
  : PageIndexes :=
  map (fun rowGroup => map (parseColumnChunk bytes) (columns rowGroup))
      (row_groups fileMetaData).

(** *** The streaming path: [parsePageIndexesStreaming] *)

(** "Initialize result structure". *)
Definition initialIndexes (fileMetaData : FileMetaData) : PageIndexes :=
  map (fun rowGroup => map (fun _ => mkSlot None None) (columns rowGroup))
      (row_groups fileMetaData).

(** [l[i] = f(l[i])] for an index in range. *)
Fixpoint updateNth {A : Type} (i : nat) (f : A -> A) (l : list A) : list A :=
  match l, i with
  | [], _ => []
  | x :: l', O => f x :: l'
  | x :: l', S i' => x :: updateNth i' f l'
  end.

(** [indexes[rg][col].columnIndex = v] and its sibling.  With an index out
    of range the assignment throws inside the [try] and is dropped. *)
Definition setColumnIndex (rg col : nat) (v : ColumnIndex) (indexes : PageIndexes)
  : PageIndexes :=
  updateNth rg (updateNth col (fun s => mkSlot (Some v) (offsetIndex s))) indexes.

Definition setOffsetIndex (rg col : nat) (v : OffsetIndex) (indexes : PageIndexes)
  : PageIndexes :=
  updateNth rg (updateNth col (fun s => mkSlot (columnIndex s) (Some v))) indexes.

(** The body of the loop over [batch.requests]: slice, decode into a local
    object, assign the slot after [read] returned; a throw is caught and
    logged. *)
Definition decodeRequest (batchBytes : list byte) (batch : Batch)
  (indexes : PageIndexes) (req : ReadRequest) : PageIndexes :=
  let reader := Thrift.newReader (indexBytesOf batchBytes batch req) in
  match type req with
  | columnIndex_ =>
      match ColumnIndex_read reader with
      | (columnIndex, None) => setColumnIndex (rgIdx req) (colIdx req) columnIndex indexes
      | (_, Some _) => indexes
      end
  | offsetIndex_ =>
      match OffsetIndex_read reader with
      | (offsetIndex, None) => setOffsetIndex (rgIdx req) (colIdx req) offsetIndex indexes
      | (_, Some _) => indexes
      end
  end.

(** "Read and parse batches": one [readFileSlice] per batch, outside any
    [try]. *)
Fixpoint readBatches (file : File) (batches : list Batch) (indexes : PageIndexes)
  : IO PageIndexes :=
  match batches with
  | [] => ioRet indexes
  | batch :: batches' =>
      ioBind (readFileSlice file (start batch) (end_ batch)) (fun batchBytes =>
      readBatches file batches'
        (fold_left (decodeRequest batchBytes batch) (requests batch) indexes))
  end.

Definition parsePageIndexesStreaming (file : File) (fileMetaData : FileMetaData)
  : IO PageIndexes :=
  readBatches file (planBatches fileMetaData) (initialIndexes fileMetaData).

(** *** The entry points *)

(** [parseParquetFileStreaming]. *)
Definition parseParquetFileStreaming (file : File) : IO Parsed :=
  let fileSize := fileSize_of file in
  if fileSize <? 12 then ioThrow FileTooSmall
  else
    ioBind (readFileSlice file 0 4) (fun headerMagic =>
    if negb (bytesEqual headerMagic PARQUET_MAGIC) then ioThrow MissingHeaderMagic
    else
      ioBind (readFileSlice file (fileSize - 8) fileSize) (fun footerEnd =>
      let footerMagic := slice footerEnd 4 8 in
      if negb (bytesEqual footerMagic PARQUET_MAGIC) then ioThrow MissingFooterMagic
      else
        let footerLength := getUint32LE footerEnd in
        if footerLength >? fileSize - 8 then ioThrow (InvalidFooterLength footerLength)
        else
          let footerStart := fileSize - 8 - footerLength in
          ioBind (readFileSlice file footerStart (footerStart + footerLength))
            (fun footerBytes =>
          match readFileMetaData footerBytes with
          | Throw e => ioThrow e
          | Ok fileMetaData =>
              ioBind (parsePageIndexesStreaming file fileMetaData) (fun pageIndexes =>
              ioRet (mkParsed fileSize footerLength footerStart fileMetaData pageIndexes))
          end))).

(** [parseParquetFile]. *)
Definition parseParquetFile (bytes : list byte) : Result Parsed :=
  let fileSize := len bytes in
  if fileSize <? 12 then Throw FileTooSmall
  else
    let headerMagic := slice bytes 0 4 in
    if negb (bytesEqual headerMagic PARQUET_MAGIC) then Throw MissingHeaderMagic
    else
      let footerMagic := slice bytes (fileSize - 4) fileSize in
      if negb (bytesEqual footerMagic PARQUET_MAGIC) then Throw MissingFooterMagic
      else
        let footerLengthBytes := slice bytes (fileSize - 8) (fileSize - 4) in
        let footerLength := getUint32LE footerLengthBytes in
        if footerLength >? fileSize - 8 then Throw (InvalidFooterLength footerLength)
        else
          let footerStart := fileSize - 8 - footerLength in
          let footerBytes := slice bytes footerStart (footerStart + footerLength) in
          resultBind (readFileMetaData footerBytes) (fun fileMetaData =>
          let pageIndexes := parsePageIndexes bytes fileMetaData in
          Ok (mkParsed fileSize footerLength footerStart fileMetaData pageIndexes)).

End Decoders.

Arguments Slot : clear implicits.
Arguments PageIndexes : clear implicits.
Arguments Parsed : clear implicits.

(** [indexes[rg][col]]. *)
Definition slotAt {C O : Type} (indexes : PageIndexes C O) (rg col : nat)
  : option (Slot C O) :=
  match nth_error indexes rg with
  | Some row => nth_error row col
  | None => None
  end.

Section Slots.

Context {ColumnIndex OffsetIndex : Type}.
Variable ColumnIndex_read : Thrift.Reader -> ColumnIndex * option Exn.
Variable OffsetIndex_read : Thrift.Reader -> OffsetIndex * option Exn.

(** What a slot should hold for index bytes [indexBytes]: the decoded
    object, or [null] if the decoder throws. *)
Definition decodedOrNull {T : Type} (read : Thrift.Reader -> T * option Exn)
  (indexBytes : list byte) : option T :=
  match read (Thrift.newReader indexBytes) with
  | (object, None) => Some object
  | (_, Some _) => None
  end.

(** The entry of [pageIndexes] for a column chunk, computed from the
    file's bytes alone: each index the chunk declares is decoded from its
    own byte range, and is [null] if the chunk declares none or the decoder
    throws. *)
Definition expectedSlot (bytes : list byte) (columnChunk : ColumnChunk)
  : Slot ColumnIndex OffsetIndex :=
  mkSlot
    (if truthy (column_index_offset columnChunk) && truthy (column_index_length columnChunk)
     then decodedOrNull ColumnIndex_read
            (slice bytes (numberOf (column_index_offset columnChunk))
               (numberOf (column_index_offset columnChunk)
                + numberOf (column_index_length columnChunk)))
     else None)
    (if truthy (offset_index_offset columnChunk) && truthy (offset_index_length columnChunk)
     then decodedOrNull OffsetIndex_read
            (slice bytes (numberOf (offset_index_offset columnChunk))
               (numberOf (offset_index_offset columnChunk)
                + numberOf (offset_index_length columnChunk)))
     else None).

(** The effect of one request of the streaming path on the slot
    [(rg, col)], when the request's bytes are the file's bytes at its
    range. *)
Definition requestOnSlot (bytes : list byte) (rg col : nat)
  (s : Slot ColumnIndex OffsetIndex) (req : ReadRequest) : Slot ColumnIndex OffsetIndex :=
  if (rgIdx req =? rg)%nat && (colIdx req =? col)%nat then
    let indexBytes := slice bytes (offset req) (offset req + length req) in
    match type req with
    | columnIndex_ =>
        match decodedOrNull ColumnIndex_read indexBytes with
        | Some v => mkSlot (Some v) (offsetIndex s)
        | None => s
        end
    | offsetIndex_ =>
        match decodedOrNull OffsetIndex_read indexBytes with
        | Some v => mkSlot (columnIndex s) (Some v)
        | None => s
        end
    end
  else s.

(** A record as an entry point returns it for the file [bytes]. *)
Definition wellLocated (FileMetaData_read : Thrift.Reader -> FileMetaData * option Exn)
  (bytes : list byte) (p : Parsed ColumnIndex OffsetIndex) : Prop :=
  fileSize p = len bytes
  /\ 12 <= fileSize p
  /\ 0 <= footerLength p < 2 ^ 32
  /\ 0 <= footerStart p
  /\ footerStart p + footerLength p + 8 = fileSize p
  /\ FileMetaData_read
       (Thrift.newReader (byteRange bytes (footerStart p) (footerStart p + footerLength p)))
     = (fileMetaData p, None)
  /\ map (@List.length _) (pageIndexes p)
     = map (fun rowGroup => List.length (columns rowGroup)) (row_groups (fileMetaData p)).

(** Neither decoder throws on the index bytes the column chunk declares. *)
Definition decodable (bytes : list byte) (columnChunk : ColumnChunk) : Prop :=
  (truthy (column_index_offset columnChunk) && truthy (column_index_length columnChunk) = true ->
   snd (ColumnIndex_read (Thrift.newReader
          (slice bytes (numberOf (column_index_offset columnChunk))
             (numberOf (column_index_offset columnChunk)
              + numberOf (column_index_length columnChunk))))) = None)
  /\ (truthy (offset_index_offset columnChunk) && truthy (offset_index_length columnChunk) = true ->
      snd (OffsetIndex_read (Thrift.newReader
             (slice bytes (numberOf (offset_index_offset columnChunk))
                (numberOf (offset_index_offset columnChunk)
                 + numberOf (offset_index_length columnChunk))))) = None).

End Slots.

(** The bytes a list of requests asks for, and the number of column chunks
    of a footer. *)
Definition totalLength (rs : list ReadRequest) : Z :=
  fold_right (fun r acc => length r + acc) 0 rs.

Definition columnChunkCount (fileMetaData : FileMetaData) : nat :=
  fold_right (fun rowGroup acc => (List.length (columns rowGroup) + acc)%nat) 0%nat
             (row_groups fileMetaData).

(** A batch lies more than [gap] bytes before another. *)
Definition precedes (gap : Z) (b1 b2 : Batch) : Prop := end_ b1 + gap < start b2.

(** Whether a request is the one of kind [ty] for the slot [(rg, col)]. *)
Definition targets (rg col : nat) (ty : IndexType) (req : ReadRequest) : bool :=
  (rgIdx req =? rg)%nat && (colIdx req =? col)%nat
  && match ty, type req with
     | columnIndex_, columnIndex_ | offsetIndex_, offsetIndex_ => true
     | _, _ => false
     end.

End Parser.

(* ================================================================== *)
(** * Strings of the JavaScript runtime *)

Module JSString.

Local Open Scope string_scope.
Local Open Scope Z_scope.

Definition strlen (s : string) : Z := Z.of_nat (String.length s).

(** [s.slice(a, b)] and [s.slice(a)]. *)
Definition strSlice (s : string) (a b : Z) : string :=
  string_of_list_ascii (slice (list_ascii_of_string s) a b).

Definition strSliceFrom (s : string) (a : Z) : string :=
  strSlice s a (strlen s).

(** [s.startsWith(c)] for a one-character [c]. *)
Definition startsWith (c : ascii) (s : string) : bool :=
  match s with
  | String c' _ => Ascii.eqb c' c
  | EmptyString => false
  end.

(** [n] copies of [c]. *)
Fixpoint replicate (n : nat) (c : ascii) : string :=
  match n with
  | O => EmptyString
  | S n' => String c (replicate n' c)
  end.

(** [s.padStart(targetLength, c)] for a one-character filler [c]. *)
Definition padStart (s : string) (targetLength : Z) (c : ascii) : string :=
  if targetLength <=? strlen s then s
  else replicate (Z.to_nat (targetLength - strlen s)) c ++ s.

(** [s.replace(c, by)] for a one-character pattern: the first occurrence. *)
Fixpoint replaceFirst (c : ascii) (by_ : string) (s : string) : string :=
  match s with
  | EmptyString => EmptyString
  | String c' s' => if Ascii.eqb c' c then by_ ++ s' else String c' (replaceFirst c by_ s')
  end.

(** [parts.join(sep)]. *)
Fixpoint join (sep : string) (parts : list string) : string :=
  match parts with
  | [] => ""
  | [p] => p
  | p :: rest => p ++ sep ++ join sep rest
  end.

(** The one-character string of the double quote. *)
Definition quote : string := String "034"%char EmptyString.

(** A string whose characters may be any UTF-16 code unit, as a text
    decoded from bytes can be, is the list of its code units; [lit] embeds
    the strings above. *)
Definition lit (s : string) : list Z :=
  map (fun c => Z.of_N (N_of_ascii c)) (list_ascii_of_string s).

End JSString.
Import JSString.

(* ================================================================== *)
(** * src/statsFormatter.js *)

Module Stats.

Local Open Scope string_scope.
Local Open Scope Z_scope.

(** The member set in a [TimeUnit] union. *)
Inductive TimeUnit : Type := MILLIS | MICROS | NANOS.

(** The [details] object built by [getLogicalTypeInfo]; a key that is
    absent, [null] or [undefined] is [None]. *)
Record Details : Type := mkDetails {
  isAdjustedToUTC : option bool;
  unit_ : option TimeUnit;
  bitWidth : option Z;
  isSigned : option bool;
  scale : option Z;
  precision : option Z
}.

(** The value of [getLogicalTypeInfo]. *)
Record LogicalInfo : Type := mkLogicalInfo {
  type : option string;
  details : option Details
}.

(** Modelled from the spec: the [LogicalType] union of [parquet_types.js], as
    [getLogicalTypeInfo] reads it ("decimal scale+precision, time/timestamp
    unit+UTC-adjustment flag, integer width+signedness, or a simple marker
    type such as date/string/uuid/json/enum/bson").  A member is present
    ([true], [Some]) or [null]. *)
Record LogicalType : Type := mkLogicalType {
  STRING : bool;
  DATE : bool;
  TIME : option (option bool * option TimeUnit);
  TIMESTAMP : option (option bool * option TimeUnit);
  INTEGER : option (option Z * option bool);
  DECIMAL : option (option Z * option Z);
  UUID : bool;
  JSON : bool;
  BSON : bool;
  ENUM : bool
}.

(** Modelled from the spec: the [SchemaElement] class of [parquet_types.js],
    with the fields [getLogicalTypeInfo] reads. *)
Module SchemaElement.
Record t : Type := mk {
  logicalType : option LogicalType;
  converted_type : option Z;
  scale : option Z;
  precision : option Z
}.
End SchemaElement.

(** Modelled from the spec: the [ColumnMetaData] class of [parquet_types.js],
    with the field [formatStatValue] reads: the physical type code. *)
Module ColumnMetaData.
Record t : Type := mk {
  type : Z
}.
End ColumnMetaData.

(** [x || 0]. *)
Definition orZero (x : option Z) : Z :=
  match x with
  | Some v => v
  | None => 0
  end.

(** [logicalInfo.details?.unit] and [logicalInfo.details?.scale || 0]. *)
Definition unitOf (info : LogicalInfo) : option TimeUnit :=
  match details info with
  | Some d => unit_ d
  | None => None
  end.

Definition scaleOf (info : LogicalInfo) : Z :=
  match details info with
  | Some d => orZero (scale d)
  | None => 0
  end.

(** ** Rendering of integers and bytes *)

(** A digit of [b.toString(16)]. *)
Definition hexDigit (d : Z) : ascii :=
  if d <? 10 then ascii_of_N (Z.to_N (48 + d)) else ascii_of_N (Z.to_N (87 + d)).

(** [b.toString(16).padStart(2, '0')] for a byte. *)
Definition hexByte (b : byte) : string :=
  String (hexDigit (u8 b / 16)) (String (hexDigit (u8 b mod 16)) EmptyString).

(** [Array.from(bytes).map(hexByte).join(sep)]. *)
Definition hexJoin (sep : string) (bytes : list byte) : string :=
  join sep (map hexByte bytes).

(** The rendering of the [catch] block of [formatStatValue] and of the
    byte-array fallback: the first 16 bytes in hex, then an ellipsis if
    there are more. *)
Definition hexFallback (value : list byte) : string :=
  hexJoin " " (slice value 0 16) ++ (if len value >? 16 then "..." else "").

(** [formatUUID]; nothing in its [try] block throws. *)
Definition formatUUID (bytes : list byte) : string :=
  if negb (len bytes =? 16) then hexJoin "" bytes
  else
    let hex := hexJoin "" bytes in
    strSlice hex 0 8 ++ "-" ++ strSlice hex 8 12 ++ "-" ++ strSlice hex 12 16
    ++ "-" ++ strSlice hex 16 20 ++ "-" ++ strSliceFrom hex 20.

(** The decimal branch for byte arrays: the bytes as a big-endian
    two's-complement integer. *)
Definition decimalOfBytes (value : list byte) : Z :=
  let isNegative := negb (Z.land (match value with b :: _ => u8 b | [] => 0 end) 128 =? 0) in
  let bigInt :=
    fold_left (fun acc b =>
                 Z.lor (Z.shiftl acc 8) (if isNegative then Z.lxor (u8 b) 255 else u8 b))
              value 0 in
  if isNegative then - (bigInt + 1) else bigInt.

(** A [Date] object: its time value, [None] for NaN (an invalid date). *)
Record Date : Type := mkDate { getTime : option Z }.

(** The range of time values: 100 000 000 days on either side of the
    epoch, in milliseconds. *)
Definition validDate (ms : Z) : bool := Z.abs ms <=? 8640000000000000.

(** [new Date(value)] for a Number that holds an integer: the time value
    is the number if it is in the range, NaN otherwise.  (The range lies
    within the safe integers, and the double nearest to an integer outside
    the range is outside it too, so the rounding of [Number(v)] for a
    large BigInt [v] does not show in [new Date(Number(v))].) *)
Definition newDate (value : Z) : Date :=
  mkDate (if validDate value then Some value else None).

(** [parseINT96Timestamp], [None] for the [null] result.  Nothing in its
    [try] block throws. *)
Definition parseINT96Timestamp (bytes : list byte) : option Date :=
  if negb (len bytes =? 12) then None
  else
    let nanoLow := getUint32LE bytes in
    let nanoHigh := getUint32LE (skipn 4 bytes) in
    let nanoseconds := nanoLow + Z.shiftl nanoHigh 32 in
    let julianDay := getInt32LE (skipn 8 bytes) in
    let unixDays := julianDay - 2440588 in
    let unixMs := unixDays * 86400000 + Z.quot nanoseconds 1000000 in
    Some (newDate (Number unixMs)).

(** The test of the regular expression of the string branch on one code
    unit: printable ASCII (0x20 to 0x7E), tab, newline, carriage return, or
    a unit from 0xA0 to 0xFFFF. *)
Definition printableUnit (u : Z) : bool :=
  ((32 <=? u) && (u <=? 126)) || (u =? 9) || (u =? 10) || (u =? 13)
  || ((160 <=? u) && (u <=? 65535)).

Definition isPrintable (text : list Z) : bool := forallb printableUnit text.

(** What the formatter takes from its environment.

    The enum tables of [parquet_types.js]: [Type[code]] and
    [ConvertedType[code]], [None] where the table has no entry.

    Services of the JavaScript runtime that work on doubles, dates,
    locales and encodings; each may throw:

    - [toLocaleString v]: [v.toLocaleString()] for an integer;
    - [toISOString ms]: [new Date(ms).toISOString()] for a valid time value;
    - [formatDate_try], [formatTime_try], [formatTimestamp_try]: the [try]
      blocks of [formatDate], [formatTime] and [formatTimestamp]
      (floating-point products and [Date] arithmetic);
    - [formatFloat], [formatDouble]: the FLOAT and DOUBLE branches of
      [formatStatValue] after their length test, on the first 4 resp. 8
      bytes;
    - [decodeUtf8]: [new TextDecoder('utf-8', { fatal: true }).decode(v)],
      the code units of the text.

    The longest string the engine builds, [maxStringLength]: an operation
    whose result would be longer throws a [RangeError] (the limit is
    [2^29 - 24] in V8, for instance, and below [2^31] in the engines in
    use). *)
Record Runtime : Type := mkRuntime {
  maxStringLength : Z;
  Type_ : Z -> option string;
  ConvertedType : Z -> option string;
  toLocaleString : Z -> Result string;
  toISOString : Z -> Result string;
  formatDate_try : Z -> Result string;
  formatTime_try : Z -> option TimeUnit -> Result string;
  formatTimestamp_try : Z -> option TimeUnit -> Result string;
  formatFloat : list byte -> Result string;
  formatDouble : list byte -> Result string;
  decodeUtf8 : list byte -> Result (list Z)
}.

Section Formatter.

Variable rt : Runtime.

(** [EnumHelpers.getTypeName] and [EnumHelpers.getConvertedTypeName]
    ([parquetParser.js]): the table entry, or ["Unknown(code)"] when it is
    missing or empty. *)
Definition getTypeName (type : Z) : string :=
  match Type_ rt type with
  | Some name => if String.eqb name "" then "Unknown(" ++ toString type ++ ")" else name
  | None => "Unknown(" ++ toString type ++ ")"
  end.

Definition getConvertedTypeName (type : Z) : string :=
  match ConvertedType rt type with
  | Some name => if String.eqb name "" then "Unknown(" ++ toString type ++ ")" else name
  | None => "Unknown(" ++ toString type ++ ")"
  end.

(** [getLogicalTypeInfo]. *)
Definition getLogicalTypeInfo (schemaElement : option SchemaElement.t) : LogicalInfo :=
  match schemaElement with
  | None => mkLogicalInfo None None
  | Some schemaElement =>
      let viaConverted :=
        match SchemaElement.converted_type schemaElement with
        | None => mkLogicalInfo None None
        | Some convertedType =>
            let name := getConvertedTypeName convertedType in
            let timeUnit u := Some (mkDetails None (Some u) None None None None) in
            let integer w s := Some (mkDetails None None (Some w) (Some s) None None) in
            if String.eqb name "UTF8" then mkLogicalInfo (Some "STRING") None
            else if String.eqb name "DATE" then mkLogicalInfo (Some "DATE") None
            else if String.eqb name "TIME_MILLIS" then mkLogicalInfo (Some "TIME") (timeUnit MILLIS)
            else if String.eqb name "TIME_MICROS" then mkLogicalInfo (Some "TIME") (timeUnit MICROS)
            else if String.eqb name "TIMESTAMP_MILLIS"
              then mkLogicalInfo (Some "TIMESTAMP") (timeUnit MILLIS)
            else if String.eqb name "TIMESTAMP_MICROS"
              then mkLogicalInfo (Some "TIMESTAMP") (timeUnit MICROS)
            else if String.eqb name "DECIMAL"
              then mkLogicalInfo (Some "DECIMAL")
                     (Some (mkDetails None None None None
                              (Some (orZero (SchemaElement.scale schemaElement)))
                              (Some (orZero (SchemaElement.precision schemaElement)))))
            else if String.eqb name "INT_8" then mkLogicalInfo (Some "INTEGER") (integer 8 true)
            else if String.eqb name "INT_16" then mkLogicalInfo (Some "INTEGER") (integer 16 true)
            else if String.eqb name "INT_32" then mkLogicalInfo (Some "INTEGER") (integer 32 true)
            else if String.eqb name "INT_64" then mkLogicalInfo (Some "INTEGER") (integer 64 true)
            else if String.eqb name "UINT_8" then mkLogicalInfo (Some "INTEGER") (integer 8 false)
            else if String.eqb name "UINT_16" then mkLogicalInfo (Some "INTEGER") (integer 16 false)
            else if String.eqb name "UINT_32" then mkLogicalInfo (Some "INTEGER") (integer 32 false)
            else if String.eqb name "UINT_64" then mkLogicalInfo (Some "INTEGER") (integer 64 false)
            else if String.eqb name "JSON" then mkLogicalInfo (Some "JSON") None
            else if String.eqb name "BSON" then mkLogicalInfo (Some "BSON") None
            else if String.eqb name "ENUM" then mkLogicalInfo (Some "ENUM") None
            else mkLogicalInfo (Some name) None
        end in
      match SchemaElement.logicalType schemaElement with
      | None => viaConverted
      | Some logicalType =>
          if STRING logicalType then mkLogicalInfo (Some "STRING") None
          else if DATE logicalType then mkLogicalInfo (Some "DATE") None
          else
            match TIME logicalType with
            | Some (utc, u) =>
                mkLogicalInfo (Some "TIME") (Some (mkDetails utc u None None None None))
            | None =>
            match TIMESTAMP logicalType with
            | Some (utc, u) =>
                mkLogicalInfo (Some "TIMESTAMP") (Some (mkDetails utc u None None None None))
            | None =>
            match INTEGER logicalType with
            | Some (w, s) =>
                mkLogicalInfo (Some "INTEGER") (Some (mkDetails None None w s None None))
            | None =>
            match DECIMAL logicalType with
            | Some (sc, pr) =>
                mkLogicalInfo (Some "DECIMAL") (Some (mkDetails None None None None sc pr))
            | None =>
                if UUID logicalType then mkLogicalInfo (Some "UUID") None
                else if JSON logicalType then mkLogicalInfo (Some "JSON") None
                else if BSON logicalType then mkLogicalInfo (Some "BSON") None
                else if ENUM logicalType then mkLogicalInfo (Some "ENUM") None
                else viaConverted
            end end end end
      end
  end.

(** [try { body } catch (e) { handler }]. *)
Definition tryCatch {A : Type} (body : Result A) (handler : Exn -> Result A) : Result A :=
  match body with
  | Ok a => Ok a
  | Throw e => handler e
  end.

(** A string the engine has built by concatenation, and [s.padStart(n, c)]:
    a [RangeError] if the result is longer than the engine allows.
    [padStart] returns [s] itself if it has [n] characters or more. *)
Definition built (s : string) : Result string :=
  if strlen s >? maxStringLength rt then Throw InvalidStringLength else Ok s.

Definition padStartBuilt (s : string) (targetLength : Z) (c : ascii) : Result string :=
  if targetLength <=? strlen s then Ok s
  else if targetLength >? maxStringLength rt then Throw InvalidStringLength
  else Ok (padStart s targetLength c).

(** The [try] block of [formatDecimal].  Of the three concatenations of
    its last line the last gives the longest string, so it throws if any
    of them does. *)
Definition formatDecimal_try (intValue : Z) (scale : Z) : Result string :=
  let str := toString intValue in
  if scale =? 0 then Ok str
  else
    let isNegative := startsWith "-" str in
    let absStr := if isNegative then strSliceFrom str 1 else str in
    match padStartBuilt absStr (scale + 1) "0" with
    | Throw e => Throw e
    | Ok padded =>
        let intPart :=
          let s := strSlice padded 0 (- scale) in
          if String.eqb s "" then "0" else s in
        let decPart := strSliceFrom padded (- scale) in
        built ((if isNegative then "-" else "") ++ intPart ++ "." ++ decPart)
    end.

(** [formatDecimal]: what its [try] block throws ends in the decimal
    string of the integer. *)
Definition formatDecimal (intValue : Z) (scale : Z) : string :=
  match formatDecimal_try intValue scale with
  | Ok rendered => rendered
  | Throw _ => toString intValue
  end.

(** [formatTimestamp], [formatDate] and [formatTime]: each catches what
    its [try] block throws and renders the integer itself. *)
Definition formatTimestamp (value : Z) (unit : option TimeUnit) : Result string :=
  tryCatch (formatTimestamp_try rt value unit) (fun _ => Ok (toString value)).

Definition formatDate (days : Z) : Result string :=
  tryCatch (formatDate_try rt days) (fun _ => Ok (toString days)).

Definition formatTime (value : Z) (unit : option TimeUnit) : Result string :=
  tryCatch (formatTime_try rt value unit) (fun _ => Ok (toString value)).

Definition typeIs (info : LogicalInfo) (name : string) : bool :=
  match type info with
  | Some t => String.eqb t name
  | None => false
  end.

Definition typeIsNull (info : LogicalInfo) : bool :=
  match type info with
  | Some _ => false
  | None => true
  end.

Definition liftString (r : Result string) : Result (list Z) :=
  match r with
  | Ok s => Ok (lit s)
  | Throw e => Throw e
  end.

(** The [try] block of [formatStatValue]. *)
Definition formatStatValue_try (value : list byte) (physicalType : string)
  (logicalInfo : LogicalInfo) : Result (list Z) :=
  if String.eqb physicalType "BOOLEAN" then
    match value with
    | b :: _ => if u8 b =? 0 then Ok (lit "false") else Ok (lit "true")
    | [] => Ok (lit "false")
    end
  else if String.eqb physicalType "INT32" then
    if len value <? 4 then Ok (lit "N/A")
    else
      let intValue := getInt32LE value in
      if typeIs logicalInfo "DATE" then liftString (formatDate intValue)
      else if typeIs logicalInfo "TIME" then liftString (formatTime intValue (unitOf logicalInfo))
      else if typeIs logicalInfo "DECIMAL"
        then Ok (lit (formatDecimal intValue (scaleOf logicalInfo)))
      else liftString (toLocaleString rt intValue)
  else if String.eqb physicalType "INT64" then
    if len value <? 8 then Ok (lit "N/A")
    else
      let bigIntValue := getBigInt64LE value in
      if typeIs logicalInfo "TIMESTAMP"
        then liftString (formatTimestamp bigIntValue (unitOf logicalInfo))
      else if typeIs logicalInfo "TIME"
        then liftString (formatTime bigIntValue (unitOf logicalInfo))
      else if typeIs logicalInfo "DECIMAL"
        then Ok (lit (formatDecimal bigIntValue (scaleOf logicalInfo)))
      else liftString (toLocaleString rt bigIntValue)
  else if String.eqb physicalType "INT96" then
    match parseINT96Timestamp value with
    | Some date =>
        match getTime date with
        | Some ms =>
            liftString
              (match toISOString rt ms with
               | Ok iso => Ok (replaceFirst "Z" " UTC" (replaceFirst "T" " " iso))
               | Throw e => Throw e
               end)
        | None => Ok (lit (hexJoin " " (slice value 0 12)))
        end
    | None => Ok (lit (hexJoin " " (slice value 0 12)))
    end
  else if String.eqb physicalType "FLOAT" then
    if len value <? 4 then Ok (lit "N/A")
    else liftString (formatFloat rt (slice value 0 4))
  else if String.eqb physicalType "DOUBLE" then
    if len value <? 8 then Ok (lit "N/A")
    else liftString (formatDouble rt (slice value 0 8))
  else if String.eqb physicalType "BYTE_ARRAY"
          || String.eqb physicalType "FIXED_LEN_BYTE_ARRAY" then
    if typeIs logicalInfo "UUID" then Ok (lit (formatUUID value))
    else if typeIs logicalInfo "DECIMAL"
      then Ok (lit (formatDecimal (decimalOfBytes value) (scaleOf logicalInfo)))
    else
      let hex := Ok (lit (hexFallback value)) in
      if typeIs logicalInfo "STRING" || typeIs logicalInfo "JSON"
         || typeIs logicalInfo "ENUM" || typeIsNull logicalInfo
      then
        match decodeUtf8 rt value with
        | Ok text =>
            if isPrintable text then
              if len text >? 50
              then Ok (lit quote ++ slice text 0 47 ++ lit ("..." ++ quote))%list
              else Ok (lit quote ++ text ++ lit quote)%list
            else hex
        | Throw _ => hex
        end
      else hex
  else Ok (lit "N/A").

(** [formatStatValue]. *)
Definition formatStatValue (value : option (list byte))
  (columnMeta : option ColumnMetaData.t) (schemaElement : option SchemaElement.t)
  : Result (list Z) :=
  match value, columnMeta with
  | Some value, Some columnMeta =>
      let physicalType := getTypeName (ColumnMetaData.type columnMeta) in
      let logicalInfo := getLogicalTypeInfo schemaElement in
      tryCatch (formatStatValue_try value physicalType logicalInfo)
               (fun _ => Ok (lit (hexFallback value)))
  | _, _ => Ok (lit "N/A")
  end.

End Formatter.

(** ** Lookup of a schema element *)

Section SchemaLookup.

(** The elements of the [schema] array, of which [findSchemaElement] reads
    [elem.name] ([None] when it is not a string) and whether [elem.type] is
    not [undefined]. *)
Variable Elem : Type.
Variable name : Elem -> option string.
Variable typeDefined : Elem -> bool.

Definition nameIs (elem : Elem) (s : string) : bool :=
  match name elem with
  | Some n => String.eqb n s
  | None => false
  end.

(** [findSchemaElement]; [None] is [null], for the arguments and for the
    result. *)
Definition findSchemaElement (schema : option (list Elem))
  (pathInSchema : option (list string)) : option Elem :=
  match schema, pathInSchema with
  | Some schema, Some pathInSchema =>
      if (List.length pathInSchema =? 0)%nat then None
      else
        let columnName := nth (List.length pathInSchema - 1) pathInSchema "" in
        match find (fun elem => nameIs elem columnName && typeDefined elem) schema with
        | Some elem => Some elem
        | None =>
            let targetPath := join "." pathInSchema in
            find (fun elem => nameIs elem targetPath) schema
        end
  | _, _ => None
  end.

End SchemaLookup.

(** ** Notions used to state the properties *)

(** Whether a [LogicalType] union has a member that [getLogicalTypeInfo]
    looks for. *)
Definition hasMember (logicalType : LogicalType) : bool :=
  STRING logicalType || DATE logicalType
  || match TIME logicalType with Some _ => true | None => false end
  || match TIMESTAMP logicalType with Some _ => true | None => false end
  || match INTEGER logicalType with Some _ => true | None => false end
  || match DECIMAL logicalType with Some _ => true | None => false end
  || UUID logicalType || JSON logicalType || BSON logicalType || ENUM logicalType.

(** The bytes as an unsigned big-endian integer. *)
Definition bigEndian (bytes : list byte) : Z :=
  fold_left (fun acc b => acc * 256 + u8 b) bytes 0.

(** The first 8 bytes as an unsigned little-endian integer. *)
Definition getBigUint64LE (b : list byte) : Z :=
  getUint32LE b + getUint32LE (skipn 4 b) * 2 ^ 32.

(** A character of [b.toString(16)]. *)
Definition isHexDigit (c : ascii) : bool :=
  let n := Z.of_N (N_of_ascii c) in
  ((48 <=? n) && (n <=? 57)) || ((97 <=? n) && (n <=? 102)).

(** The string without its characters [c]. *)
Fixpoint without (c : ascii) (s : string) : string :=
  match s with
  | EmptyString => EmptyString
  | String c' s' => if Ascii.eqb c' c then without c s' else String c' (without c s')
  end.

End Stats.

(* ================================================================== *)
(** * src/components/hierarchical/encodingUtils.js *)

Module EncodingUtils.

Local Open Scope string_scope.
Local Open Scope Z_scope.

(** [SHORT_ENCODING_NAMES] ([constants.js]), as a lookup by key; [None]
    where the object has no such key (the keys it inherits from
    [Object.prototype] are not names of encodings and are left out). *)
Definition SHORT_ENCODING_NAMES (fullName : string) : option string :=
  if String.eqb fullName "PLAIN" then Some "PLAIN"
  else if String.eqb fullName "PLAIN_DICTIONARY" then Some "DICT"
  else if String.eqb fullName "RLE" then Some "RLE"
  else if String.eqb fullName "BIT_PACKED" then Some "BIT"
  else if String.eqb fullName "DELTA_BINARY_PACKED" then Some "DELTA"
  else if String.eqb fullName "DELTA_LENGTH_BYTE_ARRAY" then Some "DELTA_LEN"
  else if String.eqb fullName "DELTA_BYTE_ARRAY" then Some "DELTA_BA"
  else if String.eqb fullName "RLE_DICTIONARY" then Some "DICT"
  else if String.eqb fullName "BYTE_STREAM_SPLIT" then Some "SPLIT"
  else None.

(** A [Set] of numbers, in insertion order, and [set.add(x)]. *)
Definition setAdd (set : list Z) (x : Z) : list Z :=
  if existsb (Z.eqb x) set then set else (set ++ [x])%list.

(** [new Set(xs)]. *)
Definition newSet (xs : list Z) : list Z := fold_left setAdd xs [].

(** An entry of the value of [formatEncodingStats]. *)
Record Group : Type := mkGroup {
  pageType : string;
  encoding : string;
  count : Z
}.

(** [grouped[key].count += n] for a key the object has, entry by entry. *)
Fixpoint addCount (key : string) (n : Z) (grouped : list (string * Group))
  : list (string * Group) :=
  match grouped with
  | [] => []
  | (k, g) :: rest =>
      if String.eqb k key
      then (k, mkGroup (pageType g) (encoding g) (count g + n)) :: rest
      else (k, g) :: addCount key n rest
  end.

(** The sum of the counts of a list of groups. *)
Definition totalCount (groups : list Group) : Z :=
  fold_right (fun g acc => count g + acc) 0 groups.

Section Encodings.

(** The tables [Encoding] and [PageType] of [parquet_types.js], [None]
    where a table has no entry; and the entries of [encoding_stats], of
    which the code reads [page_type], [encoding] and [count]. *)
Variable Encoding : Z -> option string.
Variable PageType : Z -> option string.
Variable Stat : Type.
Variable page_type : Stat -> Z.
Variable stat_encoding : Stat -> Z.
Variable stat_count : Stat -> Z.

(** [EnumHelpers.getEncodingName] and [EnumHelpers.getPageTypeName]
    ([parquetParser.js]). *)
Definition getEncodingName (encoding : Z) : string :=
  match Encoding encoding with
  | Some name => if String.eqb name "" then "Unknown(" ++ toString encoding ++ ")" else name
  | None => "Unknown(" ++ toString encoding ++ ")"
  end.

Definition getPageTypeName (type : Z) : string :=
  match PageType type with
  | Some name => if String.eqb name "" then "Unknown(" ++ toString type ++ ")" else name
  | None => "Unknown(" ++ toString type ++ ")"
  end.

(** [getShortEncodingName]. *)
Definition getShortEncodingName (encodingValue : Z) : string :=
  let fullName := getEncodingName encodingValue in
  match SHORT_ENCODING_NAMES fullName with
  | Some short => short
  | None => fullName
  end.

(** [getPrimaryEncodings]; [None] is [null] or [undefined]. *)
Definition getPrimaryEncodings (encodings : option (list Z))
  (encodingStats : option (list Stat)) : list Z :=
  match encodings with
  | None => []
  | Some encodings =>
      if (List.length encodings =? 0)%nat then []
      else
        let dataEncodings :=
          match encodingStats with
          | Some stats =>
              fold_left (fun set stat =>
                           if (page_type stat =? 0) || (page_type stat =? 3)
                           then setAdd set (stat_encoding stat) else set)
                        stats []
          | None => []
          end in
        if (0 <? List.length dataEncodings)%nat then dataEncodings
        else
          let uniqueEncodings := newSet encodings in
          let filtered :=
            filter (fun e =>
                      let name := getEncodingName e in
                      negb (String.eqb name "RLE") && negb (String.eqb name "BIT_PACKED"))
                   uniqueEncodings in
          if (1 <? List.length uniqueEncodings)%nat && (0 <? List.length filtered)%nat
          then filtered
          else uniqueEncodings
  end.

(** One iteration of the loop of [formatEncodingStats] on the object
    [grouped], whose entries are kept in insertion order. *)
Definition groupStep (grouped : list (string * Group)) (stat : Stat)
  : list (string * Group) :=
  let pageType := getPageTypeName (page_type stat) in
  let encoding := getShortEncodingName (stat_encoding stat) in
  let key := pageType ++ ":" ++ encoding in
  let grouped :=
    if existsb (fun kg => String.eqb (fst kg) key) grouped then grouped
    else (grouped ++ [(key, mkGroup pageType encoding 0)])%list in
  addCount key (stat_count stat) grouped.

(** The key of a statistic in [grouped], and the sum of the counts of the
    statistics with a key. *)
Definition statKey (stat : Stat) : string :=
  getPageTypeName (page_type stat) ++ ":" ++ getShortEncodingName (stat_encoding stat).

Definition countFor (key : string) (stats : list Stat) : Z :=
  fold_right (fun stat acc => (if String.eqb (statKey stat) key then stat_count stat else 0)
                              + acc) 0 stats.

Definition totalStatCount (stats : list Stat) : Z :=
  fold_right (fun stat acc => stat_count stat + acc) 0 stats.

(** What the loop of [formatEncodingStats] keeps, for the object [grouped]
    after the statistics [seen]: the keys are distinct, each entry is filed
    under the key of its own page type and encoding, its count is the sum
    of the counts seen for that key, and every key seen has an entry. *)
Definition grouping (grouped : list (string * Group)) (seen : list Stat) : Prop :=
  NoDup (map fst grouped)
  /\ (forall k g, In (k, g) grouped ->
        k = pageType g ++ ":" ++ encoding g
        /\ count g = countFor k seen
        /\ exists stat, In stat seen /\ statKey stat = k)
  /\ totalCount (map snd grouped) = totalStatCount seen
  /\ (List.length grouped <= List.length seen)%nat
  /\ (forall stat, In stat seen -> In (statKey stat) (map fst grouped)).

(** [formatEncodingStats]. *)
Definition formatEncodingStats (encodingStats : option (list Stat)) : option (list Group) :=
  match encodingStats with
  | None => None
  | Some stats =>
      if (List.length stats =? 0)%nat then None
      else Some (map snd (fold_left groupStep stats []))
  end.

End Encodings.

End EncodingUtils.

(* ================================================================== *)
(** * Example inputs *)

Module Examples.

Import Parser.

(** A stand-in for a generated index class: its one field is populated by
    reading a binary value; [read] leaves the fresh object as it is when
    the bytes end too early. *)
Record ExampleIndex : Type := mkExampleIndex { payload : option (list byte) }.

Definition exampleIndex_read (r : Thrift.Reader) : ExampleIndex * option Exn :=
  match Thrift.readBinary r with
  | Ok (v, _) => (mkExampleIndex (Some v), None)
  | Throw e => (mkExampleIndex None, Some e)
  end.

(** A footer that declares one row group of two column chunks, with column
    indexes at [4, 6) and at [200000, 200002). *)
Definition exampleMetaData : FileMetaData :=
  mkFileMetaData 2 0
    [mkRowGroup [mkColumnChunk None None (Some 4) (Some 2);
                 mkColumnChunk None None (Some 200000) (Some 2)]].

(** A footer that declares one row group of two column chunks: the first
    with a column index at [4, 6) and an offset index at [7, 9), the second
    with a column index at [7, 9). *)
Definition exampleTwoColumns : FileMetaData :=
  mkFileMetaData 2 0
    [mkRowGroup [mkColumnChunk (Some 7) (Some 2) (Some 4) (Some 2);
                 mkColumnChunk None None (Some 7) (Some 2)]].

Definition exampleFileMetaData_read (r : Thrift.Reader) : FileMetaData * option Exn :=
  match Thrift.readByte r with
  | Ok _ => (exampleMetaData, None)
  | Throw e => (mkFileMetaData 0 0 [], Some e)
  end.

(** A file of 15 bytes: magic, two bytes of index data (a binary value
    that announces five bytes and holds one), a one-byte footer, its
    length, magic. *)
Definition exampleBytes : list byte :=
  [x50; x41; x52; x31] ++ [x05; x41] ++ [x00] ++ [x01; x00; x00; x00]
  ++ [x50; x41; x52; x31].

Definition exampleReliableFile : File := mkFile exampleBytes (fun _ _ => false).

(** The same file when the read that starts at offset 4 fails. *)
Definition exampleFile : File := mkFile exampleBytes (fun start _ => start =? 4).

(** The smallest file that passes the size test. *)
Definition minimalBytes : list byte :=
  [x50; x41; x52; x31] ++ [x00; x00; x00; x00] ++ [x50; x41; x52; x31].

(** The requests of the scheduler example of the specification. *)
Definition exampleRequests : list ReadRequest :=
  [mkReadRequest 0 0 columnIndex_ 100 50;
   mkReadRequest 0 0 offsetIndex_ 200 50;
   mkReadRequest 0 1 columnIndex_ 10000 50].

(** A file of 20 bytes, the byte at offset [i] being [i], none of whose
    reads fails; and a footer whose first column chunk declares a column
    index of 5 bytes at the offset -10 and whose second declares one at
    [[2, 5)]. *)
Definition strayBytes : list byte :=
  [x00; x01; x02; x03; x04; x05; x06; x07; x08; x09;
   x0a; x0b; x0c; x0d; x0e; x0f; x10; x11; x12; x13].

Definition strayFile : File := mkFile strayBytes (fun _ _ => false).

Definition strayMetaData : FileMetaData :=
  mkFileMetaData 2 0
    [mkRowGroup [mkColumnChunk None None (Some (-10)) (Some 5);
                 mkColumnChunk None None (Some 2) (Some 3)]].

(** A runtime that builds strings of up to [2^29 - 24] characters, knows
    the type code 6 as BYTE_ARRAY and decodes bytes below 128 as the
    characters of the same codes; its other services throw. *)
Definition asciiRuntime : Stats.Runtime :=
  Stats.mkRuntime (2 ^ 29 - 24)
    (fun code => if code =? 6 then Some "BYTE_ARRAY"%string else None)
    (fun _ => None)
    (fun _ => Throw (RuntimeError 1))
    (fun _ => Throw (RuntimeError 2))
    (fun _ => Throw (RuntimeError 3))
    (fun _ _ => Throw (RuntimeError 4))
    (fun _ _ => Throw (RuntimeError 5))
    (fun _ => Throw (RuntimeError 6))
    (fun _ => Throw (RuntimeError 7))
    (fun value => if forallb (fun b => u8 b <? 128) value then Ok (map u8 value)
                  else Throw (RuntimeError 8)).

(** A struct of three fields (an i32, a binary of one byte, a boolean
    true), followed by a byte that is not part of it. *)
Definition exampleStruct : list byte := [x15; x02; x18; x01; x41; x11; x00; xff].

(** A runtime with the same limit on strings that knows the type code 1
    as INT32 and all of whose services throw. *)
Definition failingRuntime : Stats.Runtime :=
  Stats.mkRuntime (2 ^ 29 - 24)
    (fun code => if code =? 1 then Some "INT32"%string else None)
    (fun _ => None)
    (fun _ => Throw (RuntimeError 1))
    (fun _ => Throw (RuntimeError 2))
    (fun _ => Throw (RuntimeError 3))
    (fun _ _ => Throw (RuntimeError 4))
    (fun _ _ => Throw (RuntimeError 5))
    (fun _ => Throw (RuntimeError 6))
    (fun _ => Throw (RuntimeError 7))
    (fun _ => Throw (RuntimeError 8)).

End Examples.

(* ================================================================== *)
(** * Properties of the runtime primitives *)

Lemma len_nonneg {A : Type} (l : list A) : 0 <= len l.
Proof. unfold len. lia. Qed.

Lemma u8_range (b : byte) : 0 <= u8 b <= 255.
Proof. unfold u8. pose proof (Byte.to_N_bounded b). lia. Qed.

(** For indices that are not negative, [slice] is the sublist between
    them; the clamping to the length is that of [firstn] and [skipn]. *)
Lemma slice_range {A : Type} (l : list A) (s e : Z) :
  0 <= s -> 0 <= e ->
  slice l s e = firstn (Z.to_nat (e - s)) (skipn (Z.to_nat s) l).
Proof.
  intros Hs He. unfold slice, relativeIndex.
  destruct (Z.ltb_spec s 0); [lia|]. destruct (Z.ltb_spec e 0); [lia|].
  pose proof (len_nonneg l) as Hl. unfold len in *.
  destruct (Z.le_gt_cases s (Z.of_nat (List.length l))) as [Hsl|Hsl].
  - rewrite (Z.min_l s) by lia.
    destruct (Z.le_gt_cases e (Z.of_nat (List.length l))) as [Hel|Hel].
    + rewrite (Z.min_l e) by lia.
      destruct (Z.le_gt_cases s e).
      * rewrite Z.max_l by lia. reflexivity.
      * rewrite Z.max_r by lia.
        replace (Z.to_nat (e - s)) with 0%nat by lia. reflexivity.
    + rewrite (Z.min_r e) by lia. rewrite Z.max_l by lia.
      rewrite !firstn_all2; auto; rewrite length_skipn; lia.
  - rewrite (Z.min_r s) by lia.
    rewrite !skipn_all2 by lia. rewrite !firstn_nil. reflexivity.
Qed.

Lemma len_slice_range {A : Type} (l : list A) (s e : Z) :
  0 <= s -> s <= e -> e <= len l -> len (slice l s e) = e - s.
Proof.
  intros. rewrite slice_range by lia. unfold len in *.
  rewrite length_firstn, length_skipn. lia.
Qed.

(** A slice of a slice is a slice of the whole, when the inner range lies
    in the outer one. *)
Lemma slice_of_slice {A : Type} (l : list A) (from to o n : Z) :
  0 <= from -> from <= o -> 0 <= n -> o + n <= to ->
  slice (slice l from to) (o - from) (o - from + n) = slice l o (o + n).
Proof.
  intros. rewrite (slice_range l from to) by lia.
  rewrite slice_range by lia. rewrite (slice_range l o) by lia.
  replace (o - from + n - (o - from)) with n by lia.
  replace (o + n - o) with n by lia.
  rewrite skipn_firstn_comm, firstn_firstn, skipn_skipn.
  replace (Z.to_nat (o - from) + Z.to_nat from)%nat with (Z.to_nat o) by lia.
  f_equal. lia.
Qed.

Lemma getUint32LE_firstn (n : nat) (l : list byte) :
  (4 <= n)%nat -> getUint32LE (firstn n l) = getUint32LE l.
Proof.
  intros H. unfold getUint32LE. rewrite !nth_firstn.
  repeat match goal with |- context [(?i <? n)%nat] =>
    destruct (Nat.ltb_spec i n); [|lia] end.
  reflexivity.
Qed.

Lemma getUint32LE_range (l : list byte) : 0 <= getUint32LE l < 2 ^ 32.
Proof.
  unfold getUint32LE.
  pose proof (u8_range (nth 0 l x00)). pose proof (u8_range (nth 1 l x00)).
  pose proof (u8_range (nth 2 l x00)). pose proof (u8_range (nth 3 l x00)).
  lia.
Qed.

(* ================================================================== *)
(** * Properties of the compact-protocol reader *)

Section ReaderFacts.

Import Thrift.

(** The zig-zag mapping in arithmetic: even numbers go to their half,
    odd numbers to the negated half rounded up. *)
Lemma zigzag_arith (n : Z) :
  zigzag n = if Z.even n then n / 2 else - ((n + 1) / 2).
Proof.
  unfold zigzag.
  rewrite Z.shiftr_div_pow2 by lia.
  change 1 with (Z.ones 1) at 2. rewrite Z.land_ones by lia.
  change (2 ^ 1) with 2.
  rewrite Zmod_even. destruct (Z.even n) eqn:E.
  - simpl. apply Z.lxor_0_r.
  - change (- (1)) with (-1). rewrite Z.lxor_m1_r, Z.lnot_eq_pred_opp.
    assert (H : Z.odd n = true) by (rewrite <- Z.negb_even, E; reflexivity).
    apply Z.odd_spec in H. destruct H as [k ->].
    replace (2 * k + 1 + 1) with ((k + 1) * 2) by lia.
    rewrite Z.div_mul by lia.
    replace (2 * k + 1) with (1 + k * 2) by lia.
    rewrite Z.div_add by lia. simpl. lia.
Qed.

Lemma readVarint_loop_bounds rest : forall result shift consumed n k,
  0 <= result ->
  readVarint_loop rest result shift consumed = Some (n, k) ->
  0 <= n /\ (consumed < k <= consumed + List.length rest)%nat.
Proof.
  induction rest as [|b rest IH]; intros result shift consumed n k Hr H; simpl in H.
  - discriminate.
  - assert (Hres : 0 <= Z.lor result (Z.shiftl (Z.land (u8 b) 127) shift)).
    { apply Z.lor_nonneg. split; [assumption|].
      apply Z.shiftl_nonneg, Z.land_nonneg. right. lia. }
    destruct (Z.land (u8 b) 128 =? 0).
    + inversion H; subst. split; [assumption|simpl; lia].
    + apply IH in H; [|assumption]. simpl. lia.
Qed.

(** A varint that is read is not negative; the cursor moves forward and
    stays within the buffer; nothing else of the reader changes. *)
Lemma readVarint_ok r n r1 :
  readVarint r = Ok (n, r1) ->
  0 <= n /\ buffer r1 = buffer r /\ lastFieldId r1 = lastFieldId r
  /\ boolValue r1 = boolValue r
  /\ (offset r < offset r1 <= List.length (buffer r))%nat.
Proof.
  unfold readVarint. intros H.
  destruct (readVarint_loop (skipn (offset r) (buffer r)) 0 0 0) as [[res k]|] eqn:E;
    [|discriminate].
  inversion H; subst. apply readVarint_loop_bounds in E; [|lia].
  rewrite length_skipn in E. simpl. repeat split; try reflexivity; lia.
Qed.

Lemma readVarint_throw r e :
  readVarint r = Throw e -> e = BufferUnderflowReadingVarint.
Proof.
  unfold readVarint.
  destruct (readVarint_loop _ _ _ _) as [[res k]|]; intros H; inversion H; reflexivity.
Qed.

(** The header byte splits into its two nibbles. *)
Lemma nibbles (b : byte) :
  Z.land (Z.shiftr (u8 b) 4) 15 = u8 b / 16 /\ Z.land (u8 b) 15 = u8 b mod 16.
Proof.
  pose proof (u8_range b) as Hb.
  rewrite Z.shiftr_div_pow2 by lia. change (2 ^ 4) with 16.
  change 15 with (Z.ones 4). rewrite !Z.land_ones by lia. change (2 ^ 4) with 16.
  split; [|reflexivity]. apply Z.mod_small.
  split; [apply Z.div_pos; lia|]. apply Z.div_lt_upper_bound; lia.
Qed.

Lemma readByte_at r b :
  nth_error (buffer r) (offset r) = Some b ->
  readByte r = Ok (u8 b, setOffset (S (offset r)) r).
Proof.
  intros H. unfold readByte.
  assert (offset r < List.length (buffer r))%nat by (apply nth_error_Some; congruence).
  destruct (Nat.leb_spec (List.length (buffer r)) (offset r)); [lia|].
  rewrite (nth_error_nth _ _ x00 H). reflexivity.
Qed.

Lemma readFieldBegin_stop r b :
  nth_error (buffer r) (offset r) = Some b -> u8 b = 0 ->
  readFieldBegin r = Ok (mkField TType.STOP 0, setOffset (S (offset r)) r).
Proof.
  intros H H0. unfold readFieldBegin, bind. rewrite (readByte_at _ _ H), H0. reflexivity.
Qed.

Lemma readFieldBegin_short r b top below :
  nth_error (buffer r) (offset r) = Some b ->
  lastFieldId r = top :: below ->
  u8 b / 16 <> 0 ->
  readFieldBegin r =
  Ok (mkField (compactTypeToThriftType (u8 b mod 16)) (top + u8 b / 16),
      mkReader (buffer r) (S (offset r)) ((top + u8 b / 16) :: below)
               (pendingBool (u8 b mod 16) (boolValue r))).
Proof.
  intros H Hs Hd. unfold readFieldBegin, bind. rewrite (readByte_at _ _ H).
  destruct (nibbles b) as [-> ->].
  assert (u8 b <> 0) by (intros E; rewrite E in Hd; apply Hd; reflexivity).
  destruct (Z.eqb_spec (u8 b) 0) as [|_]; [contradiction|].
  destruct (Z.eqb_spec (u8 b / 16) 0) as [|_]; [contradiction|].
  unfold getLastFieldId, putLastFieldId, ret, pendingBool. simpl. rewrite Hs. simpl.
  destruct (u8 b mod 16 =? COMPACT_TYPES.BOOL_TRUE); [simpl; rewrite Hs; reflexivity|].
  destruct (u8 b mod 16 =? COMPACT_TYPES.BOOL_FALSE); simpl; rewrite ?Hs; reflexivity.
Qed.

Lemma readFieldBegin_long r b top below :
  nth_error (buffer r) (offset r) = Some b ->
  lastFieldId r = top :: below ->
  u8 b <> 0 -> u8 b / 16 = 0 ->
  readFieldBegin r =
  match readVarint (setOffset (S (offset r)) r) with
  | Ok (n, r1) =>
      Ok (mkField (compactTypeToThriftType (u8 b mod 16)) (Number (zigzag n)),
          mkReader (buffer r) (offset r1) (Number (zigzag n) :: below)
                   (pendingBool (u8 b mod 16) (boolValue r)))
  | Throw e => Throw e
  end.
Proof.
  intros H Hs Hnz Hd. unfold readFieldBegin, bind. rewrite (readByte_at _ _ H).
  destruct (nibbles b) as [-> ->].
  destruct (Z.eqb_spec (u8 b) 0) as [|_]; [contradiction|].
  rewrite Hd. simpl (0 =? 0). cbv iota.
  unfold readZigZag, bind.
  destruct (readVarint (setOffset (S (offset r)) r)) as [[n r1]|e] eqn:E; [|reflexivity].
  apply readVarint_ok in E. destruct E as (_ & Hb & Hl & Hbv & _). simpl in Hb, Hl, Hbv.
  unfold ret, putLastFieldId, pendingBool. rewrite Hl, Hs.
  destruct r1 as [buf1 off1 stack1 bv1]. simpl in *. subst.
  destruct (u8 b mod 16 =? COMPACT_TYPES.BOOL_TRUE); [reflexivity|].
  destruct (u8 b mod 16 =? COMPACT_TYPES.BOOL_FALSE); reflexivity.
Qed.

Lemma readBool_pending r v :
  boolValue r = Some v ->
  readBool r = Ok (v, mkReader (buffer r) (offset r) (lastFieldId r) None).
Proof. intros H. unfold readBool. rewrite H. reflexivity. Qed.

End ReaderFacts.

Section ReaderClaims.

Import Thrift.

(** C5.  [readZigZag] reads an unsigned varint [n] and returns
    [(n >> 1) XOR (-(n AND 1))], that is [n / 2] for an even [n] and
    [-(n + 1) / 2] for an odd one; the raw varints 0, 1, 2, 3, 4 decode to
    0, -1, 1, -2, 2.  [readI16], [readI32] and [readI64] return the value
    of [readZigZag] (as a Number, or for [readI64] as a Number or a BigInt
    of the same value), and so does the long form of a field id. *)
Theorem readZigZag_spec (r : Reader) :
  (readZigZag r =
   match readVarint r with
   | Ok (n, r') => Ok (Z.lxor (Z.shiftr n 1) (- Z.land n 1), r')
   | Throw e => Throw e
   end)
  /\ (forall n, zigzag n = if Z.even n then n / 2 else - ((n + 1) / 2))
  /\ map zigzag [0; 1; 2; 3; 4] = [0; -1; 1; -2; 2]
  /\ map (fun b => readZigZag (newReader [b])) [x00; x01; x02; x03; x04]
     = [Ok (0, mkReader [x00] 1 [0] None); Ok (-1, mkReader [x01] 1 [0] None);
        Ok (1, mkReader [x02] 1 [0] None); Ok (-2, mkReader [x03] 1 [0] None);
        Ok (2, mkReader [x04] 1 [0] None)]
  /\ readI16 r = (val <- readZigZag ;; ret (Number val))%reader r
  /\ readI32 r = (val <- readZigZag ;; ret (Number val))%reader r
  /\ match readZigZag r, readI64 r with
     | Ok (val, r1), Ok (x, r2) => int64Value x = val /\ r2 = r1
     | Throw e1, Throw e2 => e1 = e2
     | _, _ => False
     end
  /\ (forall b top below,
      nth_error (buffer r) (offset r) = Some b ->
      lastFieldId r = top :: below ->
      u8 b <> 0 -> u8 b / 16 = 0 ->
      match readZigZag (setOffset (S (offset r)) r), readFieldBegin r with
      | Ok (val, _), Ok (f, _) => fid f = Number val
      | Throw e1, Throw e2 => e1 = e2
      | _, _ => False
      end).
Proof.
  split; [|split; [|split; [|split; [|split; [|split; [|split]]]]]].
  - unfold readZigZag, bind, ret, zigzag. destruct (readVarint r) as [[n r']|e]; reflexivity.
  - apply zigzag_arith.
  - reflexivity.
  - reflexivity.
  - reflexivity.
  - reflexivity.
  - unfold readI64, bind. destruct (readZigZag r) as [[val r1]|e]; [|reflexivity].
    destruct ((val >=? MIN_SAFE_INTEGER) && (val <=? MAX_SAFE_INTEGER)); simpl; auto.
  - intros b top below Hb Hs Hnz Hd.
    rewrite (readFieldBegin_long _ _ _ _ Hb Hs Hnz Hd).
    unfold readZigZag, bind, ret.
    destruct (readVarint (setOffset (S (offset r)) r)) as [[n r1]|e]; reflexivity.
Qed.

(** C5 at the reader over the bytes 0x05 0x03: the varint 3 decodes to -2,
    also as the long-form field id announced by the header 0x05. *)
Lemma readZigZag_spec_witness :
  readZigZag (mkReader [x05; x03] 1 [0] None) = Ok (-2, mkReader [x05; x03] 2 [0] None)
  /\ match readFieldBegin (newReader [x05; x03]) with
     | Ok (f, _) => fid f = -2
     | Throw _ => False
     end.
Proof.
  split.
  - rewrite (proj1 (readZigZag_spec (mkReader [x05; x03] 1 [0] None))). reflexivity.
  - pose proof (proj2 (proj2 (proj2 (proj2 (proj2 (proj2 (proj2
        (readZigZag_spec (newReader [x05; x03]))))))))
        x05 0 [] eq_refl eq_refl) as H.
    simpl in H. apply H; [discriminate|reflexivity].
Defined.



Lemma readBinary_unfold r :
  readBinary r =
  match readVarint r with
  | Ok (n, r1) =>
      if Z.of_nat (offset r1) + n >? len (buffer r1)
      then Throw BufferUnderflowReadingBinary
      else Ok (slice (buffer r1) (Z.of_nat (offset r1)) (Z.of_nat (offset r1) + n),
               setOffset (Z.to_nat (Z.of_nat (offset r1) + n)) r1)
  | Throw e => Throw e
  end.
Proof.
  unfold readBinary, bind.
  destruct (readVarint r) as [[n r1]|e] eqn:E; [|reflexivity].
  apply readVarint_ok in E. unfold Number.
  destruct (Z.ltb_spec n 0); [lia|]. reflexivity.
Qed.

(** C9.  On a buffer of a length a typed array can have, [readBinary]
    reads an unsigned varint [L]; when [L] bytes remain it returns exactly
    the next [L] bytes and moves the cursor past them; when fewer remain
    it fails with the underflow error; when [L] is negative as a signed
    64-bit integer it fails (with that same error: the test for a negative
    length never fires, as a varint is not negative); when the varint
    itself is cut short it fails as well. *)
Theorem readBinary_spec (r : Reader) :
  len (buffer r) <= MAX_SAFE_INTEGER ->
  match readVarint r with
  | Throw e => readBinary r = Throw e /\ isTruncatedInput e = true
  | Ok (L, r1) =>
      0 <= L
      /\ (Z.of_nat (offset r1) + L <= len (buffer r) ->
          exists value,
            readBinary r = Ok (value, setOffset (offset r1 + Z.to_nat L) r1)
            /\ value = firstn (Z.to_nat L) (skipn (offset r1) (buffer r))
            /\ len value = L)
      /\ (len (buffer r) < Z.of_nat (offset r1) + L ->
          readBinary r = Throw BufferUnderflowReadingBinary)
      /\ (asIntN 64 L < 0 ->
          exists e, readBinary r = Throw e /\ isTruncatedInput e = true)
      /\ readBinary r <> Throw NegativeBinaryLength
  end.
Proof.
  intros Hbuf. rewrite readBinary_unfold.
  destruct (readVarint r) as [[L r1]|e] eqn:E.
  - apply readVarint_ok in E. destruct E as (HL & Hb & _ & _ & Ho).
    rewrite Hb.
    assert (Hfit : Z.of_nat (offset r1) + L <= len (buffer r) ->
       (Z.of_nat (offset r1) + L >? len (buffer r)) = false
       /\ len (slice (buffer r) (Z.of_nat (offset r1)) (Z.of_nat (offset r1) + L)) = L).
    { intros Hfit. split; [lia|]. rewrite len_slice_range; lia. }
    split; [assumption|]. split; [|split; [|split]].
    + intros H. destruct (Hfit H) as [Hc Hl]. rewrite Hc.
      eexists. split; [|split]; [| |exact Hl].
      * f_equal. f_equal. f_equal. lia.
      * rewrite slice_range by lia. f_equal; [f_equal; lia|f_equal; lia].
    + intros H.
      destruct (Z.gtb_spec (Z.of_nat (offset r1) + L) (len (buffer r))); [reflexivity|lia].
    + intros Hneg. exists BufferUnderflowReadingBinary. split; [|reflexivity].
      assert (2 ^ 63 <= L).
      { unfold asIntN in Hneg. change (64 - 1) with 63 in Hneg.
        destruct (Z.lt_ge_cases L (2 ^ 63)); [|assumption].
        rewrite Z.mod_small in Hneg; lia. }
      unfold MAX_SAFE_INTEGER in Hbuf.
      destruct (Z.gtb_spec (Z.of_nat (offset r1) + L) (len (buffer r))); [reflexivity|lia].
    + destruct (Z.of_nat (offset r1) + L >? len (buffer r)); discriminate.
  - split; [reflexivity|]. apply readVarint_throw in E. subst. reflexivity.
Qed.

(** C9 at the bytes 0x02 'A' 'B' 'C': the two bytes after the length. *)
Lemma readBinary_spec_witness :
  len [x02; x41; x42; x43] <= MAX_SAFE_INTEGER
  /\ readBinary (newReader [x02; x41; x42; x43])
     = Ok ([x41; x42], mkReader [x02; x41; x42; x43] 3 [0] None).
Proof.
  assert (H : len [x02; x41; x42; x43] <= MAX_SAFE_INTEGER) by (vm_compute; discriminate).
  split; [exact H|].
  pose proof (readBinary_spec (newReader [x02; x41; x42; x43]) H) as S.
  simpl in S. destruct S as (_ & Hfit & _).
  destruct Hfit as (value & Hread & Hvalue & _); [vm_compute; discriminate|].
  rewrite Hread, Hvalue. reflexivity.
Defined.

End ReaderClaims.

(* ================================================================== *)
(** * Properties of the entry points *)

Section FooterFacts.

Import Parser.

Lemma bytesEqual_eq (a b : list byte) : bytesEqual a b = true <-> a = b.
Proof.
  unfold bytesEqual. split.
  - destruct (Nat.eqb_spec (List.length a) (List.length b)) as [Hl|]; simpl; [|discriminate].
    intros H. rewrite forallb_forall in H.
    apply (nth_ext _ _ x00 x00 Hl). intros i Hi.
    apply Byte.byte_dec_bl, H, in_seq. lia.
  - intros ->. rewrite Nat.eqb_refl. simpl. apply forallb_forall.
    intros i _. apply Byte.byte_dec_lb. reflexivity.
Qed.

Lemma slice_leading bytes : 12 <= len bytes -> slice bytes 0 4 = leadingMagic bytes.
Proof. intros. rewrite slice_range by lia. reflexivity. Qed.

Lemma slice_trailing bytes :
  12 <= len bytes -> slice bytes (len bytes - 4) (len bytes) = trailingMagic bytes.
Proof.
  intros H. rewrite slice_range by lia. unfold trailingMagic, len in *.
  replace (Z.to_nat (Z.of_nat (List.length bytes) - 4))
    with (List.length bytes - 4)%nat by lia.
  apply firstn_all2. rewrite length_skipn. lia.
Qed.

Lemma slice_lengthField bytes :
  12 <= len bytes ->
  getUint32LE (slice bytes (len bytes - 8) (len bytes - 4)) = footerLengthField bytes.
Proof.
  intros H. rewrite slice_range by lia. unfold footerLengthField, len in *.
  f_equal. f_equal; [lia|f_equal; lia].
Qed.

Lemma slice_footerEnd_magic bytes :
  12 <= len bytes ->
  slice (slice bytes (len bytes - 8) (len bytes)) 4 8 = trailingMagic bytes.
Proof.
  intros H. rewrite (slice_range bytes) by lia. rewrite slice_range by lia.
  unfold trailingMagic, len in *.
  rewrite skipn_firstn_comm, firstn_firstn, skipn_skipn.
  replace (Z.to_nat 4 + Z.to_nat (Z.of_nat (List.length bytes) - 8))%nat
    with (List.length bytes - 4)%nat by lia.
  apply firstn_all2. rewrite length_skipn. lia.
Qed.

Lemma slice_footerEnd_length bytes :
  12 <= len bytes ->
  getUint32LE (slice bytes (len bytes - 8) (len bytes)) = footerLengthField bytes.
Proof.
  intros H. rewrite slice_range by lia. unfold footerLengthField, len in *.
  replace (Z.to_nat (Z.of_nat (List.length bytes) - 8))
    with (List.length bytes - 8)%nat by lia.
  rewrite <- (getUint32LE_firstn 4 (firstn _ _)) by lia.
  rewrite firstn_firstn. f_equal. f_equal. lia.
Qed.

Lemma slice_footer bytes L :
  12 <= len bytes -> 0 <= L <= len bytes - 8 ->
  slice bytes (len bytes - 8 - L) (len bytes - 8 - L + L)
  = byteRange bytes (len bytes - 8 - L) (len bytes - 8).
Proof.
  intros H HL. rewrite slice_range by lia. unfold byteRange. f_equal. lia.
Qed.

Lemma reliable_headerReadable file : reliable file -> headerReadable file.
Proof. intros H. repeat split; apply H. Qed.

Context {ColumnIndex OffsetIndex : Type}.
Variable FileMetaData_read : Thrift.Reader -> FileMetaData * option Exn.
Variable ColumnIndex_read : Thrift.Reader -> ColumnIndex * option Exn.
Variable OffsetIndex_read : Thrift.Reader -> OffsetIndex * option Exn.

Local Abbreviation parseParquetFile :=
  (parseParquetFile FileMetaData_read ColumnIndex_read OffsetIndex_read).
Local Abbreviation parseParquetFileStreaming :=
  (parseParquetFileStreaming FileMetaData_read ColumnIndex_read OffsetIndex_read).
Local Abbreviation parsePageIndexes := (parsePageIndexes ColumnIndex_read OffsetIndex_read).
Local Abbreviation parsePageIndexesStreaming :=
  (parsePageIndexesStreaming ColumnIndex_read OffsetIndex_read).
Local Abbreviation readFileMetaData := (readFileMetaData FileMetaData_read).

(** [parseParquetFile] on a buffer of at least 12 bytes, in terms of the
    parts of the file. *)
Lemma parseParquetFile_unfold (bytes : list byte) :
  12 <= len bytes ->
  parseParquetFile bytes =
  let L := footerLengthField bytes in
  if negb (bytesEqual (leadingMagic bytes) PARQUET_MAGIC) then Throw MissingHeaderMagic
  else if negb (bytesEqual (trailingMagic bytes) PARQUET_MAGIC) then Throw MissingFooterMagic
  else if L >? len bytes - 8 then Throw (InvalidFooterLength L)
  else resultBind (readFileMetaData (byteRange bytes (len bytes - 8 - L) (len bytes - 8)))
         (fun fileMetaData =>
            Ok (mkParsed (len bytes) L (len bytes - 8 - L) fileMetaData
                  (parsePageIndexes bytes fileMetaData))).
Proof.
  intros H. unfold Parser.parseParquetFile.
  replace (len bytes <? 12) with false by lia.
  rewrite slice_leading, slice_trailing, slice_lengthField by assumption.
  cbv zeta.
  pose proof (getUint32LE_range (firstn 4 (skipn (List.length bytes - 8) bytes))) as HL.
  fold (footerLengthField bytes) in HL.
  destruct (negb (bytesEqual (leadingMagic bytes) PARQUET_MAGIC)); [reflexivity|].
  destruct (negb (bytesEqual (trailingMagic bytes) PARQUET_MAGIC)); [reflexivity|].
  destruct (Z.gtb_spec (footerLengthField bytes) (len bytes - 8)); [reflexivity|].
  rewrite slice_footer by lia. reflexivity.
Qed.

(** [parseParquetFileStreaming] on a file of at least 12 bytes whose
    footer reads succeed, with the reads it issues. *)
Lemma parseParquetFileStreaming_unfold (file : File) :
  12 <= len (contents file) -> headerReadable file ->
  parseParquetFileStreaming file =
  let bytes := contents file in
  let L := footerLengthField bytes in
  if negb (bytesEqual (leadingMagic bytes) PARQUET_MAGIC)
  then ([(0, 4)], Throw MissingHeaderMagic)
  else if negb (bytesEqual (trailingMagic bytes) PARQUET_MAGIC)
  then ([(0, 4); (len bytes - 8, len bytes)], Throw MissingFooterMagic)
  else if L >? len bytes - 8
  then ([(0, 4); (len bytes - 8, len bytes)], Throw (InvalidFooterLength L))
  else ioBind ([(0, 4); (len bytes - 8, len bytes); (len bytes - 8 - L, len bytes - 8)],
               readFileMetaData (byteRange bytes (len bytes - 8 - L) (len bytes - 8)))
         (fun fileMetaData =>
            ioBind (parsePageIndexesStreaming file fileMetaData) (fun pageIndexes =>
            ioRet (mkParsed (len bytes) L (len bytes - 8 - L) fileMetaData pageIndexes))).
Proof.
  intros H (H1 & H2 & H3). unfold Parser.parseParquetFileStreaming, fileSize_of.
  replace (len (contents file) <? 12) with false by lia.
  cbv zeta.
  pose proof (getUint32LE_range
                (firstn 4 (skipn (List.length (contents file) - 8) (contents file)))) as HL.
  fold (footerLengthField (contents file)) in HL.
  unfold readFileSlice. rewrite H1, H2.
  unfold ioBind at 1. rewrite slice_leading by assumption.
  destruct (negb (bytesEqual (leadingMagic (contents file)) PARQUET_MAGIC)); [reflexivity|].
  unfold ioBind at 1.
  rewrite slice_footerEnd_magic, slice_footerEnd_length by assumption.
  destruct (negb (bytesEqual (trailingMagic (contents file)) PARQUET_MAGIC)); [reflexivity|].
  destruct (Z.gtb_spec (footerLengthField (contents file)) (len (contents file) - 8));
    [reflexivity|].
  rewrite H3. unfold ioBind at 1. rewrite slice_footer by lia.
  replace (len (contents file) - 8 - footerLengthField (contents file)
           + footerLengthField (contents file)) with (len (contents file) - 8) by lia.
  unfold ioBind at 2.
  destruct (readFileMetaData _) as [md|e]; [|reflexivity].
  destruct (ioBind _ _) as [t o]. reflexivity.
Qed.

(** C1.  For a byte source of size [F >= 12] with length field [L] at
    [[F-8, F-4)]: if the first and the last four bytes are the magic marker
    and [L <= F - 8], both entry points hand to [FileMetaData.read] a fresh
    reader on the bytes [[F-8-L, F-8)] and on nothing else, and return the
    object it filled with [footerStart = F-8-L] (or rethrow what it threw);
    the streaming one gets these bytes by reading the ranges [[0, 4)],
    [[F-8, F)] and [[F-8-L, F-8)], provided these reads succeed.  Otherwise
    both fail with an error of the class InvalidFormat, and produce no
    result. *)
Theorem footer_location (bytes : list byte) :
  12 <= len bytes ->
  let F := len bytes in
  let L := footerLengthField bytes in
  let wellFormed :=
    leadingMagic bytes = PARQUET_MAGIC /\ trailingMagic bytes = PARQUET_MAGIC
    /\ L <= F - 8 in
  let decoded :=
    FileMetaData_read (Thrift.newReader (byteRange bytes (F - 8 - L) (F - 8))) in
  (wellFormed ->
     parseParquetFile bytes =
       match decoded with
       | (fileMetaData, None) =>
           Ok (mkParsed F L (F - 8 - L) fileMetaData (parsePageIndexes bytes fileMetaData))
       | (_, Some e) => Throw e
       end
     /\ forall file, contents file = bytes -> headerReadable file ->
        parseParquetFileStreaming file =
          match decoded with
          | (fileMetaData, None) =>
              let (reads, indexes) := parsePageIndexesStreaming file fileMetaData in
              ([(0, 4); (F - 8, F); (F - 8 - L, F - 8)] ++ reads,
               match indexes with
               | Ok pageIndexes => Ok (mkParsed F L (F - 8 - L) fileMetaData pageIndexes)
               | Throw e => Throw e
               end)
          | (_, Some e) => ([(0, 4); (F - 8, F); (F - 8 - L, F - 8)], Throw e)
          end)
  /\ (~ wellFormed ->
      exists e, isInvalidFormat e = true
        /\ parseParquetFile bytes = Throw e
        /\ forall file, contents file = bytes -> headerReadable file ->
           snd (parseParquetFileStreaming file) = Throw e).
Proof.
  intros H F L wellFormed decoded. subst wellFormed decoded F L.
  rewrite parseParquetFile_unfold by assumption. cbv zeta.
  assert (Hmagic : bytesEqual PARQUET_MAGIC PARQUET_MAGIC = true) by reflexivity.
  assert (Hs : forall file (P : IO (Parsed ColumnIndex OffsetIndex) -> Prop),
            contents file = bytes -> headerReadable file ->
            P (let bytes := contents file in
               let L := footerLengthField bytes in
               if negb (bytesEqual (leadingMagic bytes) PARQUET_MAGIC)
               then ([(0, 4)], Throw MissingHeaderMagic)
               else if negb (bytesEqual (trailingMagic bytes) PARQUET_MAGIC)
               then ([(0, 4); (len bytes - 8, len bytes)], Throw MissingFooterMagic)
               else if L >? len bytes - 8
               then ([(0, 4); (len bytes - 8, len bytes)], Throw (InvalidFooterLength L))
               else ioBind ([(0, 4); (len bytes - 8, len bytes);
                             (len bytes - 8 - L, len bytes - 8)],
                            readFileMetaData
                              (byteRange bytes (len bytes - 8 - L) (len bytes - 8)))
                      (fun fileMetaData =>
                         ioBind (parsePageIndexesStreaming file fileMetaData)
                           (fun pageIndexes =>
                            ioRet (mkParsed (len bytes) L (len bytes - 8 - L)
                                     fileMetaData pageIndexes)))) ->
            P (parseParquetFileStreaming file)).
  { intros file P Hc Hrel HP.
    rewrite parseParquetFileStreaming_unfold by (rewrite ?Hc; assumption).
    exact HP. }
  split.
  - intros (Hh & Ht & Hlen). split.
    + rewrite Hh, Ht, Hmagic. simpl negb. cbv iota.
      destruct (Z.gtb_spec (footerLengthField bytes) (len bytes - 8)); [lia|].
      unfold Parser.readFileMetaData, resultBind.
      destruct (FileMetaData_read _) as [fileMetaData [e|]]; reflexivity.
    + intros file Hc Hrel. apply (Hs file); [assumption..|]. cbv zeta. rewrite Hc.
      rewrite Hh, Ht, Hmagic. simpl negb. cbv iota.
      destruct (Z.gtb_spec (footerLengthField bytes) (len bytes - 8)); [lia|].
      unfold Parser.readFileMetaData.
      destruct (FileMetaData_read _) as [fileMetaData [e|]]; [reflexivity|].
      unfold ioBind, ioRet.
      destruct (parsePageIndexesStreaming file fileMetaData) as [reads [pageIndexes|e]];
        rewrite ?app_nil_r; reflexivity.
  - intros Hbad.
    destruct (bytesEqual (leadingMagic bytes) PARQUET_MAGIC) eqn:Eh; simpl negb; cbv iota.
    + destruct (bytesEqual (trailingMagic bytes) PARQUET_MAGIC) eqn:Et; simpl negb; cbv iota.
      * apply bytesEqual_eq in Eh, Et.
        destruct (Z.gtb_spec (footerLengthField bytes) (len bytes - 8)) as [Hgt|Hle];
          [|exfalso; apply Hbad; repeat split; assumption].
        exists (InvalidFooterLength (footerLengthField bytes)).
        split; [reflexivity|]. split; [reflexivity|].
        intros file Hc Hrel. apply (Hs file); [assumption..|]. cbv zeta. rewrite Hc.
        rewrite Eh, Et, Hmagic. simpl negb. cbv iota.
        destruct (Z.gtb_spec (footerLengthField bytes) (len bytes - 8)); [reflexivity|lia].
      * exists MissingFooterMagic. split; [reflexivity|]. split; [reflexivity|].
        intros file Hc Hrel. apply (Hs file); [assumption..|]. cbv zeta. rewrite Hc.
        apply bytesEqual_eq in Eh. rewrite Eh, Hmagic, Et. reflexivity.
    + exists MissingHeaderMagic. split; [reflexivity|]. split; [reflexivity|].
      intros file Hc Hrel. apply (Hs file); [assumption..|]. cbv zeta. rewrite Hc.
      rewrite Eh. reflexivity.
Qed.

(** C10.  An input of fewer than 12 bytes makes both entry points fail
    with the error "File too small to be a valid Parquet file", whatever
    its bytes are, and the streaming one before it reads anything.  Twelve
    bytes pass the test: magic, a length field of zero and magic are
    decoded as a footer of no bytes at offset 4. *)
Theorem file_too_small (bytes : list byte) (file : File) :
  (len bytes < 12 -> parseParquetFile bytes = Throw FileTooSmall)
  /\ (fileSize_of file < 12 -> parseParquetFileStreaming file = ([], Throw FileTooSmall))
  /\ message FileTooSmall = "File too small to be a valid Parquet file"%string
  /\ len Examples.minimalBytes = 12
  /\ Examples.minimalBytes
     = (PARQUET_MAGIC ++ [x00; x00; x00; x00] ++ PARQUET_MAGIC)%list
  /\ parseParquetFile Examples.minimalBytes
     = resultBind (readFileMetaData [])
         (fun fileMetaData =>
            Ok (mkParsed 12 0 4 fileMetaData
                  (parsePageIndexes Examples.minimalBytes fileMetaData)))
  /\ (contents file = Examples.minimalBytes -> reliable file ->
      parseParquetFileStreaming file
      = ioBind ([(0, 4); (4, 12); (4, 4)], readFileMetaData [])
          (fun fileMetaData =>
             ioBind (parsePageIndexesStreaming file fileMetaData) (fun pageIndexes =>
             ioRet (mkParsed 12 0 4 fileMetaData pageIndexes)))).
Proof.
  split; [|split; [|split; [reflexivity|split; [reflexivity|split; [reflexivity|split]]]]].
  - intros H. unfold Parser.parseParquetFile.
    replace (len bytes <? 12) with true by lia. reflexivity.
  - intros H. unfold Parser.parseParquetFileStreaming.
    replace (fileSize_of file <? 12) with true by lia. reflexivity.
  - reflexivity.
  - intros Hc Hrel.
    rewrite parseParquetFileStreaming_unfold;
      [|rewrite Hc; vm_compute; discriminate|apply reliable_headerReadable; assumption].
    rewrite Hc. reflexivity.
Qed.

End FooterFacts.

(** C1 at the example file of 15 bytes, whose one-byte footer is at
    [[6, 7)]: the decoder is given a reader on that byte. *)
Lemma footer_location_witness :
  12 <= len Examples.exampleBytes
  /\ Parser.byteRange Examples.exampleBytes 6 7 = [x00]
  /\ Parser.parseParquetFile Examples.exampleFileMetaData_read Examples.exampleIndex_read
       Examples.exampleIndex_read Examples.exampleBytes
     = match Examples.exampleFileMetaData_read (Thrift.newReader [x00]) with
       | (fileMetaData, None) =>
           Ok (Parser.mkParsed 15 1 6 fileMetaData
                 (Parser.parsePageIndexes Examples.exampleIndex_read
                    Examples.exampleIndex_read Examples.exampleBytes fileMetaData))
       | (_, Some e) => Throw e
       end.
Proof.
  assert (H : 12 <= len Examples.exampleBytes) by (vm_compute; discriminate).
  split; [exact H|]. split; [reflexivity|].
  destruct (footer_location Examples.exampleFileMetaData_read Examples.exampleIndex_read
              Examples.exampleIndex_read Examples.exampleBytes H) as [Hgood _].
  destruct Hgood as [Hlegacy _].
  - split; [reflexivity|]. split; [reflexivity|]. vm_compute. discriminate.
  - exact Hlegacy.
Defined.

(** C10 at the empty input and at three bytes. *)
Lemma file_too_small_witness :
  Parser.parseParquetFile Examples.exampleFileMetaData_read Examples.exampleIndex_read
    Examples.exampleIndex_read [x50; x41; x52] = Throw FileTooSmall
  /\ Parser.parseParquetFileStreaming Examples.exampleFileMetaData_read
       Examples.exampleIndex_read Examples.exampleIndex_read
       (Parser.mkFile [] (fun _ _ => true)) = ([], Throw FileTooSmall).
Proof.
  destruct (file_too_small Examples.exampleFileMetaData_read Examples.exampleIndex_read
              Examples.exampleIndex_read [x50; x41; x52]
              (Parser.mkFile [] (fun _ _ => true))) as (Hlegacy & Hstream & _).
  split; [apply Hlegacy|apply Hstream]; vm_compute; reflexivity.
Defined.

(* ================================================================== *)
(** * Properties of the read scheduler *)

Section SchedulerFacts.

Import Parser.

(** The sort permutes its input and orders it by offset. *)
Lemma insertByOffset_perm r l : Permutation (insertByOffset r l) (r :: l).
Proof.
  induction l as [|x l IH]; simpl; [reflexivity|].
  destruct (offset r <=? offset x); [reflexivity|].
  rewrite IH. apply perm_swap.
Qed.

Lemma sortByOffset_perm l : Permutation (sortByOffset l) l.
Proof.
  induction l as [|x l IH]; simpl; [constructor|].
  rewrite insertByOffset_perm. constructor. exact IH.
Qed.

Lemma insertByOffset_sorted r l :
  StronglySorted offsetLe l -> StronglySorted offsetLe (insertByOffset r l).
Proof.
  induction 1 as [|x l Hs IH Hx]; simpl.
  - repeat constructor.
  - destruct (Z.leb_spec (offset r) (offset x)).
    + constructor; [constructor; assumption|].
      constructor; [assumption|].
      eapply Forall_impl; [|exact Hx]. unfold offsetLe. intros; lia.
    + constructor; [assumption|].
      rewrite (insertByOffset_perm r l). constructor; [unfold offsetLe; lia|assumption].
Qed.

Lemma sortByOffset_sorted l : StronglySorted offsetLe (sortByOffset l).
Proof.
  induction l; simpl; [constructor|]. apply insertByOffset_sorted. assumption.
Qed.

(** The sort is stable: the requests at one offset keep their order. *)
Lemma sortByOffset_stable l k :
  filter (fun r => offset r =? k) (sortByOffset l) = filter (fun r => offset r =? k) l.
Proof.
  assert (Hins : forall r s,
    filter (fun x => offset x =? k) (insertByOffset r s)
    = filter (fun x => offset x =? k) (r :: s)).
  { intros r s. induction s as [|x s IH]; [reflexivity|].
    simpl insertByOffset. destruct (Z.leb_spec (offset r) (offset x)); [reflexivity|].
    simpl in *. rewrite IH.
    destruct (Z.eqb_spec (offset r) k); [|reflexivity].
    destruct (Z.eqb_spec (offset x) k); [lia|reflexivity]. }
  induction l as [|r l IH]; [reflexivity|].
  simpl sortByOffset. rewrite Hins. simpl. rewrite IH. reflexivity.
Qed.

(** The loop over the requests, started with a current batch, leaves what
    the recursion [absorb] computes. *)
Lemma fold_batchStep gap rs : forall done cur,
  exists done' cur',
    fold_left (batchStep gap) rs (done, Some cur) = (done', Some cur')
    /\ (done' ++ [cur'] = done ++ absorb gap cur rs)%list.
Proof.
  induction rs as [|r rs IH]; intros done cur; simpl.
  - exists done, cur. split; reflexivity.
  - unfold batchStep at 2. simpl.
    destruct (offset r <=? end_ cur + gap).
    + apply IH.
    + destruct (IH (done ++ [cur])%list (newBatch r)) as (d & c & E & Hd).
      exists d, c. split; [exact E|]. rewrite Hd, <- app_assoc. reflexivity.
Qed.

Lemma batchRequests_absorb gap rs :
  batchRequests gap rs =
  match rs with
  | [] => []
  | r :: rs' => absorb gap (newBatch r) rs'
  end.
Proof.
  unfold batchRequests. destruct rs as [|r rs]; [reflexivity|].
  simpl fold_left.
  change (batchStep gap ([], None) r) with (@nil Batch, Some (newBatch r)).
  destruct (fold_batchStep gap rs [] (newBatch r)) as (d & c & E & Hd).
  rewrite E. simpl. exact Hd.
Qed.

Lemma absorb_concat gap rs : forall cur,
  List.concat (map requests (absorb gap cur rs)) = (requests cur ++ rs)%list.
Proof.
  induction rs as [|r rs IH]; intros cur; simpl.
  - rewrite app_nil_r. reflexivity.
  - destruct (offset r <=? end_ cur + gap); simpl.
    + rewrite IH. simpl. rewrite <- app_assoc. reflexivity.
    + rewrite IH. reflexivity.
Qed.

Lemma runningEnd_snoc gap rs : forall e e' r,
  runningEnd gap e rs = Some e' ->
  runningEnd gap e (rs ++ [r]) =
  if offset r <=? e' + gap then Some (Z.max e' (offset r + length r)) else None.
Proof.
  induction rs as [|x rs IH]; intros e e' r H; simpl in *.
  - inversion H; subst. destruct (offset r <=? e' + gap); reflexivity.
  - destruct (offset x <=? e + gap); [|discriminate]. apply IH. exact H.
Qed.

Lemma greedyBatch_new gap r : greedyBatch gap (newBatch r).
Proof. unfold greedyBatch. simpl. split; reflexivity. Qed.

Lemma greedyBatch_extend gap cur r :
  greedyBatch gap cur -> offset r <= end_ cur + gap ->
  greedyBatch gap (extendBatch cur r).
Proof.
  unfold greedyBatch. simpl. destruct (requests cur) as [|first rest]; [tauto|].
  intros [Hs He] Hr. simpl. split; [exact Hs|].
  rewrite (runningEnd_snoc _ _ _ _ r He).
  destruct (Z.leb_spec (offset r) (end_ cur + gap)); [reflexivity|lia].
Qed.

Lemma absorb_greedy gap rs : forall cur,
  greedyBatch gap cur -> Forall (greedyBatch gap) (absorb gap cur rs).
Proof.
  induction rs as [|r rs IH]; intros cur Hc; simpl.
  - constructor; [assumption|constructor].
  - destruct (Z.leb_spec (offset r) (end_ cur + gap)).
    + apply IH. apply greedyBatch_extend; assumption.
    + constructor; [assumption|]. apply IH. apply greedyBatch_new.
Qed.

Lemma absorb_head gap rs : forall cur first,
  hd_error (requests cur) = Some first ->
  exists b bs, absorb gap cur rs = b :: bs /\ hd_error (requests b) = Some first.
Proof.
  induction rs as [|r rs IH]; intros cur first H; simpl.
  - eauto.
  - destruct (offset r <=? end_ cur + gap).
    + apply IH. simpl. destruct (requests cur); [discriminate|exact H].
    + eauto.
Qed.

Lemma absorb_gaps gap rs : forall cur, gapsBetween gap (absorb gap cur rs).
Proof.
  induction rs as [|r rs IH]; intros cur; simpl.
  - exact I.
  - destruct (Z.leb_spec (offset r) (end_ cur + gap)).
    + apply IH.
    + destruct (absorb_head gap rs (newBatch r) r eq_refl) as (b & bs & E & Hh).
      pose proof (IH (newBatch r)) as Hg. rewrite E in *.
      split; [|exact Hg]. exists r. split; [exact Hh|lia].
Qed.

Lemma absorb_covers gap rs : forall cur,
  StronglySorted offsetLe rs ->
  Forall (fun r => start cur <= offset r) rs ->
  (forall r, In r rs -> 0 <= length r) ->
  covers cur -> Forall covers (absorb gap cur rs).
Proof.
  induction rs as [|r rs IH]; intros cur Hs Hf Hlen Hc; simpl.
  - constructor; [assumption|constructor].
  - apply StronglySorted_inv in Hs. destruct Hs as [Hs Hr].
    inversion Hf as [|? ? Hr0 Hf']; subst.
    assert (Hlr : 0 <= length r) by (apply Hlen; left; reflexivity).
    assert (Hlen' : forall r', In r' rs -> 0 <= length r')
      by (intros; apply Hlen; right; assumption).
    destruct (offset r <=? end_ cur + gap).
    + apply IH; try assumption.
      intros x Hx. simpl in Hx. apply in_app_or in Hx. simpl.
      destruct Hx as [Hx|[<-|[]]]; [destruct (Hc x Hx)|]; lia.
    + constructor; [assumption|]. apply IH.
      * exact Hs.
      * simpl. exact Hr.
      * exact Hlen'.
      * intros x [<-|[]]. simpl. lia.
Qed.

(** [updateNth] changes the entry at its index and no other. *)
Lemma nth_error_updateNth {A : Type} (f : A -> A) (l : list A) : forall i j,
  nth_error (updateNth i f l) j
  = if (i =? j)%nat then option_map f (nth_error l j) else nth_error l j.
Proof.
  induction l as [|x l IH]; intros i j.
  - destruct i, j; simpl; try reflexivity. destruct (i =? j)%nat; reflexivity.
  - destruct i, j; simpl; try reflexivity. apply IH.
Qed.

(** The batches hold the requests in order, cover their ranges, and hand
    each request the bytes of its range. *)
Lemma batchRequests_concat gap rs :
  List.concat (map requests (batchRequests gap rs)) = rs.
Proof.
  rewrite batchRequests_absorb. destruct rs as [|r rs]; [reflexivity|]. apply absorb_concat.
Qed.

Lemma batchRequests_covers gap rs :
  (forall r, In r rs -> 0 <= length r) ->
  StronglySorted offsetLe rs -> Forall covers (batchRequests gap rs).
Proof.
  intros Hlen Hs. rewrite batchRequests_absorb. destruct rs as [|r rs]; [constructor|].
  apply StronglySorted_inv in Hs. destruct Hs as [Hs Hr].
  apply absorb_covers; try assumption.
  - intros x Hx. apply Hlen. right. exact Hx.
  - intros x [<-|[]]. simpl. specialize (Hlen r (or_introl eq_refl)). lia.
Qed.

Lemma batchRequests_slices gap rs bytes :
  (forall r, In r rs -> 0 <= offset r /\ 0 <= length r) ->
  StronglySorted offsetLe rs ->
  forall b r, In b (batchRequests gap rs) -> In r (requests b) ->
    indexBytesOf (slice bytes (start b) (end_ b)) b r
    = slice bytes (offset r) (offset r + length r).
Proof.
  intros Hwf Hs b r Hin Hr.
  assert (Hcov : Forall covers (batchRequests gap rs)).
  { apply batchRequests_covers; [|exact Hs]. intros x Hx. apply Hwf. exact Hx. }
  assert (Hgreedy : Forall (greedyBatch gap) (batchRequests gap rs)).
  { rewrite batchRequests_absorb. destruct rs; [constructor|].
    apply absorb_greedy, greedyBatch_new. }
  rewrite Forall_forall in Hcov. destruct (Hcov b Hin r Hr) as [Hlo Hhi].
  assert (Hmem : forall x, In x (requests b) -> In x rs).
  { intros x Hx. rewrite <- (batchRequests_concat gap rs). apply in_concat.
    exists (requests b). split; [apply in_map; exact Hin|exact Hx]. }
  destruct (Hwf r (Hmem r Hr)) as [Ho Hl].
  assert (Hstart : 0 <= start b).
  { rewrite Forall_forall in Hgreedy. specialize (Hgreedy b Hin).
    unfold greedyBatch in Hgreedy.
    destruct (requests b) as [|first rest] eqn:E; [contradiction|].
    destruct Hgreedy as [-> _]. apply Hwf, Hmem. left. reflexivity. }
  unfold indexBytesOf. apply slice_of_slice; lia.
Qed.

(** The requests collected are those of the column chunks, each labelled
    with its position. *)
Lemma collectColumns_in rg cols : forall k r,
  In r (collectColumns rg k cols) <->
  exists j columnChunk, nth_error cols j = Some columnChunk
    /\ In r (columnRequests rg (k + j) columnChunk).
Proof.
  induction cols as [|c cols IH]; intros k r; simpl.
  - split; [intros []|]. intros (j & cc & H & _). destruct j; discriminate.
  - rewrite in_app_iff, IH. split.
    + intros [H|(j & cc & Hn & Hr)].
      * exists 0%nat, c. rewrite Nat.add_0_r. split; [reflexivity|exact H].
      * exists (S j), cc. rewrite Nat.add_succ_r. split; assumption.
    + intros (j & cc & Hn & Hr). destruct j as [|j]; simpl in Hn.
      * inversion Hn; subst. left. rewrite Nat.add_0_r in Hr. exact Hr.
      * right. exists j, cc. rewrite Nat.add_succ_r in Hr. split; assumption.
Qed.

Lemma collectRowGroups_in rgs : forall k r,
  In r (collectRowGroups k rgs) <->
  exists i rowGroup j columnChunk,
    nth_error rgs i = Some rowGroup /\ nth_error (columns rowGroup) j = Some columnChunk
    /\ In r (columnRequests (k + i) j columnChunk).
Proof.
  induction rgs as [|g rgs IH]; intros k r; simpl.
  - split; [intros []|]. intros (i & g & j & cc & H & _). destruct i; discriminate.
  - rewrite in_app_iff, IH, collectColumns_in. split.
    + intros [(j & cc & Hn & Hr)|(i & g' & j & cc & Hg & Hn & Hr)].
      * exists 0%nat, g, j, cc. rewrite Nat.add_0_r. auto.
      * exists (S i), g', j, cc. rewrite Nat.add_succ_r. auto.
    + intros (i & g' & j & cc & Hg & Hn & Hr). destruct i as [|i]; simpl in Hg.
      * inversion Hg; subst. left. exists j, cc. rewrite Nat.add_0_r in Hr. auto.
      * right. exists i, g', j, cc. rewrite Nat.add_succ_r in Hr. auto.
Qed.

Lemma collectReadRequests_in md r :
  In r (collectReadRequests md) <->
  exists rowGroup columnChunk,
    nth_error (row_groups md) (rgIdx r) = Some rowGroup
    /\ nth_error (columns rowGroup) (colIdx r) = Some columnChunk
    /\ In r (columnRequests (rgIdx r) (colIdx r) columnChunk).
Proof.
  unfold collectReadRequests. rewrite collectRowGroups_in. simpl. split.
  - intros (i & g & j & cc & Hg & Hn & Hr).
    assert (rgIdx r = i /\ colIdx r = j) as [-> ->].
    { unfold columnRequests in Hr. apply in_app_or in Hr.
      destruct Hr as [Hr|Hr];
        match type of Hr with In _ (if ?c then _ else _) => destruct c end;
        simpl in Hr; try contradiction;
        destruct Hr as [<-|[]]; split; reflexivity. }
    exists g, cc. auto.
  - intros (g & cc & Hg & Hn & Hr). exists (rgIdx r), g, (colIdx r), cc. auto.
Qed.

Lemma columnRequests_targets rg col ty columnChunk rg' col' :
  existsb (targets rg col ty) (columnRequests rg' col' columnChunk)
  = (rg' =? rg)%nat && (col' =? col)%nat
    && match ty with
       | columnIndex_ =>
           truthy (column_index_offset columnChunk) && truthy (column_index_length columnChunk)
       | offsetIndex_ =>
           truthy (offset_index_offset columnChunk) && truthy (offset_index_length columnChunk)
       end.
Proof.
  unfold columnRequests, targets.
  destruct (truthy (column_index_offset columnChunk) && truthy (column_index_length columnChunk)),
    (truthy (offset_index_offset columnChunk) && truthy (offset_index_length columnChunk)),
    ty; simpl;
    destruct (rg' =? rg)%nat, (col' =? col)%nat; reflexivity.
Qed.

Lemma targets_inv rg col ty r :
  targets rg col ty r = true -> rgIdx r = rg /\ colIdx r = col /\ type r = ty.
Proof.
  unfold targets. intros H.
  apply andb_prop in H. destruct H as [H Ht]. apply andb_prop in H. destruct H as [Hr Hc].
  apply Nat.eqb_eq in Hr, Hc.
  destruct ty, (type r); try discriminate; auto.
Qed.

Lemma existsb_perm {A : Type} (f : A -> bool) (l l' : list A) :
  Permutation l l' -> existsb f l = existsb f l'.
Proof.
  intros H. apply Bool.eq_iff_eq_true. rewrite !existsb_exists.
  split; intros (x & Hx & Hf); exists x; split; try assumption.
  - eapply Permutation_in; eassumption.
  - eapply Permutation_in; [apply Permutation_sym|]; eassumption.
Qed.

(** The requests collected for a slot are those of its column chunk. *)
Lemma collectReadRequests_slot md rg col rowGroup columnChunk r ty :
  nth_error (row_groups md) rg = Some rowGroup ->
  nth_error (columns rowGroup) col = Some columnChunk ->
  (In r (collectReadRequests md) /\ targets rg col ty r = true)
  <-> (In r (columnRequests rg col columnChunk) /\ targets rg col ty r = true).
Proof.
  intros Hrg Hcol. split; intros [Hin Ht]; (split; [|exact Ht]);
    destruct (targets_inv _ _ _ _ Ht) as (Er & Ec & _).
  - apply collectReadRequests_in in Hin. destruct Hin as (g & cc & Hg & Hc & Hr).
    rewrite Er in *. rewrite Ec in *. congruence.
  - apply collectReadRequests_in. exists rowGroup, columnChunk.
    rewrite Er, Ec. auto.
Qed.

Lemma collectReadRequests_targets md rg col rowGroup columnChunk ty :
  nth_error (row_groups md) rg = Some rowGroup ->
  nth_error (columns rowGroup) col = Some columnChunk ->
  existsb (targets rg col ty) (collectReadRequests md)
  = match ty with
    | columnIndex_ =>
        truthy (column_index_offset columnChunk) && truthy (column_index_length columnChunk)
    | offsetIndex_ =>
        truthy (offset_index_offset columnChunk) && truthy (offset_index_length columnChunk)
    end.
Proof.
  intros Hrg Hcol.
  transitivity (existsb (targets rg col ty) (columnRequests rg col columnChunk)).
  - apply Bool.eq_iff_eq_true. rewrite !existsb_exists.
    split; intros (r & H); exists r;
      apply (collectReadRequests_slot md rg col rowGroup columnChunk r ty Hrg Hcol); exact H.
  - rewrite columnRequests_targets, !Nat.eqb_refl. reflexivity.
Qed.

Lemma columnRequests_range rg col columnChunk r :
  In r (columnRequests rg col columnChunk) ->
  match type r with
  | columnIndex_ =>
      offset r = numberOf (column_index_offset columnChunk)
      /\ length r = numberOf (column_index_length columnChunk)
  | offsetIndex_ =>
      offset r = numberOf (offset_index_offset columnChunk)
      /\ length r = numberOf (offset_index_length columnChunk)
  end.
Proof.
  unfold columnRequests. intros H. apply in_app_or in H.
  destruct H as [H|H];
    match type of H with In _ (if ?c then _ else _) => destruct c end;
    simpl in H; try contradiction; destruct H as [<-|[]]; simpl; auto.
Qed.

Context {ColumnIndex OffsetIndex : Type}.
Variable FileMetaData_read : Thrift.Reader -> FileMetaData * option Exn.
Variable ColumnIndex_read : Thrift.Reader -> ColumnIndex * option Exn.
Variable OffsetIndex_read : Thrift.Reader -> OffsetIndex * option Exn.

Local Abbreviation parseParquetFileStreaming :=
  (parseParquetFileStreaming FileMetaData_read ColumnIndex_read OffsetIndex_read).
Local Abbreviation parsePageIndexes := (parsePageIndexes ColumnIndex_read OffsetIndex_read).
Local Abbreviation parseColumnChunk := (parseColumnChunk ColumnIndex_read OffsetIndex_read).
Local Abbreviation parsePageIndexesStreaming :=
  (parsePageIndexesStreaming ColumnIndex_read OffsetIndex_read).
Local Abbreviation readBatches := (readBatches ColumnIndex_read OffsetIndex_read).
Local Abbreviation decodeRequest := (decodeRequest ColumnIndex_read OffsetIndex_read).
Local Abbreviation readFileMetaData := (readFileMetaData FileMetaData_read).
Local Abbreviation expectedSlot := (expectedSlot ColumnIndex_read OffsetIndex_read).
Local Abbreviation requestOnSlot := (requestOnSlot ColumnIndex_read OffsetIndex_read).
Local Abbreviation decodable := (decodable ColumnIndex_read OffsetIndex_read).
Local Abbreviation PI := (PageIndexes ColumnIndex OffsetIndex).
Local Abbreviation SlotT := (Slot ColumnIndex OffsetIndex).

(** On a file whose reads succeed, the batches are read one by one, in
    order, and the loop returns. *)
Lemma readBatches_reads file batches : forall indexes,
  reliable file ->
  fst (readBatches file batches indexes) = ranges batches
  /\ exists result, snd (readBatches file batches indexes) = Ok result.
Proof.
  induction batches as [|b bs IH]; intros indexes Hrel; simpl.
  - split; [reflexivity|eexists; reflexivity].
  - unfold readFileSlice. rewrite Hrel. unfold ioBind.
    match goal with |- context [Parser.readBatches _ _ file bs ?i] =>
      destruct (IH i Hrel) as [Hf [res Hs]];
      destruct (Parser.readBatches ColumnIndex_read OffsetIndex_read file bs i) as [t o]
    end.
    simpl in *. subst. split; [reflexivity|eexists; reflexivity].
Qed.

(** The first failing read ends the loop with its error. *)
Lemma readBatches_failure file pre b post : forall indexes,
  (forall b', In b' pre -> unreadable file (start b') (end_ b') = false) ->
  unreadable file (start b) (end_ b) = true ->
  readBatches file (pre ++ b :: post) indexes
    = ((ranges pre ++ [(start b, end_ b)])%list, Throw (FailedToRead (start b) (end_ b))).
Proof.
  induction pre as [|p pre IH]; intros indexes Hpre Hb; simpl.
  - unfold readFileSlice. rewrite Hb. reflexivity.
  - unfold readFileSlice. rewrite (Hpre p (or_introl eq_refl)).
    rewrite IH; [reflexivity| |assumption].
    intros b' Hb'. apply Hpre. right. exact Hb'.
Qed.

(** The legacy path computes every slot from its column chunk alone. *)
Lemma parsePageIndexes_slot bytes md rg col rowGroup columnChunk :
  nth_error (row_groups md) rg = Some rowGroup ->
  nth_error (columns rowGroup) col = Some columnChunk ->
  slotAt (parsePageIndexes bytes md) rg col = Some (parseColumnChunk bytes columnChunk).
Proof.
  intros Hrg Hcol. unfold slotAt, Parser.parsePageIndexes.
  rewrite nth_error_map, Hrg. simpl. rewrite nth_error_map, Hcol. reflexivity.
Qed.

(** In the streaming path a request whose decoder throws changes nothing. *)
Lemma decodeRequest_throw batchBytes batch indexes req :
  match type req with
  | columnIndex_ =>
      snd (ColumnIndex_read (Thrift.newReader (indexBytesOf batchBytes batch req))) <> None
  | offsetIndex_ =>
      snd (OffsetIndex_read (Thrift.newReader (indexBytesOf batchBytes batch req))) <> None
  end ->
  decodeRequest batchBytes batch indexes req = indexes.
Proof.
  unfold Parser.decodeRequest. destruct (type req).
  - destruct (ColumnIndex_read _) as [o [e|]]; simpl; [reflexivity|congruence].
  - destruct (OffsetIndex_read _) as [o [e|]]; simpl; [reflexivity|congruence].
Qed.

(** A slot other than the one assigned keeps its value. *)
Lemma slotAt_update (f : SlotT -> SlotT) (indexes : PI) (rg col rg' col' : nat) :
  slotAt (updateNth rg (updateNth col f) indexes) rg' col'
  = option_map (fun s => if (rg =? rg')%nat && (col =? col')%nat then f s else s)
      (slotAt indexes rg' col').
Proof.
  unfold slotAt. rewrite nth_error_updateNth.
  destruct (Nat.eqb_spec rg rg') as [->|Hrg]; simpl.
  - destruct (nth_error indexes rg') as [row|]; simpl; [|reflexivity].
    rewrite nth_error_updateNth. destruct (col =? col')%nat; [reflexivity|].
    destruct (nth_error row col'); reflexivity.
  - destruct (nth_error indexes rg') as [row|]; [|reflexivity].
    destruct (nth_error row col'); reflexivity.
Qed.

Lemma slotAt_decodeRequest batchBytes batch bytes (indexes : PI) req rg col :
  indexBytesOf batchBytes batch req = slice bytes (offset req) (offset req + length req) ->
  slotAt (decodeRequest batchBytes batch indexes req) rg col
  = option_map (fun s => requestOnSlot bytes rg col s req) (slotAt indexes rg col).
Proof.
  intros Hb. unfold Parser.decodeRequest, Parser.requestOnSlot, decodedOrNull.
  rewrite Hb. cbv zeta.
  destruct (type req).
  - destruct (ColumnIndex_read _) as [v [e|]].
    + destruct (slotAt indexes rg col); simpl; [|reflexivity].
      destruct ((rgIdx req =? rg)%nat && (colIdx req =? col)%nat); reflexivity.
    + unfold setColumnIndex. rewrite slotAt_update.
      destruct (slotAt indexes rg col); reflexivity.
  - destruct (OffsetIndex_read _) as [v [e|]].
    + destruct (slotAt indexes rg col); simpl; [|reflexivity].
      destruct ((rgIdx req =? rg)%nat && (colIdx req =? col)%nat); reflexivity.
    + unfold setOffsetIndex. rewrite slotAt_update.
      destruct (slotAt indexes rg col); reflexivity.
Qed.

Lemma slotAt_fold batchBytes batch bytes rs rg col : forall (indexes : PI),
  (forall r, In r rs ->
     indexBytesOf batchBytes batch r = slice bytes (offset r) (offset r + length r)) ->
  slotAt (fold_left (decodeRequest batchBytes batch) rs indexes) rg col
  = option_map (fun s => fold_left (requestOnSlot bytes rg col) rs s) (slotAt indexes rg col).
Proof.
  induction rs as [|r rs IH]; intros indexes H; simpl.
  - destruct (slotAt indexes rg col); reflexivity.
  - rewrite IH by (intros x Hx; apply H; right; exact Hx).
    rewrite (slotAt_decodeRequest _ _ bytes) by (apply H; left; reflexivity).
    destruct (slotAt indexes rg col); reflexivity.
Qed.

(** On a file whose reads succeed, the loop over the batches returns, and
    each slot went through the requests of all batches in order. *)
Lemma readBatches_slots file batches : forall (indexes : PI),
  reliable file ->
  (forall b r, In b batches -> In r (requests b) ->
     indexBytesOf (slice (contents file) (start b) (end_ b)) b r
     = slice (contents file) (offset r) (offset r + length r)) ->
  exists result,
    readBatches file batches indexes = (ranges batches, Ok result)
    /\ forall rg col,
         slotAt result rg col
         = option_map (fold_left (requestOnSlot (contents file) rg col)
                         (List.concat (map requests batches)))
             (slotAt indexes rg col).
Proof.
  induction batches as [|b bs IH]; intros indexes Hrel Hb; simpl.
  - exists indexes. split; [reflexivity|]. intros rg col.
    destruct (slotAt indexes rg col); reflexivity.
  - unfold readFileSlice. rewrite Hrel. unfold ioBind.
    match goal with |- context [Parser.readBatches _ _ file bs ?i] =>
      destruct (IH i Hrel) as (res & E & Hs)
    end.
    { intros b' r Hb' Hr. apply Hb; [right; exact Hb'|exact Hr]. }
    rewrite E. exists res. split; [reflexivity|]. intros rg col.
    rewrite Hs, (slotAt_fold _ _ (contents file))
      by (intros r Hr; apply Hb; [left; reflexivity|exact Hr]).
    destruct (slotAt indexes rg col); simpl; [|reflexivity].
    rewrite fold_left_app. reflexivity.
Qed.

(** The column index a slot ends with after a list of requests in which
    every request for it names the range [[o, o + l)]. *)
Lemma fold_requestOnSlot_columnIndex bytes rg col o l rs : forall (s : SlotT),
  (forall r, In r rs -> targets rg col columnIndex_ r = true -> offset r = o /\ length r = l) ->
  columnIndex (fold_left (requestOnSlot bytes rg col) rs s)
  = if existsb (targets rg col columnIndex_) rs
    then match decodedOrNull ColumnIndex_read (slice bytes o (o + l)) with
         | Some v => Some v
         | None => columnIndex s
         end
    else columnIndex s.
Proof.
  induction rs as [|r rs IH]; intros s H; simpl; [reflexivity|].
  rewrite IH by (intros x Hx; apply H; right; exact Hx).
  specialize (H r (or_introl eq_refl)).
  unfold Parser.requestOnSlot, targets in *.
  destruct ((rgIdx r =? rg)%nat && (colIdx r =? col)%nat); simpl in *.
  - destruct (type r).
    + destruct (H eq_refl) as [-> ->]. simpl.
      destruct (decodedOrNull ColumnIndex_read _); simpl;
        destruct (existsb _ rs); reflexivity.
    + simpl. destruct (decodedOrNull OffsetIndex_read _); reflexivity.
  - reflexivity.
Qed.

Lemma fold_requestOnSlot_offsetIndex bytes rg col o l rs : forall (s : SlotT),
  (forall r, In r rs -> targets rg col offsetIndex_ r = true -> offset r = o /\ length r = l) ->
  offsetIndex (fold_left (requestOnSlot bytes rg col) rs s)
  = if existsb (targets rg col offsetIndex_) rs
    then match decodedOrNull OffsetIndex_read (slice bytes o (o + l)) with
         | Some v => Some v
         | None => offsetIndex s
         end
    else offsetIndex s.
Proof.
  induction rs as [|r rs IH]; intros s H; simpl; [reflexivity|].
  rewrite IH by (intros x Hx; apply H; right; exact Hx).
  specialize (H r (or_introl eq_refl)).
  unfold Parser.requestOnSlot, targets in *.
  destruct ((rgIdx r =? rg)%nat && (colIdx r =? col)%nat); simpl in *.
  - destruct (type r).
    + simpl. destruct (decodedOrNull ColumnIndex_read _); reflexivity.
    + destruct (H eq_refl) as [-> ->]. simpl.
      destruct (decodedOrNull OffsetIndex_read _); simpl;
        destruct (existsb _ rs); reflexivity.
  - reflexivity.
Qed.

Lemma slotAt_initialIndexes md rg col rowGroup columnChunk :
  nth_error (row_groups md) rg = Some rowGroup ->
  nth_error (columns rowGroup) col = Some columnChunk ->
  slotAt (initialIndexes md : PI) rg col = Some (mkSlot None None).
Proof.
  intros Hrg Hcol. unfold slotAt, initialIndexes.
  rewrite nth_error_map, Hrg. simpl. rewrite nth_error_map, Hcol. reflexivity.
Qed.

(** The streaming path on a file whose reads succeed: it returns, and
    every slot holds what [expectedSlot] says. *)
Lemma streaming_slots file md :
  reliable file ->
  (forall r, In r (collectReadRequests md) -> 0 <= offset r /\ 0 <= length r) ->
  exists result,
    parsePageIndexesStreaming file md = (ranges (planBatches md), Ok result)
    /\ forall rg col rowGroup columnChunk,
         nth_error (row_groups md) rg = Some rowGroup ->
         nth_error (columns rowGroup) col = Some columnChunk ->
         slotAt result rg col = Some (expectedSlot (contents file) columnChunk).
Proof.
  intros Hrel Hwf.
  pose proof (sortByOffset_perm (collectReadRequests md)) as Hperm.
  destruct (readBatches_slots file (planBatches md) (initialIndexes md) Hrel)
    as (result & E & Hs).
  { apply batchRequests_slices; [|apply sortByOffset_sorted].
    intros r Hr. apply Hwf. eapply Permutation_in; eassumption. }
  exists result. split; [exact E|].
  intros rg col rowGroup columnChunk Hrg Hcol.
  rewrite Hs, (slotAt_initialIndexes md rg col rowGroup columnChunk Hrg Hcol).
  unfold planBatches. rewrite batchRequests_concat. simpl. f_equal.
  assert (Hrange : forall ty r, In r (sortByOffset (collectReadRequests md)) ->
            targets rg col ty r = true ->
            In r (columnRequests rg col columnChunk) /\ type r = ty).
  { intros ty r Hr Ht. split; [|apply (targets_inv _ _ _ _ Ht)].
    apply (collectReadRequests_slot md rg col rowGroup columnChunk r ty Hrg Hcol).
    split; [eapply Permutation_in; eassumption|exact Ht]. }
  match goal with |- ?s = _ =>
    transitivity (mkSlot (columnIndex s) (offsetIndex s)); [destruct s; reflexivity|]
  end.
  rewrite (fold_requestOnSlot_columnIndex _ _ _
             (numberOf (column_index_offset columnChunk))
             (numberOf (column_index_length columnChunk))).
  2:{ intros r Hr Ht. destruct (Hrange _ r Hr Ht) as [Hin Hty].
      apply columnRequests_range in Hin. rewrite Hty in Hin. exact Hin. }
  rewrite (fold_requestOnSlot_offsetIndex _ _ _
             (numberOf (offset_index_offset columnChunk))
             (numberOf (offset_index_length columnChunk))).
  2:{ intros r Hr Ht. destruct (Hrange _ r Hr Ht) as [Hin Hty].
      apply columnRequests_range in Hin. rewrite Hty in Hin. exact Hin. }
  rewrite !(existsb_perm _ _ _ Hperm).
  rewrite !(collectReadRequests_targets md rg col rowGroup columnChunk _ Hrg Hcol).
  unfold Parser.expectedSlot. simpl.
  f_equal.
  - destruct (truthy _ && truthy _); [|reflexivity].
    destruct (decodedOrNull ColumnIndex_read _); reflexivity.
  - destruct (truthy _ && truthy _); [|reflexivity].
    destruct (decodedOrNull OffsetIndex_read _); reflexivity.
Qed.


(** The legacy path leaves in a slot what the streaming path leaves there
    if no decoder throws on the bytes of its column chunk. *)
Lemma parseColumnChunk_decodable bytes columnChunk :
  decodable bytes columnChunk ->
  parseColumnChunk bytes columnChunk = expectedSlot bytes columnChunk.
Proof.
  unfold Parser.decodable, Parser.parseColumnChunk, Parser.expectedSlot, decodedOrNull.
  intros [Hc Ho]. cbv zeta. f_equal.
  - destruct (truthy (column_index_offset columnChunk)
              && truthy (column_index_length columnChunk)); [|reflexivity].
    specialize (Hc eq_refl).
    destruct (ColumnIndex_read _) as [v [e|]]; [discriminate|reflexivity].
  - destruct (truthy (offset_index_offset columnChunk)
              && truthy (offset_index_length columnChunk)); [|reflexivity].
    specialize (Ho eq_refl).
    destruct (OffsetIndex_read _) as [v [e|]]; [discriminate|reflexivity].
Qed.

(** C3, on the code.  Take a file whose reads succeed and whose footer
    declares index ranges that are not negative, and in it a column chunk
    at [(rg, col)] that declares a column index on whose bytes the decoder
    throws.  [parsePageIndexesStreaming] returns, having read the planned
    batches; every slot holds [expectedSlot] of its column chunk (each
    declared index decoded from its own range, [null] where the decoder
    throws), and the column index of the slot [(rg, col)] is [null].
    [parsePageIndexes] (the legacy path) fills every slot from its column
    chunk, with the same value as the streaming path where no decoder
    throws; but in the slot [(rg, col)] it leaves the object it had assigned
    before the call, as far as the decoder filled it, and not [null]. *)
Theorem failed_decode_slot (file : File) (fileMetaData : FileMetaData) (rg col : nat)
  (rowGroup : RowGroup) (columnChunk : ColumnChunk) (e : Exn) :
  reliable file ->
  (forall r, In r (collectReadRequests fileMetaData) -> 0 <= offset r /\ 0 <= length r) ->
  nth_error (row_groups fileMetaData) rg = Some rowGroup ->
  nth_error (columns rowGroup) col = Some columnChunk ->
  truthy (column_index_offset columnChunk) && truthy (column_index_length columnChunk) = true ->
  let bytes := contents file in
  let indexOffset := numberOf (column_index_offset columnChunk) in
  let indexLength := numberOf (column_index_length columnChunk) in
  let indexBytes := slice bytes indexOffset (indexOffset + indexLength) in
  snd (ColumnIndex_read (Thrift.newReader indexBytes)) = Some e ->
  (exists result,
     parsePageIndexesStreaming file fileMetaData
       = (ranges (planBatches fileMetaData), Ok result)
     /\ (forall rg' col' rowGroup' columnChunk',
           nth_error (row_groups fileMetaData) rg' = Some rowGroup' ->
           nth_error (columns rowGroup') col' = Some columnChunk' ->
           slotAt result rg' col' = Some (expectedSlot bytes columnChunk'))
     /\ option_map columnIndex (slotAt result rg col) = Some None)
  /\ (forall rg' col' rowGroup' columnChunk',
        nth_error (row_groups fileMetaData) rg' = Some rowGroup' ->
        nth_error (columns rowGroup') col' = Some columnChunk' ->
        slotAt (parsePageIndexes bytes fileMetaData) rg' col'
          = Some (parseColumnChunk bytes columnChunk')
        /\ (decodable bytes columnChunk' ->
            parseColumnChunk bytes columnChunk' = expectedSlot bytes columnChunk'))
  /\ option_map columnIndex (slotAt (parsePageIndexes bytes fileMetaData) rg col)
     = Some (Some (fst (ColumnIndex_read (Thrift.newReader indexBytes)))).
Proof.
  intros Hrel Hwf Hrg Hcol Hdecl bytes indexOffset indexLength indexBytes Hthrow.
  split; [|split].
  - destruct (streaming_slots file fileMetaData Hrel Hwf) as (result & E & Hs).
    exists result. split; [exact E|]. split; [exact Hs|].
    rewrite (Hs rg col rowGroup columnChunk Hrg Hcol). simpl. rewrite Hdecl.
    unfold decodedOrNull. fold bytes indexOffset indexLength indexBytes.
    destruct (ColumnIndex_read (Thrift.newReader indexBytes)) as [o [e'|]];
      [reflexivity|discriminate].
  - intros rg' col' rowGroup' columnChunk' Hrg' Hcol'.
    split; [apply (parsePageIndexes_slot _ _ _ _ rowGroup'); assumption|].
    apply parseColumnChunk_decodable.
  - rewrite (parsePageIndexes_slot _ _ _ _ rowGroup columnChunk Hrg Hcol).
    unfold Parser.parseColumnChunk. simpl. rewrite Hdecl. reflexivity.
Qed.

(** C4, as the code has it.  If the read of one batch fails after the
    reads of the batches before it succeeded, [parsePageIndexesStreaming]
    throws the error of that read, having issued no read for any later
    batch; and [parseParquetFileStreaming], on a file that passed the
    footer validation and whose footer decoded, throws the same error and
    produces no result. *)
Theorem batch_read_failure_propagates (file : File) (fileMetaData : FileMetaData)
  (pre post : list Batch) (b : Batch) :
  planBatches fileMetaData = (pre ++ b :: post)%list ->
  (forall b', In b' pre -> unreadable file (start b') (end_ b') = false) ->
  unreadable file (start b) (end_ b) = true ->
  parsePageIndexesStreaming file fileMetaData
    = ((ranges pre ++ [(start b, end_ b)])%list, Throw (FailedToRead (start b) (end_ b)))
  /\ (let bytes := contents file in
      let F := len bytes in
      let L := footerLengthField bytes in
      12 <= F -> leadingMagic bytes = PARQUET_MAGIC -> trailingMagic bytes = PARQUET_MAGIC ->
      L <= F - 8 -> headerReadable file ->
      readFileMetaData (byteRange bytes (F - 8 - L) (F - 8)) = Ok fileMetaData ->
      parseParquetFileStreaming file
        = (([(0, 4); (F - 8, F); (F - 8 - L, F - 8)]
            ++ ranges pre ++ [(start b, end_ b)])%list,
           Throw (FailedToRead (start b) (end_ b)))).
Proof.
  intros Hplan Hpre Hb.
  assert (Hpis : parsePageIndexesStreaming file fileMetaData
    = ((ranges pre ++ [(start b, end_ b)])%list, Throw (FailedToRead (start b) (end_ b)))).
  { unfold Parser.parsePageIndexesStreaming. rewrite Hplan.
    apply readBatches_failure; assumption. }
  split; [exact Hpis|].
  intros bytes F L HF Hh Ht HL Hhdr Hmd. subst bytes F L.
  rewrite parseParquetFileStreaming_unfold by assumption. cbv zeta.
  rewrite Hh, Ht.
  replace (bytesEqual PARQUET_MAGIC PARQUET_MAGIC) with true by reflexivity.
  simpl negb. cbv iota.
  destruct (Z.gtb_spec (footerLengthField (contents file)) (len (contents file) - 8)); [lia|].
  rewrite Hmd. unfold ioBind at 1. rewrite Hpis. reflexivity.
Qed.

End SchedulerFacts.



(** C3 at the example file, with [exampleTwoColumns] as footer: the binary
    value at [[4, 6)] announces five bytes and holds one, so the decoder of
    the first column index throws; the one at [[7, 9)] holds one byte.  The
    streaming path reads [[4, 9)] once and leaves the first column index
    [null]; the legacy path leaves the unpopulated object there; the other
    indexes are decoded by both. *)
Lemma failed_decode_slot_witness :
  Parser.reliable Examples.exampleReliableFile
  /\ snd (Examples.exampleIndex_read (Thrift.newReader (slice Examples.exampleBytes 4 (4 + 2))))
     = Some BufferUnderflowReadingBinary
  /\ Parser.parsePageIndexesStreaming Examples.exampleIndex_read Examples.exampleIndex_read
       Examples.exampleReliableFile Examples.exampleTwoColumns
     = ([(4, 9)],
        Ok [[Parser.mkSlot None (Some (Examples.mkExampleIndex (Some [x00])));
             Parser.mkSlot (Some (Examples.mkExampleIndex (Some [x00]))) None]])
  /\ Parser.parsePageIndexes Examples.exampleIndex_read Examples.exampleIndex_read
       Examples.exampleBytes Examples.exampleTwoColumns
     = [[Parser.mkSlot (Some (Examples.mkExampleIndex None))
           (Some (Examples.mkExampleIndex (Some [x00])));
         Parser.mkSlot (Some (Examples.mkExampleIndex (Some [x00]))) None]]
  /\ option_map Parser.columnIndex
       (Parser.slotAt
          (Parser.parsePageIndexes Examples.exampleIndex_read Examples.exampleIndex_read
             Examples.exampleBytes Examples.exampleTwoColumns) 0 0)
     = Some (Some (Examples.mkExampleIndex None)).
Proof.
  assert (Hrel : Parser.reliable Examples.exampleReliableFile) by (intros s e; reflexivity).
  split; [exact Hrel|]. split; [reflexivity|]. split; [reflexivity|]. split; [reflexivity|].
  refine (proj2 (proj2
    (failed_decode_slot Examples.exampleIndex_read Examples.exampleIndex_read
       Examples.exampleReliableFile Examples.exampleTwoColumns 0 0
       (Parser.mkRowGroup [Parser.mkColumnChunk (Some 7) (Some 2) (Some 4) (Some 2);
                           Parser.mkColumnChunk None None (Some 7) (Some 2)])
       (Parser.mkColumnChunk (Some 7) (Some 2) (Some 4) (Some 2))
       BufferUnderflowReadingBinary Hrel _ eq_refl eq_refl eq_refl eq_refl))).
  intros r Hr. simpl in Hr.
  destruct Hr as [<-|[<-|[<-|[]]]]; simpl; unfold Number; lia.
Defined.

(** C4 as stated fails on the example file, whose read at offset 4 fails:
    the plan has the two batches [[4, 6)] and [[200000, 200002)]; the
    decode issues the three footer reads and the read of the first batch,
    then throws; the second batch is not read and there is no result. *)
Lemma batch_read_failure_example :
  Parser.ranges (Parser.planBatches Examples.exampleMetaData)
    = [(4, 6); (200000, 200002)]
  /\ Parser.parseParquetFileStreaming Examples.exampleFileMetaData_read
       Examples.exampleIndex_read Examples.exampleIndex_read Examples.exampleFile
     = ([(0, 4); (7, 15); (6, 7); (4, 6)], Throw (FailedToRead 4 6))
  /\ Parser.parsePageIndexesStreaming Examples.exampleIndex_read Examples.exampleIndex_read
       Examples.exampleFile Examples.exampleMetaData
     = ([(4, 6)], Throw (FailedToRead 4 6)).
Proof. repeat split. Qed.

(** C4, amended, at the example file. *)
Lemma batch_read_failure_propagates_witness :
  Parser.planBatches Examples.exampleMetaData
    = ([] ++ Parser.mkBatch 4 6 [Parser.mkReadRequest 0 0 Parser.columnIndex_ 4 2]
          :: [Parser.mkBatch 200000 200002
                [Parser.mkReadRequest 0 1 Parser.columnIndex_ 200000 2]])%list
  /\ Parser.parsePageIndexesStreaming Examples.exampleIndex_read Examples.exampleIndex_read
       Examples.exampleFile Examples.exampleMetaData
     = ([(4, 6)], Throw (FailedToRead 4 6)).
Proof.
  assert (Hplan : Parser.planBatches Examples.exampleMetaData
    = ([] ++ Parser.mkBatch 4 6 [Parser.mkReadRequest 0 0 Parser.columnIndex_ 4 2]
          :: [Parser.mkBatch 200000 200002
                [Parser.mkReadRequest 0 1 Parser.columnIndex_ 200000 2]])%list)
    by reflexivity.
  split; [exact Hplan|].
  destruct (batch_read_failure_propagates Examples.exampleFileMetaData_read
              Examples.exampleIndex_read Examples.exampleIndex_read
              Examples.exampleFile Examples.exampleMetaData _ _ _ Hplan) as [H _].
  - intros b' [].
  - reflexivity.
  - exact H.
Defined.

(* ================================================================== *)
(** * Properties of the statistics formatter *)

Section FormatterFacts.

Import Stats.

Local Open Scope string_scope.
Local Open Scope Z_scope.

Lemma string_length_append (a b : string) :
  String.length (a ++ b) = (String.length a + String.length b)%nat.
Proof. induction a; simpl; congruence. Qed.

Lemma string_of_app (a b : list ascii) :
  string_of_list_ascii (a ++ b)%list = string_of_list_ascii a ++ string_of_list_ascii b.
Proof. induction a; simpl; congruence. Qed.

Lemma length_list_of (s : string) :
  List.length (list_ascii_of_string s) = String.length s.
Proof. induction s; simpl; congruence. Qed.

Lemma length_string_of (l : list ascii) :
  String.length (string_of_list_ascii l) = List.length l.
Proof. induction l; simpl; congruence. Qed.

Lemma length_replicate n c : String.length (replicate n c) = n.
Proof. induction n; simpl; congruence. Qed.

(** [substring] of the standard library on the list of characters. *)
Lemma substring_list (s : string) : forall n m,
  substring n m s = string_of_list_ascii (firstn m (skipn n (list_ascii_of_string s))).
Proof.
  induction s as [|c s IH]; intros n m.
  - destruct n, m; reflexivity.
  - destruct n as [|n].
    + destruct m as [|m]; [reflexivity|]. simpl. rewrite IH. reflexivity.
    + simpl. apply IH.
Qed.

Lemma substring_length (p : string) (n m : nat) :
  (n + m <= String.length p)%nat -> String.length (substring n m p) = m.
Proof.
  intros H.
  rewrite substring_list, length_string_of, length_firstn, length_skipn, length_list_of.
  lia.
Qed.

Lemma strlen_list (s : string) : strlen s = len (list_ascii_of_string s).
Proof. unfold strlen, len. rewrite length_list_of. reflexivity. Qed.

(** The decimal string of a negative integer is the sign and the string of
    its absolute value; that of another integer starts with a digit. *)
Lemma toString_negative (v : Z) : v < 0 -> toString v = String "-" (toString (- v)).
Proof. destruct v; try lia. intros _. reflexivity. Qed.

Lemma toString_unsigned (v : Z) : 0 <= v -> startsWith "-" (toString v) = false.
Proof.
  destruct v as [|p|p]; try lia; intros _; [reflexivity|].
  unfold toString. simpl. destruct (Pos.to_uint p); reflexivity.
Qed.

Lemma strSliceFrom_tail (c : ascii) (s : string) : strSliceFrom (String c s) 1 = s.
Proof.
  unfold strSliceFrom, strSlice. rewrite strlen_list.
  rewrite slice_range by (unfold len; lia).
  simpl list_ascii_of_string. simpl skipn.
  rewrite firstn_all2.
  - apply string_of_list_ascii_of_string.
  - unfold len. simpl List.length. lia.
Qed.

Lemma padStart_zeros (s : string) (target : Z) :
  padStart s target "0"
  = replicate (Z.to_nat target - String.length s) "0" ++ s.
Proof.
  unfold padStart, strlen.
  destruct (Z.leb_spec target (Z.of_nat (String.length s))).
  - replace (Z.to_nat target - String.length s)%nat with 0%nat by lia. reflexivity.
  - f_equal. f_equal. lia.
Qed.

Lemma strSlice_head (p : string) (s : Z) :
  0 < s -> s <= strlen p ->
  strSlice p 0 (- s) = substring 0 (String.length p - Z.to_nat s) p.
Proof.
  intros Hs Hp. unfold strSlice, slice, relativeIndex. rewrite substring_list.
  rewrite <- strlen_list. unfold strlen in *.
  destruct (Z.ltb_spec 0 0); [lia|]. destruct (Z.ltb_spec (- s) 0); [|lia].
  f_equal. f_equal; [lia|f_equal; lia].
Qed.

Lemma strSliceFrom_last (p : string) (s : Z) :
  0 < s -> s <= strlen p ->
  strSliceFrom p (- s) = substring (String.length p - Z.to_nat s) (Z.to_nat s) p.
Proof.
  intros Hs Hp. unfold strSliceFrom, strSlice, slice, relativeIndex. rewrite substring_list.
  rewrite <- strlen_list. unfold strlen in *.
  destruct (Z.ltb_spec (- s) 0); [|lia].
  destruct (Z.ltb_spec (Z.of_nat (String.length p)) 0); [lia|].
  f_equal. f_equal; [lia|f_equal; lia].
Qed.

Variable rt : Runtime.

(** [padStartBuilt] throws when it has to pad beyond the limit. *)
Lemma padStartBuilt_spec (s : string) (target : Z) (c : ascii) :
  padStartBuilt rt s target c
  = if (strlen s <? target) && (maxStringLength rt <? target)
    then Throw InvalidStringLength
    else Ok (padStart s target c).
Proof.
  unfold padStartBuilt, padStart.
  destruct (Z.leb_spec target (strlen s)).
  - destruct (Z.ltb_spec (strlen s) target); [lia|reflexivity].
  - destruct (Z.ltb_spec (strlen s) target); [|lia].
    rewrite Z.gtb_ltb. destruct (maxStringLength rt <? target); reflexivity.
Qed.

(** The [try] block of [formatDecimal] for a scale above zero. *)
Lemma formatDecimal_try_scaled (v s : Z) :
  0 < s ->
  let digits := toString (Z.abs v) in
  let padded := replicate (Z.to_nat (s + 1) - String.length digits) "0" ++ digits in
  let n := String.length padded in
  let intPart := substring 0 (n - Z.to_nat s) padded in
  let decPart := substring (n - Z.to_nat s) (Z.to_nat s) padded in
  let rendered := (if v <? 0 then "-" else "") ++ intPart ++ "." ++ decPart in
  (Z.to_nat s + 1 <= n)%nat
  /\ Z.of_nat n = Z.max (strlen digits) (s + 1)
  /\ String.length decPart = Z.to_nat s
  /\ intPart ++ decPart = padded
  /\ strlen rendered = (if v <? 0 then 1 else 0) + Z.of_nat n + 1
  /\ formatDecimal_try rt v s
     = if (strlen digits <? s + 1) && (maxStringLength rt <? s + 1)
       then Throw InvalidStringLength
       else built rt rendered.
Proof.
  intros Hpos digits padded n intPart decPart rendered.
  assert (Hn : (Z.to_nat s + 1 <= n)%nat).
  { subst n padded. rewrite string_length_append, length_replicate. lia. }
  assert (Hmax : Z.of_nat n = Z.max (strlen digits) (s + 1)).
  { subst n padded. rewrite string_length_append, length_replicate. unfold strlen. lia. }
  assert (Hdec : String.length decPart = Z.to_nat s)
    by (apply substring_length; fold n; lia).
  assert (Hint : String.length intPart = (n - Z.to_nat s)%nat)
    by (apply substring_length; fold n; lia).
  assert (Hsplit : intPart ++ decPart = padded).
  { subst intPart decPart. rewrite !substring_list, <- string_of_app.
    simpl skipn.
    rewrite (firstn_all2 (n := Z.to_nat s) (skipn _ _))
      by (rewrite length_skipn, length_list_of; fold n; lia).
    rewrite firstn_skipn. apply string_of_list_ascii_of_string. }
  split; [exact Hn|]. split; [exact Hmax|]. split; [exact Hdec|]. split; [exact Hsplit|].
  split.
  { subst rendered. unfold strlen. rewrite !string_length_append, Hint, Hdec.
    destruct (v <? 0); simpl String.length; lia. }
  unfold formatDecimal_try. destruct (Z.eqb_spec s 0); [lia|].
  assert (Habs : (if startsWith "-" (toString v)
                  then strSliceFrom (toString v) 1 else toString v) = digits
                 /\ startsWith "-" (toString v) = (v <? 0)).
  { subst digits. destruct (Z.ltb_spec v 0).
    - rewrite toString_negative by assumption. simpl startsWith.
      rewrite strSliceFrom_tail. split; [f_equal; lia|reflexivity].
    - rewrite toString_unsigned by assumption. split; [f_equal; lia|reflexivity]. }
  destruct Habs as [Habs Hsign]. cbv zeta. rewrite Habs, Hsign.
  rewrite padStartBuilt_spec.
  destruct ((strlen digits <? s + 1) && (maxStringLength rt <? s + 1)); [reflexivity|].
  rewrite padStart_zeros. fold padded.
  assert (Hlen : s <= strlen padded) by (unfold strlen; fold n; lia).
  rewrite strSlice_head, strSliceFrom_last by assumption. fold n intPart decPart.
  destruct (String.eqb_spec intPart "") as [E|_]; [|reflexivity].
  exfalso. rewrite E in Hint. simpl in Hint. lia.
Qed.

(** C8, amended.  [formatDecimal v s] for a scale [s >= 0]: with [s = 0]
    it is the decimal string of [v].  Otherwise the rendering is the digits
    of the absolute value, padded with zeros on the left to at least
    [s + 1] digits and split at position [length - s] into an integer part
    and a fractional part of [s] digits, joined by a point, after a minus
    sign when [v] is negative; [formatDecimal] gives this rendering if it
    is no longer than the longest string the engine builds, and the
    decimal string of [v] if it is longer.  12345 with scale 2 gives
    "123.45", -5 with scale 2 gives "-0.05". *)
Theorem formatDecimal_spec (v s : Z) :
  0 <= s ->
  let digits := toString (Z.abs v) in
  let padded := replicate (Z.to_nat (s + 1) - String.length digits) "0" ++ digits in
  let n := String.length padded in
  let intPart := substring 0 (n - Z.to_nat s) padded in
  let decPart := substring (n - Z.to_nat s) (Z.to_nat s) padded in
  let rendered := (if v <? 0 then "-" else "") ++ intPart ++ "." ++ decPart in
  (s = 0 -> formatDecimal rt v s = toString v)
  /\ (0 < s ->
      (Z.to_nat s + 1 <= n)%nat
      /\ Z.of_nat n = Z.max (strlen digits) (s + 1)
      /\ String.length decPart = Z.to_nat s
      /\ intPart ++ decPart = padded
      /\ strlen rendered = (if v <? 0 then 1 else 0) + Z.of_nat n + 1
      /\ (strlen rendered <= maxStringLength rt -> formatDecimal rt v s = rendered)
      /\ (maxStringLength rt < strlen rendered -> formatDecimal rt v s = toString v))
  /\ (6 <= maxStringLength rt ->
      formatDecimal rt 12345 2 = "123.45" /\ formatDecimal rt (-5) 2 = "-0.05").
Proof.
  intros Hs digits padded n intPart decPart rendered.
  split; [|split].
  - intros ->. reflexivity.
  - intros Hpos.
    destruct (formatDecimal_try_scaled v s Hpos) as (Hn & Hmax & Hdec & Hsplit & Hlen & Htry).
    fold digits padded n intPart decPart rendered in Hn, Hmax, Hdec, Hsplit, Hlen, Htry.
    split; [exact Hn|]. split; [exact Hmax|]. split; [exact Hdec|]. split; [exact Hsplit|].
    split; [exact Hlen|].
    unfold formatDecimal. rewrite Htry. unfold built.
    assert (Hsign : 0 <= (if v <? 0 then 1 else 0)) by (destruct (v <? 0); lia).
    split; intros Hfit.
    + destruct (Z.ltb_spec (strlen digits) (s + 1)); simpl andb;
        [destruct (Z.ltb_spec (maxStringLength rt) (s + 1)); [lia|]|];
        destruct (Z.gtb_spec (strlen rendered) (maxStringLength rt)); try lia; reflexivity.
    + destruct ((strlen digits <? s + 1) && (maxStringLength rt <? s + 1)); [reflexivity|].
      destruct (Z.gtb_spec (strlen rendered) (maxStringLength rt)); [reflexivity|lia].
  - intros Hlimit. unfold formatDecimal, formatDecimal_try. simpl Z.eqb. cbv iota.
    rewrite !padStartBuilt_spec. unfold built.
    split.
    + change (strlen (if startsWith "-" (toString 12345) then strSliceFrom (toString 12345) 1
                      else toString 12345) <? 2 + 1) with false.
      simpl andb. cbv iota.
      match goal with |- context [strlen ?x >? _] =>
        let y := eval vm_compute in x in change x with y;
        change (strlen y) with 6 end.
      destruct (Z.gtb_spec 6 (maxStringLength rt)); [lia|reflexivity].
    + change (strlen (if startsWith "-" (toString (-5)) then strSliceFrom (toString (-5)) 1
                      else toString (-5)) <? 2 + 1) with true.
      destruct (Z.ltb_spec (maxStringLength rt) (2 + 1)); [lia|]. simpl andb. cbv iota.
      match goal with |- context [strlen ?x >? _] =>
        let y := eval vm_compute in x in change x with y;
        change (strlen y) with 5 end.
      destruct (Z.gtb_spec 5 (maxStringLength rt)); [lia|reflexivity].
Qed.

Lemma length_hexJoin_space (l : list byte) :
  (String.length (hexJoin " " l) <= 3 * List.length l - 1)%nat.
Proof.
  unfold hexJoin. induction l as [|b l IH]; simpl; [lia|].
  destruct l as [|b' l]; [simpl; lia|].
  change (map hexByte (b' :: l)) with (hexByte b' :: map hexByte l) in *.
  cbn [join] in *. destruct (map hexByte l) eqn:E.
  - simpl. lia.
  - simpl in *. lia.
Qed.

(** The fallback renders the first 16 bytes, and an ellipsis if there are
    more: at most 50 characters. *)
Lemma hexFallback_bounded (value : list byte) :
  hexFallback value
  = hexJoin " " (firstn 16 value) ++ (if 16 <? len value then "..." else "")
  /\ (String.length (hexFallback value) <= 50)%nat.
Proof.
  unfold hexFallback. rewrite slice_range by lia. simpl skipn.
  change (Z.to_nat (16 - 0)) with 16%nat.
  rewrite Z.gtb_ltb.
  split; [reflexivity|].
  rewrite string_length_append.
  pose proof (length_hexJoin_space (firstn 16 value)) as H.
  assert (H' : (List.length (firstn 16 value) <= 16)%nat)
    by (rewrite length_firstn; apply Nat.le_min_l).
  assert (H3 : (String.length (if (16 <? len value)%Z then "..." else "") <= 3)%nat)
    by (destruct (16 <? len value)%Z; simpl; lia).
  lia.
Qed.

(** The helpers with a handler of their own never throw; what their [try]
    block throws ends in the decimal string of the integer. *)
Lemma helpers_absorb (value : Z) (unit : option TimeUnit) :
  (exists s, formatDate rt value = Ok s)
  /\ (exists s, formatTime rt value unit = Ok s)
  /\ (exists s, formatTimestamp rt value unit = Ok s)
  /\ (forall e, formatDate_try rt value = Throw e ->
      formatDate rt value = Ok (toString value)).
Proof.
  unfold formatDate, formatTime, formatTimestamp, tryCatch.
  repeat split.
  - destruct (formatDate_try rt value); eexists; reflexivity.
  - destruct (formatTime_try rt value unit); eexists; reflexivity.
  - destruct (formatTimestamp_try rt value unit); eexists; reflexivity.
  - intros e ->. reflexivity.
Qed.

(** C7.  [formatStatValue] returns a string for every value, column
    metadata and optional schema element, whatever the enum tables hold
    and whatever the services of the runtime do, throwing included.  A
    missing value or missing metadata gives "N/A"; so does INT32 or FLOAT
    with fewer than 4 bytes and INT64 or DOUBLE with fewer than 8.  An
    exception that leaves the [try] block, and a byte array whose UTF-8
    decoding throws, give the hex rendering of the first 16 bytes of the
    value, with an ellipsis when there are more, at most 50 characters. *)
Theorem formatStatValue_total (value : list byte) (columnMeta : ColumnMetaData.t)
  (schemaElement : option SchemaElement.t) :
  let physicalType := getTypeName rt (ColumnMetaData.type columnMeta) in
  let logicalInfo := getLogicalTypeInfo rt schemaElement in
  let result := formatStatValue rt (Some value) (Some columnMeta) schemaElement in
  (exists s, result = Ok s)
  /\ formatStatValue rt None (Some columnMeta) schemaElement = Ok (lit "N/A")
  /\ formatStatValue rt (Some value) None schemaElement = Ok (lit "N/A")
  /\ ((physicalType = "INT32" \/ physicalType = "FLOAT") -> len value < 4 ->
      result = Ok (lit "N/A"))
  /\ ((physicalType = "INT64" \/ physicalType = "DOUBLE") -> len value < 8 ->
      result = Ok (lit "N/A"))
  /\ (forall e, formatStatValue_try rt value physicalType logicalInfo = Throw e ->
      result = Ok (lit (hexFallback value)))
  /\ ((physicalType = "BYTE_ARRAY" \/ physicalType = "FIXED_LEN_BYTE_ARRAY") ->
      typeIs logicalInfo "UUID" = false -> typeIs logicalInfo "DECIMAL" = false ->
      forall e, decodeUtf8 rt value = Throw e ->
      result = Ok (lit (hexFallback value)))
  /\ hexFallback value
     = hexJoin " " (firstn 16 value) ++ (if 16 <? len value then "..." else "")
  /\ (String.length (hexFallback value) <= 50)%nat.
Proof.
  intros physicalType logicalInfo result. subst result.
  unfold formatStatValue. fold physicalType logicalInfo.
  split; [|split; [reflexivity|split; [reflexivity|split; [|split; [|split; [|split]]]]]].
  - unfold tryCatch. destruct (formatStatValue_try _ _ _ _); eexists; reflexivity.
  - intros Hpt Hlen. unfold formatStatValue_try.
    replace (len value <? 4) with true by lia.
    destruct Hpt as [-> | ->]; reflexivity.
  - intros Hpt Hlen. unfold formatStatValue_try.
    replace (len value <? 8) with true by lia.
    destruct Hpt as [-> | ->]; reflexivity.
  - intros e He. rewrite He. reflexivity.
  - intros Hpt Huuid Hdec e He. unfold formatStatValue_try.
    assert (Hbranch :
      String.eqb physicalType "BOOLEAN" = false /\ String.eqb physicalType "INT32" = false
      /\ String.eqb physicalType "INT64" = false /\ String.eqb physicalType "INT96" = false
      /\ String.eqb physicalType "FLOAT" = false /\ String.eqb physicalType "DOUBLE" = false
      /\ (String.eqb physicalType "BYTE_ARRAY"
          || String.eqb physicalType "FIXED_LEN_BYTE_ARRAY") = true)
      by (destruct Hpt as [-> | ->]; repeat split).
    destruct Hbranch as (-> & -> & -> & -> & -> & -> & ->).
    rewrite Huuid, Hdec, He.
    destruct (typeIs logicalInfo "STRING" || typeIs logicalInfo "JSON"
              || typeIs logicalInfo "ENUM" || typeIsNull logicalInfo); reflexivity.
  - apply hexFallback_bounded.
Qed.

End FormatterFacts.

(** C7 at a runtime whose services all throw: an INT32 of two bytes is
    "N/A", an INT32 of four bytes is rendered in hex. *)
Lemma formatStatValue_total_witness :
  Stats.formatStatValue Examples.failingRuntime (Some [x01; x00])
    (Some (Stats.ColumnMetaData.mk 1)) None
    = Ok (lit "N/A")
  /\ Stats.formatStatValue Examples.failingRuntime (Some [x01; x00; x00; x00])
       (Some (Stats.ColumnMetaData.mk 1)) None
     = Ok (lit "01 00 00 00").
Proof.
  split.
  - destruct (formatStatValue_total Examples.failingRuntime [x01; x00]
                (Stats.ColumnMetaData.mk 1) None) as (_ & _ & _ & H & _).
    apply H; [left; reflexivity|reflexivity].
  - destruct (formatStatValue_total Examples.failingRuntime [x01; x00; x00; x00]
                (Stats.ColumnMetaData.mk 1) None) as (_ & _ & _ & _ & _ & H & _).
    apply (H (RuntimeError 1)). reflexivity.
Defined.

(** C8, amended, at 7 with scale 3 and with scale 0, in an engine that
    builds strings of up to [2^29 - 24] characters. *)
Lemma formatDecimal_spec_witness :
  0 <= 3
  /\ Stats.formatDecimal Examples.asciiRuntime 7 3 = "0.007"%string
  /\ Stats.formatDecimal Examples.asciiRuntime 7 0 = "7"%string.
Proof.
  assert (H : 0 <= 3) by lia.
  split; [exact H|].
  destruct (formatDecimal_spec Examples.asciiRuntime 7 3 H) as (_ & Hscaled & _).
  destruct (formatDecimal_spec Examples.asciiRuntime 7 0 (Z.le_refl 0)) as (Hplain & _).
  split; [|apply Hplain; reflexivity].
  destruct Hscaled as (_ & _ & _ & _ & _ & Hfits & _); [lia|].
  rewrite Hfits; [reflexivity|vm_compute; discriminate].
Defined.

(** C8 as stated fails for a scale beyond the longest string of the
    engine, and the scale is a signed 32-bit field of the footer that
    nothing bounds: with the scale [2^31 - 1], [padStart] throws a
    [RangeError] and the handler of [formatDecimal] returns the decimal
    string of the integer, which has no point and no fractional part. *)
Lemma formatDecimal_beyond_limit :
  0 <= 2 ^ 31 - 1
  /\ Stats.formatDecimal Examples.asciiRuntime 5 (2 ^ 31 - 1) = "5"%string
  /\ ~ (exists intPart decPart : string,
          String.length decPart = Z.to_nat (2 ^ 31 - 1)
          /\ Stats.formatDecimal Examples.asciiRuntime 5 (2 ^ 31 - 1)
             = (intPart ++ "." ++ decPart)%string).
Proof.
  assert (E : Stats.formatDecimal Examples.asciiRuntime 5 (2 ^ 31 - 1) = "5"%string)
    by (vm_compute; reflexivity).
  split; [lia|]. split; [exact E|].
  intros (intPart & decPart & Hlen & H). rewrite E in H.
  apply (f_equal String.length) in H.
  rewrite !string_length_append in H. simpl in H. lia.
Qed.

(* ================================================================== *)
(** * Further properties of the reader (src/thrift.js) *)

Section ReaderExtras.
Import Thrift.

(** Bits below [2^s] and bits from [s] on do not meet: or is addition. *)
Lemma lor_shiftl_add (a b s : Z) :
  0 <= s -> 0 <= a < 2 ^ s -> 0 <= b ->
  Z.lor a (Z.shiftl b s) = a + b * 2 ^ s.
Proof.
  intros Hs Ha Hb.
  assert (Hland : Z.land a (Z.shiftl b s) = 0).
  { apply Z.bits_inj'. intros i Hi. rewrite Z.land_spec, Z.bits_0.
    destruct (Z.lt_ge_cases i s) as [Hlt|Hge].
    - rewrite (Z.shiftl_spec_low b s i Hlt). apply andb_false_r.
    - destruct (Z.eq_dec a 0) as [->|Hnz]; [rewrite Z.bits_0; reflexivity|].
      rewrite (Z.bits_above_log2 a i); [reflexivity|lia|].
      apply Z.log2_lt_pow2; [lia|].
      apply Z.lt_le_trans with (2 ^ s); [lia|]. apply Z.pow_le_mono_r; lia. }
  pose proof (Z.add_lor_land a (Z.shiftl b s)) as H. rewrite Hland in H.
  rewrite Z.shiftl_mul_pow2 in * by lia. lia.
Qed.

Lemma u8_byteOf (n : Z) : 0 <= n < 256 -> u8 (byteOf n) = n.
Proof.
  intros Hn. unfold u8, byteOf.
  destruct (Byte.of_N (Z.to_N n)) as [b|] eqn:E.
  - apply Byte.to_of_N in E. rewrite E. lia.
  - apply Byte.of_N_None_iff in E. lia.
Qed.

Lemma byteOf_u8 (b : byte) : byteOf (u8 b) = b.
Proof.
  unfold u8, byteOf. rewrite N2Z.id, Byte.of_to_N. reflexivity.
Qed.

Lemma land_127 (n : Z) : 0 <= n -> Z.land n 127 = n mod 128.
Proof. intros. change 127 with (Z.ones 7). rewrite Z.land_ones by lia. reflexivity. Qed.

Lemma land_128_low (n : Z) : 0 <= n < 128 -> Z.land n 128 = 0.
Proof.
  intros Hn. apply Z.bits_inj'. intros i Hi. rewrite Z.land_spec, Z.bits_0.
  destruct (Z.eq_dec i 7) as [->|Hi7].
  - destruct (Z.eq_dec n 0) as [->|]; [reflexivity|].
    rewrite (Z.bits_above_log2 n 7); [reflexivity|lia|].
    apply Z.log2_lt_pow2; lia.
  - change 128 with (2 ^ 7). rewrite (Z.pow2_bits_false 7 i) by lia. apply andb_false_r.
Qed.

Lemma land_128_high (n : Z) : 0 <= n < 128 -> Z.land (n + 128) 128 <> 0.
Proof.
  intros Hn H.
  assert (Hb : Z.testbit (Z.land (n + 128) 128) 7 = false) by (rewrite H; apply Z.bits_0).
  rewrite Z.land_spec in Hb. change 128 with (2 ^ 7) in Hb at 2.
  rewrite Z.pow2_bits_true, andb_true_r in Hb by lia.
  apply Z.testbit_false in Hb; [|lia]. change (2 ^ 7) with 128 in Hb.
  replace (n + 128) with (n + 1 * 128) in Hb by lia.
  rewrite Z.div_add, Z.div_small in Hb by lia. discriminate.
Qed.

Lemma readVarint_loop_encode groups : forall n rest result shift consumed,
  0 <= n < 128 ^ (Z.of_nat groups + 1) ->
  0 <= shift -> 0 <= result < 2 ^ shift ->
  readVarint_loop (encodeVarint_groups groups n ++ rest) result shift consumed
  = Some (result + n * 2 ^ shift,
          (consumed + List.length (encodeVarint_groups groups n))%nat).
Proof.
  induction groups as [|groups IH]; intros n rest result shift consumed Hn Hs Hr.
  - change (128 ^ (Z.of_nat 0 + 1)) with 128 in Hn. simpl.
    rewrite u8_byteOf by lia. rewrite land_128_low by lia. simpl.
    rewrite land_127, Z.mod_small by lia.
    rewrite lor_shiftl_add by lia. repeat f_equal. lia.
  - simpl encodeVarint_groups. destruct (Z.ltb_spec n 128) as [Hlt|Hge].
    + simpl. rewrite u8_byteOf by lia. rewrite land_128_low by lia. simpl.
      rewrite land_127, Z.mod_small by lia.
      rewrite lor_shiftl_add by lia. repeat f_equal. lia.
    + assert (Hm : 0 <= n mod 128 < 128) by (apply Z.mod_pos_bound; lia).
      simpl. rewrite u8_byteOf by lia.
      destruct (Z.eqb_spec (Z.land (n mod 128 + 128) 128) 0) as [E|_];
        [exfalso; revert E; apply land_128_high; exact Hm|].
      rewrite land_127 by lia.
      replace ((n mod 128 + 128) mod 128) with (n mod 128)
        by (replace (n mod 128 + 128) with (n mod 128 + 1 * 128) by lia;
            rewrite Z.mod_add, Z.mod_mod by lia; reflexivity).
      rewrite lor_shiftl_add by lia.
      rewrite IH.
      * f_equal. f_equal; [|lia].
        rewrite Z.pow_add_r by lia. change (2 ^ 7) with 128.
        pose proof (Z.div_mod n 128). nia.
      * split; [apply Z.div_pos; lia|].
        apply Z.div_lt_upper_bound; [lia|].
        replace (Z.of_nat (S groups) + 1) with (1 + (Z.of_nat groups + 1)) in Hn by lia.
        rewrite Z.pow_add_r in Hn by lia. change (128 ^ 1) with 128 in Hn. lia.
      * lia.
      * split; [nia|].
        rewrite Z.pow_add_r by lia. change (2 ^ 7) with 128.
        assert (0 < 2 ^ shift) by (apply Z.pow_pos_nonneg; lia). nia.
Qed.

Lemma encodeVarint_enough (n : Z) :
  0 <= n -> n < 128 ^ (Z.of_nat (Z.to_nat (Z.log2 n)) + 1).
Proof.
  intros Hn. destruct (Z.eq_dec n 0) as [->|Hnz]; [reflexivity|].
  pose proof (Z.log2_nonneg n) as Hl. rewrite Z2Nat.id by lia.
  destruct (Z.log2_spec n) as [_ Hhi]; [lia|].
  apply Z.lt_le_trans with (2 ^ Z.succ (Z.log2 n)); [exact Hhi|].
  change 128 with (2 ^ 7). rewrite <- Z.pow_mul_r by lia.
  apply Z.pow_le_mono_r; lia.
Qed.

Lemma encodeVarint_groups_length groups : forall n,
  (1 <= List.length (encodeVarint_groups groups n) <= S groups)%nat.
Proof.
  induction groups as [|groups IH]; intros n; simpl; [lia|].
  destruct (n <? 128); simpl; [lia|]. specialize (IH (n / 128)). lia.
Qed.

(** X1.  Reading the base-128 encoding of [n] gives [n] back and moves the
    cursor past the encoding, whatever follows it. *)
Theorem readVarint_roundtrip (n : Z) (r : Reader) (rest : list byte) :
  0 <= n ->
  skipn (offset r) (buffer r) = (encodeVarint n ++ rest)%list ->
  readVarint r = Ok (n, setOffset (offset r + List.length (encodeVarint n)) r)
  /\ (1 <= List.length (encodeVarint n) <= S (Z.to_nat (Z.log2 n)))%nat.
Proof.
  intros Hn Hbytes. split; [|apply encodeVarint_groups_length].
  unfold readVarint. rewrite Hbytes. unfold encodeVarint.
  rewrite readVarint_loop_encode.
  - rewrite Z.pow_0_r, Z.mul_1_r. reflexivity.
  - split; [exact Hn|apply encodeVarint_enough; exact Hn].
  - lia.
  - simpl. lia.
Qed.

Lemma zigzag_zigzagEncode (i : Z) : zigzag (zigzagEncode i) = i.
Proof.
  rewrite zigzag_arith. unfold zigzagEncode.
  destruct (Z.leb_spec 0 i).
  - assert (E : Z.even (2 * i) = true) by (apply Z.even_spec; exists i; reflexivity).
    rewrite E. rewrite (Z.mul_comm 2 i), Z.div_mul by lia. reflexivity.
  - replace (-2 * i - 1) with (2 * (- i - 1) + 1) by lia.
    assert (E : Z.even (2 * (- i - 1) + 1) = false).
    { rewrite <- Z.negb_odd. apply negb_false_iff. apply Z.odd_spec.
      exists (- i - 1). reflexivity. }
    rewrite E.
    replace (2 * (- i - 1) + 1 + 1) with ((- i) * 2) by lia.
    rewrite Z.div_mul by lia. lia.
Qed.

Lemma zigzagEncode_zigzag (n : Z) : 0 <= n -> zigzagEncode (zigzag n) = n.
Proof.
  intros Hn. rewrite zigzag_arith. unfold zigzagEncode.
  destruct (Z.even n) eqn:E.
  - apply Z.even_spec in E. destruct E as [k ->].
    rewrite Z.mul_comm, Z.div_mul by lia.
    destruct (Z.leb_spec 0 k); lia.
  - assert (H : Z.odd n = true) by (rewrite <- Z.negb_even, E; reflexivity).
    apply Z.odd_spec in H. destruct H as [k ->].
    replace (2 * k + 1 + 1) with ((k + 1) * 2) by lia.
    rewrite Z.div_mul by lia.
    destruct (Z.leb_spec 0 (- (k + 1))); lia.
Qed.

(** X2.  The zig-zag mapping is a bijection between the unsigned varints and
    the integers, and a signed integer written as the base-128 encoding of
    its zig-zag code is read back by [readZigZag].  A safe integer (of
    magnitude at most [2^53 - 1], which a Number holds exactly) is read
    back by [readI16], [readI32] and [readI64] as well; another one is
    read back by [readI64], which keeps it a BigInt. *)
Theorem readZigZag_roundtrip (i : Z) (r : Reader) (rest : list byte) :
  skipn (offset r) (buffer r) = (encodeVarint (zigzagEncode i) ++ rest)%list ->
  let r' := setOffset (offset r + List.length (encodeVarint (zigzagEncode i))) r in
  let safe := MIN_SAFE_INTEGER <= i <= MAX_SAFE_INTEGER in
  readZigZag r = Ok (i, r')
  /\ (safe -> readI16 r = Ok (i, r') /\ readI32 r = Ok (i, r')
              /\ readI64 r = Ok (AsNumber i, r'))
  /\ (~ safe -> readI64 r = Ok (AsBigInt i, r'))
  /\ 0 <= zigzagEncode i
  /\ (forall n, 0 <= n -> zigzag n = i -> n = zigzagEncode i).
Proof.
  intros Hbytes r' safe. subst safe.
  assert (Hnn : 0 <= zigzagEncode i) by (unfold zigzagEncode; destruct (Z.leb_spec 0 i); lia).
  assert (Hz : readZigZag r = Ok (i, r')).
  { unfold readZigZag, bind, readVarint. rewrite Hbytes. unfold encodeVarint.
    rewrite readVarint_loop_encode;
      [|split; [exact Hnn|apply encodeVarint_enough; exact Hnn]|lia|simpl; lia].
    rewrite Z.pow_0_r, Z.mul_1_r. simpl Z.add. unfold ret.
    rewrite zigzag_zigzagEncode. reflexivity. }
  split; [exact Hz|].
  split.
  { intros [Hlo Hhi].
    split; [unfold readI16, bind; rewrite Hz; reflexivity|].
    split; [unfold readI32, bind; rewrite Hz; reflexivity|].
    unfold readI64, bind. rewrite Hz.
    destruct (Z.geb_spec i MIN_SAFE_INTEGER); [|lia].
    destruct (Z.leb_spec i MAX_SAFE_INTEGER); [|lia]. reflexivity. }
  split.
  { intros Hunsafe. unfold readI64, bind. rewrite Hz.
    destruct (Z.geb_spec i MIN_SAFE_INTEGER); [|reflexivity].
    destruct (Z.leb_spec i MAX_SAFE_INTEGER); [|reflexivity].
    exfalso. apply Hunsafe. lia. }
  split; [exact Hnn|].
  intros n Hn <-. symmetry. apply zigzagEncode_zigzag. exact Hn.
Qed.

(** X3.  [readSignedByte] reads one byte as a two's-complement number of
    eight bits, and throws 'Buffer underflow' at the end of the buffer. *)
Theorem readSignedByte_spec (r : Reader) :
  match nth_error (buffer r) (offset r) with
  | Some b =>
      readSignedByte r = Ok (asIntN 8 (u8 b), setOffset (S (offset r)) r)
      /\ -128 <= asIntN 8 (u8 b) <= 127
      /\ asIntN 8 (u8 b) mod 256 = u8 b
  | None => readSignedByte r = Throw BufferUnderflow
  end.
Proof.
  destruct (nth_error (buffer r) (offset r)) as [b|] eqn:E.
  - pose proof (u8_range b) as Hb.
    assert (Hv : asIntN 8 (u8 b) = if u8 b >? 127 then u8 b - 256 else u8 b).
    { unfold asIntN. change (2 ^ (8 - 1)) with 128. change (2 ^ 8) with 256.
      destruct (Z.gtb_spec (u8 b) 127).
      - replace (u8 b + 128) with (u8 b - 128 + 1 * 256) by lia.
        rewrite Z.mod_add, Z.mod_small by lia. lia.
      - rewrite Z.mod_small by lia. lia. }
    split; [|split].
    + unfold readSignedByte, bind. rewrite (readByte_at _ _ E). unfold ret.
      rewrite Hv. reflexivity.
    + rewrite Hv. destruct (Z.gtb_spec (u8 b) 127); lia.
    + rewrite Hv. destruct (Z.gtb_spec (u8 b) 127).
      * replace (u8 b - 256) with (u8 b + (-1) * 256) by lia.
        rewrite Z.mod_add, Z.mod_small by lia. reflexivity.
      * apply Z.mod_small. lia.
  - apply nth_error_None in E. unfold readSignedByte, bind, readByte.
    destruct (Nat.leb_spec (List.length (buffer r)) (offset r)); [reflexivity|lia].
Qed.

Lemma follows_refl r : follows r r.
Proof. unfold follows. auto. Qed.

Lemma follows_trans r1 r2 r3 : follows r1 r2 -> follows r2 r3 -> follows r1 r3.
Proof.
  unfold follows. intros (Hb1 & Ho1 & Hl1) (Hb2 & Ho2 & Hl2). rewrite Hb1 in *.
  repeat split; [assumption|lia|auto].
Qed.

Lemma advances_ret {A : Type} (a : A) : advances (ret a).
Proof. intros r a' r' H. inversion H; subst. apply follows_refl. Qed.

Lemma advances_bind {A B : Type} (m : M A) (k : A -> M B) :
  advances m -> (forall a, advances (k a)) -> advances (bind m k).
Proof.
  intros Hm Hk r b r' H. unfold bind in H.
  destruct (m r) as [[a r1]|e] eqn:E; [|discriminate].
  eapply follows_trans; [eapply Hm; exact E|eapply Hk; exact H].
Qed.

Lemma advances_readByte : advances readByte.
Proof.
  intros r a r' H. unfold readByte in H.
  destruct (Nat.leb_spec (List.length (buffer r)) (offset r)); [discriminate|].
  inversion H; subst. unfold follows. simpl. repeat split; lia.
Qed.

Lemma advances_readVarint : advances readVarint.
Proof.
  intros r a r' H. apply readVarint_ok in H. destruct H as (_ & Hb & _ & _ & Ho).
  unfold follows. repeat split; [assumption|lia|lia].
Qed.

Lemma advances_readZigZag : advances readZigZag.
Proof.
  apply advances_bind; [apply advances_readVarint|intros; apply advances_ret].
Qed.

Lemma advances_readI64 : advances readI64.
Proof.
  apply advances_bind; [apply advances_readZigZag|].
  intros v. destruct ((v >=? MIN_SAFE_INTEGER) && (v <=? MAX_SAFE_INTEGER));
    apply advances_ret.
Qed.

Lemma advances_readBinary : advances readBinary.
Proof.
  unfold readBinary. apply advances_bind; [apply advances_readVarint|].
  intros n r a r' H. unfold Number in H.
  destruct (Z.ltb_spec n 0); [discriminate|].
  destruct (Z.gtb_spec (Z.of_nat (offset r) + n) (len (buffer r))); [discriminate|].
  inversion H; subst. unfold follows. simpl. unfold len in *. repeat split; lia.
Qed.

Lemma advances_readBool : advances readBool.
Proof.
  intros r a r' H. unfold readBool in H. destruct (boolValue r).
  - inversion H; subst. unfold follows. simpl. auto.
  - revert H. apply advances_bind; [apply advances_readByte|intros; apply advances_ret].
Qed.

Lemma advances_set {A : Type} (a : A) (f : Reader -> Reader) :
  (forall r, buffer (f r) = buffer r /\ offset (f r) = offset r) ->
  advances (fun r => Ok (a, f r)).
Proof.
  intros Hf r a' r' H. inversion H; subst. destruct (Hf r) as [Hb Ho].
  unfold follows. rewrite Hb, Ho. auto.
Qed.

Lemma advances_getLastFieldId : advances getLastFieldId.
Proof.
  intros r a r' H. unfold getLastFieldId in H.
  destruct (lastFieldId r); inversion H; subst. apply follows_refl.
Qed.

Lemma advances_putLastFieldId fieldId : advances (putLastFieldId fieldId).
Proof.
  intros r a r' H. unfold putLastFieldId in H.
  destruct (lastFieldId r); inversion H; subst. unfold follows. simpl. auto.
Qed.

Lemma advances_readFieldBegin : advances readFieldBegin.
Proof.
  unfold readFieldBegin. apply advances_bind; [apply advances_readByte|].
  intros byte. destruct (byte =? 0); [apply advances_ret|].
  apply advances_bind.
  { destruct (Z.land (Z.shiftr byte 4) 15 =? 0).
    - apply advances_bind; [apply advances_readZigZag|intros; apply advances_ret].
    - apply advances_bind; [apply advances_getLastFieldId|intros; apply advances_ret]. }
  intros fieldId. apply advances_bind; [apply advances_putLastFieldId|].
  intros _. apply advances_bind; [|intros; apply advances_ret].
  destruct (Z.land byte 15 =? COMPACT_TYPES.BOOL_TRUE);
    [apply advances_set; intros; auto|].
  destruct (Z.land byte 15 =? COMPACT_TYPES.BOOL_FALSE);
    [apply advances_set; intros; auto|apply advances_ret].
Qed.

Lemma advances_readListBegin : advances readListBegin.
Proof.
  unfold readListBegin. apply advances_bind; [apply advances_readByte|].
  intros byte. apply advances_bind; [|intros; apply advances_ret].
  destruct (Z.land (Z.shiftr byte 4) 15 =? 15); [|apply advances_ret].
  apply advances_bind; [apply advances_readVarint|intros; apply advances_ret].
Qed.

Lemma advances_readMapBegin : advances readMapBegin.
Proof.
  unfold readMapBegin. apply advances_bind; [apply advances_readVarint|].
  intros n. destruct (Number n =? 0); [apply advances_ret|].
  apply advances_bind; [apply advances_readByte|intros; apply advances_ret].
Qed.

Lemma readDouble_follows r v r' : readDouble r = Normal v r' -> follows r r'.
Proof.
  unfold readDouble. destruct (Z.gtb_spec (Z.of_nat (offset r) + 8) (len (buffer r)));
    intros E; inversion E; subst.
  unfold follows, len in *. simpl. repeat split; lia.
Qed.

(** X4.  Every read method of the reader that returns leaves the buffer as
    it was, the cursor where it was or further, and within the buffer if it
    was: no method reads behind the cursor or past the end. *)
Theorem reader_advances :
  advances readByte /\ advances readSignedByte /\ advances readVarint
  /\ advances readZigZag /\ advances readI16 /\ advances readI32 /\ advances readI64
  /\ advances readBinary /\ advances readBool
  /\ advances readStructBegin /\ advances readStructEnd /\ advances readFieldBegin
  /\ advances readListBegin /\ advances readSetBegin /\ advances readMapBegin
  /\ (forall r v r', readDouble r = Normal v r' -> follows r r').
Proof.
  split; [apply advances_readByte|].
  split; [apply advances_bind; [apply advances_readByte|intros; apply advances_ret]|].
  split; [apply advances_readVarint|].
  split; [apply advances_readZigZag|].
  split; [apply advances_bind; [apply advances_readZigZag|intros; apply advances_ret]|].
  split; [apply advances_bind; [apply advances_readZigZag|intros; apply advances_ret]|].
  split; [apply advances_readI64|].
  split; [apply advances_readBinary|].
  split; [apply advances_readBool|].
  split; [apply advances_set; intros; auto|].
  split; [apply advances_set; intros; auto|].
  split; [apply advances_readFieldBegin|].
  split; [apply advances_readListBegin|].
  split; [apply advances_readListBegin|].
  split; [apply advances_readMapBegin|].
  apply readDouble_follows.
Qed.

Lemma cursorOnly_ret {A : Type} (a : A) : cursorOnly (ret a).
Proof. intros r a' r' H. inversion H; subst. auto. Qed.

Lemma cursorOnly_bind {A B : Type} (m : M A) (k : A -> M B) :
  cursorOnly m -> (forall a, cursorOnly (k a)) -> cursorOnly (bind m k).
Proof.
  intros Hm Hk r b r' H. unfold bind in H.
  destruct (m r) as [[a r1]|e] eqn:E; [|discriminate].
  destruct (Hm _ _ _ E) as [H1 H2]. destruct (Hk a _ _ _ H) as [H3 H4].
  split; congruence.
Qed.

Lemma cursorOnly_readByte : cursorOnly readByte.
Proof.
  intros r a r' H. unfold readByte in H.
  destruct (List.length (buffer r) <=? offset r)%nat; inversion H; subst. auto.
Qed.

Lemma cursorOnly_readVarint : cursorOnly readVarint.
Proof. intros r a r' H. apply readVarint_ok in H. tauto. Qed.

Lemma cursorOnly_readZigZag : cursorOnly readZigZag.
Proof.
  apply cursorOnly_bind; [apply cursorOnly_readVarint|intros; apply cursorOnly_ret].
Qed.

Lemma cursorOnly_readI64 : cursorOnly readI64.
Proof.
  apply cursorOnly_bind; [apply cursorOnly_readZigZag|].
  intros v. destruct ((v >=? MIN_SAFE_INTEGER) && (v <=? MAX_SAFE_INTEGER));
    apply cursorOnly_ret.
Qed.

Lemma cursorOnly_readBinary : cursorOnly readBinary.
Proof.
  unfold readBinary. apply cursorOnly_bind; [apply cursorOnly_readVarint|].
  intros n r a r' H.
  destruct (Number n <? 0); [discriminate|].
  destruct (Z.of_nat (offset r) + Number n >? len (buffer r)); [discriminate|].
  inversion H; subst. auto.
Qed.

Lemma cursorOnly_readListBegin : cursorOnly readListBegin.
Proof.
  unfold readListBegin. apply cursorOnly_bind; [apply cursorOnly_readByte|].
  intros byte. apply cursorOnly_bind; [|intros; apply cursorOnly_ret].
  destruct (Z.land (Z.shiftr byte 4) 15 =? 15); [|apply cursorOnly_ret].
  apply cursorOnly_bind; [apply cursorOnly_readVarint|intros; apply cursorOnly_ret].
Qed.

Lemma cursorOnly_readMapBegin : cursorOnly readMapBegin.
Proof.
  unfold readMapBegin. apply cursorOnly_bind; [apply cursorOnly_readVarint|].
  intros n. destruct (Number n =? 0); [apply cursorOnly_ret|].
  apply cursorOnly_bind; [apply cursorOnly_readByte|intros; apply cursorOnly_ret].
Qed.

Lemma restores_refl r : restores r r.
Proof. unfold restores. split; [apply follows_refl|auto]. Qed.

Lemma restores_trans r1 r2 r3 : restores r1 r2 -> restores r2 r3 -> restores r1 r3.
Proof.
  unfold restores. intros (Hf1 & Hs1 & Hb1) (Hf2 & Hs2 & Hb2).
  split; [eapply follows_trans; eassumption|]. split; [congruence|auto].
Qed.

Lemma lift_restores {A : Type} (m : M A) r a r' :
  advances m -> cursorOnly m -> lift m r = Normal a r' -> restores r r'.
Proof.
  intros Ha Hc H. unfold lift in H.
  destruct (m r) as [[a' r1]|e] eqn:E; inversion H; subst.
  destruct (Hc _ _ _ E) as [Hs Hb]. unfold restores.
  split; [eapply Ha; exact E|]. split; [exact Hs|]. intros Hn. congruence.
Qed.

Lemma repeatBody_restores n body : forall r r',
  (forall r1 r2, body r1 = Some (Normal tt r2) -> restores r1 r2) ->
  repeatBody n body r = Some (Normal tt r') -> restores r r'.
Proof.
  induction n as [|n IH]; intros r r' Hbody H; simpl in H.
  - inversion H; subst. apply restores_refl.
  - destruct (body r) as [[[] r1|e]|] eqn:E; simpl in H; try discriminate.
    eapply restores_trans; [apply Hbody; exact E|apply IH; assumption].
Qed.

(** A loop without end does not return. *)
Lemma repeatForever_no_return fuel body : forall r r',
  repeatForever fuel body r <> Some (Normal tt r').
Proof.
  induction fuel as [|fuel IH]; intros r r' H; simpl in H; [discriminate|].
  destruct (body r) as [[[] r1|e]|]; simpl in H; try discriminate.
  exact (IH _ _ H).
Qed.

Lemma forLoop_restores fuel size body r r' :
  (forall r1 r2, body r1 = Some (Normal tt r2) -> restores r1 r2) ->
  forLoop fuel size body r = Some (Normal tt r') -> restores r r'.
Proof.
  intros Hbody H. unfold forLoop in H. destruct (size <=? 2 ^ 53 + 1).
  - eapply repeatBody_restores; eassumption.
  - exfalso. exact (repeatForever_no_return _ _ _ _ H).
Qed.

(** The effect of a field header on a reader inside a struct. *)
Lemma readFieldBegin_effect r f r' top below :
  lastFieldId r = top :: below ->
  readFieldBegin r = Ok (f, r') ->
  follows r r' /\ (offset r < offset r')%nat
  /\ (offset r < List.length (buffer r))%nat
  /\ (exists top', lastFieldId r' = top' :: below)
  /\ (boolValue r' = boolValue r \/ (ftype f = TType.BOOL /\ boolValue r' <> None)).
Proof.
  intros Hs H. split; [eapply advances_readFieldBegin; exact H|].
  destruct (nth_error (buffer r) (offset r)) as [b|] eqn:E.
  2:{ apply nth_error_None in E. unfold readFieldBegin, bind, readByte in H.
      destruct (Nat.leb_spec (List.length (buffer r)) (offset r)); [discriminate|lia]. }
  assert (Hlt : (offset r < List.length (buffer r))%nat)
    by (apply nth_error_Some; congruence).
  destruct (Z.eq_dec (u8 b) 0) as [H0|Hnz].
  - rewrite (readFieldBegin_stop _ _ E H0) in H. inversion H; subst. simpl.
    split; [lia|]. split; [exact Hlt|]. split; [eauto|]. left. reflexivity.
  - assert (Hbool : forall prev,
      pendingBool (u8 b mod 16) prev = prev
      \/ (compactTypeToThriftType (u8 b mod 16) = TType.BOOL
          /\ pendingBool (u8 b mod 16) prev <> None)).
    { intros prev. unfold pendingBool.
      destruct (Z.eqb_spec (u8 b mod 16) COMPACT_TYPES.BOOL_TRUE) as [->|_];
        [right; split; [reflexivity|discriminate]|].
      destruct (Z.eqb_spec (u8 b mod 16) COMPACT_TYPES.BOOL_FALSE) as [->|_];
        [right; split; [reflexivity|discriminate]|].
      left. reflexivity. }
    destruct (Z.eq_dec (u8 b / 16) 0) as [Hd|Hd].
    + rewrite (readFieldBegin_long _ _ _ _ E Hs Hnz Hd) in H.
      destruct (readVarint (setOffset (S (offset r)) r)) as [[n r1]|e] eqn:Ev;
        [|discriminate].
      apply readVarint_ok in Ev. simpl in Ev. inversion H; subst. simpl.
      split; [lia|]. split; [exact Hlt|]. split; [eauto|]. apply Hbool.
    + rewrite (readFieldBegin_short _ _ _ _ E Hs Hd) in H. inversion H; subst. simpl.
      split; [lia|]. split; [exact Hlt|]. split; [eauto|]. apply Hbool.
Qed.

(** With fuel [fuel]: what a return of [skip], and of the loop over the
    fields of a struct, leaves of the reader. *)
Lemma skip_restores_aux fuel :
  (forall type r r', skip fuel type r = Some (Normal tt r') -> restores r r')
  /\ (forall r r' top below,
        lastFieldId r = top :: below ->
        skipFields fuel r = Some (Normal tt r') ->
        follows r r' /\ (exists top', lastFieldId r' = top' :: below)
        /\ (boolValue r = None -> boolValue r' = None)).
Proof.
  induction fuel as [|fuel [IHskip IHfields]]; [split; intros; discriminate|].
  split.
  - intros type r r' H. simpl in H.
    destruct (type =? TType.STOP); [inversion H; subst; apply restores_refl|].
    destruct ((type =? TType.BOOL) || (type =? TType.BOOL_TRUE) || (type =? TType.BOOL_FALSE)).
    { destruct (boolValue r) eqn:Eb.
      - inversion H; subst. unfold restores, follows. simpl. auto.
      - inversion H as [H']. revert H'. apply lift_restores.
        + apply advances_bind; [apply advances_readByte|intros; apply advances_ret].
        + apply cursorOnly_bind; [apply cursorOnly_readByte|intros; apply cursorOnly_ret]. }
    destruct ((type =? TType.BYTE) || (type =? TType.I08)).
    { inversion H as [H']. revert H'. apply lift_restores.
      - apply advances_bind; [apply advances_readByte|intros; apply advances_ret].
      - apply cursorOnly_bind; [apply cursorOnly_readByte|intros; apply cursorOnly_ret]. }
    destruct (type =? TType.I16).
    { inversion H as [H']. revert H'. apply lift_restores.
      - apply advances_bind; [|intros; apply advances_ret].
        apply advances_bind; [apply advances_readZigZag|intros; apply advances_ret].
      - apply cursorOnly_bind; [|intros; apply cursorOnly_ret].
        apply cursorOnly_bind; [apply cursorOnly_readZigZag|intros; apply cursorOnly_ret]. }
    destruct (type =? TType.I32).
    { inversion H as [H']. revert H'. apply lift_restores.
      - apply advances_bind; [|intros; apply advances_ret].
        apply advances_bind; [apply advances_readZigZag|intros; apply advances_ret].
      - apply cursorOnly_bind; [|intros; apply cursorOnly_ret].
        apply cursorOnly_bind; [apply cursorOnly_readZigZag|intros; apply cursorOnly_ret]. }
    destruct (type =? TType.I64).
    { inversion H as [H']. revert H'. apply lift_restores.
      - apply advances_bind; [apply advances_readI64|intros; apply advances_ret].
      - apply cursorOnly_bind; [apply cursorOnly_readI64|intros; apply cursorOnly_ret]. }
    destruct (type =? TType.DOUBLE).
    { simpl in H. destruct (readDouble r) as [v r1|e] eqn:E; inversion H; subst.
      pose proof (readDouble_follows _ _ _ E) as Hf.
      unfold readDouble in E.
      destruct (Z.of_nat (offset r) + 8 >? len (buffer r)); inversion E; subst.
      unfold restores. split; [exact Hf|]. simpl. auto. }
    destruct (type =? TType.STRING).
    { inversion H as [H']. revert H'. apply lift_restores.
      - apply advances_bind; [apply advances_readBinary|intros; apply advances_ret].
      - apply cursorOnly_bind; [apply cursorOnly_readBinary|intros; apply cursorOnly_ret]. }
    destruct (type =? TType.STRUCT).
    { unfold lift at 1 in H. simpl in H.
      destruct (skipFields fuel (setLastFieldId (0 :: lastFieldId r) r))
        as [[[] r2|e]|] eqn:E; simpl in H; try discriminate.
      inversion H; subst.
      destruct (IHfields (setLastFieldId (0 :: lastFieldId r) r) r2 0 (lastFieldId r)
                  eq_refl E) as (Hf & [top' Hs] & Hb).
      unfold restores, follows in *. simpl in *. rewrite Hs. simpl. tauto. }
    destruct ((type =? TType.LIST) || (type =? TType.SET)).
    { simpl in H. destruct (lift readListBegin r) as [h r1|e] eqn:E; simpl in H;
        [|discriminate].
      eapply restores_trans.
      - eapply lift_restores; [apply advances_readListBegin|apply cursorOnly_readListBegin|].
        exact E.
      - eapply forLoop_restores; [|exact H]. intros r1' r2'. apply IHskip. }
    destruct (type =? TType.MAP); [|discriminate].
    simpl in H. destruct (lift readMapBegin r) as [h r1|e] eqn:E; simpl in H;
      [|discriminate].
    eapply restores_trans.
    + eapply lift_restores; [apply advances_readMapBegin|apply cursorOnly_readMapBegin|].
      exact E.
    + eapply forLoop_restores; [|exact H]. intros r1' r2' Hkv.
      cbv beta in Hkv.
      destruct (skip fuel (MapHeader.ktype h) r1') as [[[] rk|e]|] eqn:Ek; simpl in Hkv;
        try discriminate.
      eapply restores_trans; [eapply IHskip; exact Ek|eapply IHskip; exact Hkv].
  - intros r r' top below Hs H. simpl in H.
    destruct (lift readFieldBegin r) as [f r1|e] eqn:E; simpl in H; [|discriminate].
    unfold lift in E. destruct (readFieldBegin r) as [[f' r1']|e] eqn:Ef; inversion E; subst.
    destruct (readFieldBegin_effect _ _ _ _ _ Hs Ef) as (Hf1 & _ & _ & [top1 Hs1] & Hb1).
    destruct (Z.eqb_spec (ftype f) TType.STOP) as [Hstop|Hns].
    + inversion H; subst. split; [exact Hf1|]. split; [eauto|].
      intros Hn. destruct Hb1 as [Hb1|[Hb1 _]]; [congruence|].
      rewrite Hstop in Hb1. discriminate.
    + destruct (skip fuel (ftype f) r1) as [[[] r2|e]|] eqn:Es; simpl in H;
        try discriminate.
      destruct (IHskip _ _ _ Es) as (Hf2 & Hs2 & Hb2).
      assert (Hnone : boolValue r = None -> boolValue r2 = None).
      { intros Hn. destruct Hb1 as [Hb1|[Hty Hb1]]; [apply Hb2; congruence|].
        destruct fuel as [|fuel']; [discriminate|]. simpl in Es. rewrite Hty in Es.
        simpl in Es. destruct (boolValue r1) eqn:Eb; [|contradiction].
        inversion Es; subst. reflexivity. }
      destruct (IHfields r2 r' top1 below) as (Hf3 & Hs3 & Hb3);
        [congruence|exact H|].
      split; [eapply follows_trans; [exact Hf1|eapply follows_trans; eassumption]|].
      split; [exact Hs3|]. auto.
Qed.

Lemma truncates_ret {A : Type} (a : A) : truncates (ret a).
Proof. intros r e H. discriminate. Qed.

Lemma truncates_bind {A B : Type} (m : M A) (k : A -> M B) :
  truncates m -> (forall a, truncates (k a)) -> truncates (bind m k).
Proof.
  intros Hm Hk r e H. unfold bind in H.
  destruct (m r) as [[a r1]|e'] eqn:E.
  - eapply Hk; exact H.
  - inversion H; subst. eapply Hm; exact E.
Qed.

Lemma truncates_readByte : truncates readByte.
Proof.
  intros r e H. unfold readByte in H.
  destruct (List.length (buffer r) <=? offset r)%nat; inversion H; reflexivity.
Qed.

Lemma truncates_readVarint : truncates readVarint.
Proof. intros r e H. apply readVarint_throw in H. subst. reflexivity. Qed.

Lemma truncates_readZigZag : truncates readZigZag.
Proof.
  apply truncates_bind; [apply truncates_readVarint|intros; apply truncates_ret].
Qed.

Lemma truncates_readI64 : truncates readI64.
Proof.
  apply truncates_bind; [apply truncates_readZigZag|].
  intros v. destruct ((v >=? MIN_SAFE_INTEGER) && (v <=? MAX_SAFE_INTEGER));
    apply truncates_ret.
Qed.

Lemma truncates_readBinary : truncates readBinary.
Proof.
  intros r e H. unfold readBinary, bind in H.
  destruct (readVarint r) as [[n r1]|e'] eqn:E.
  - apply readVarint_ok in E. destruct E as (Hn & _). unfold Number in H.
    destruct (Z.ltb_spec n 0); [lia|].
    destruct (Z.of_nat (offset r1) + n >? len (buffer r1)); inversion H; reflexivity.
  - inversion H; subst. apply readVarint_throw in E. subst. reflexivity.
Qed.

Lemma truncates_readListBegin : truncates readListBegin.
Proof.
  unfold readListBegin. apply truncates_bind; [apply truncates_readByte|].
  intros byte. apply truncates_bind; [|intros; apply truncates_ret].
  destruct (Z.land (Z.shiftr byte 4) 15 =? 15); [|apply truncates_ret].
  apply truncates_bind; [apply truncates_readVarint|intros; apply truncates_ret].
Qed.

Lemma truncates_readMapBegin : truncates readMapBegin.
Proof.
  unfold readMapBegin. apply truncates_bind; [apply truncates_readVarint|].
  intros n. destruct (Number n =? 0); [apply truncates_ret|].
  apply truncates_bind; [apply truncates_readByte|intros; apply truncates_ret].
Qed.

Lemma readFieldBegin_throws r e top below :
  lastFieldId r = top :: below ->
  readFieldBegin r = Throw e -> skipFailure (Raised e) = true.
Proof.
  intros Hs H.
  destruct (nth_error (buffer r) (offset r)) as [b|] eqn:E.
  2:{ apply nth_error_None in E. unfold readFieldBegin, bind, readByte in H.
      destruct (Nat.leb_spec (List.length (buffer r)) (offset r)); [|lia].
      inversion H; reflexivity. }
  destruct (Z.eq_dec (u8 b) 0) as [H0|Hnz].
  - rewrite (readFieldBegin_stop _ _ E H0) in H. discriminate.
  - destruct (Z.eq_dec (u8 b / 16) 0) as [Hd|Hd].
    + rewrite (readFieldBegin_long _ _ _ _ E Hs Hnz Hd) in H.
      destruct (readVarint (setOffset (S (offset r)) r)) as [[n r1]|e'] eqn:Ev;
        [discriminate|].
      inversion H; subst. apply readVarint_throw in Ev. subst. reflexivity.
    + rewrite (readFieldBegin_short _ _ _ _ E Hs Hd) in H. discriminate.
Qed.

Lemma lift_abrupt {A : Type} (m : M A) r e :
  truncates m -> lift m r = Abrupt e -> skipFailure e = true.
Proof.
  intros Hm H. unfold lift in H.
  destruct (m r) as [[a r1]|e'] eqn:E; inversion H; subst. eapply Hm; exact E.
Qed.

Lemma repeatBody_abrupt n body : forall r e,
  (forall r1 e1, body r1 = Some (Abrupt e1) -> skipFailure e1 = true) ->
  repeatBody n body r = Some (Abrupt e) -> skipFailure e = true.
Proof.
  induction n as [|n IH]; intros r e Hbody H; simpl in H; [discriminate|].
  destruct (body r) as [[[] r1|e1]|] eqn:E; simpl in H; try discriminate.
  - eapply IH; eassumption.
  - inversion H; subst. eapply Hbody; exact E.
Qed.

Lemma repeatForever_abrupt fuel body : forall r e,
  (forall r1 e1, body r1 = Some (Abrupt e1) -> skipFailure e1 = true) ->
  repeatForever fuel body r = Some (Abrupt e) -> skipFailure e = true.
Proof.
  induction fuel as [|fuel IH]; intros r e Hbody H; simpl in H; [discriminate|].
  destruct (body r) as [[[] r1|e1]|] eqn:E; simpl in H; try discriminate.
  - eapply IH; eassumption.
  - inversion H; subst. eapply Hbody; exact E.
Qed.

Lemma forLoop_abrupt fuel size body r e :
  (forall r1 e1, body r1 = Some (Abrupt e1) -> skipFailure e1 = true) ->
  forLoop fuel size body r = Some (Abrupt e) -> skipFailure e = true.
Proof.
  intros Hbody H. unfold forLoop in H. destruct (size <=? 2 ^ 53 + 1).
  - eapply repeatBody_abrupt; eassumption.
  - eapply repeatForever_abrupt; eassumption.
Qed.

Lemma unknown_type (type : Z) :
  (type =? TType.STOP) = false ->
  (type =? TType.BOOL) || (type =? TType.BOOL_TRUE) || (type =? TType.BOOL_FALSE) = false ->
  (type =? TType.BYTE) || (type =? TType.I08) = false ->
  (type =? TType.I16) = false -> (type =? TType.I32) = false ->
  (type =? TType.I64) = false -> (type =? TType.DOUBLE) = false ->
  (type =? TType.STRING) = false -> (type =? TType.STRUCT) = false ->
  (type =? TType.LIST) || (type =? TType.SET) = false ->
  (type =? TType.MAP) = false ->
  knownType type = false.
Proof.
  unfold TType.STOP, TType.BOOL, TType.BOOL_TRUE, TType.BOOL_FALSE, TType.BYTE, TType.I08,
    TType.I16, TType.I32, TType.I64, TType.DOUBLE, TType.STRING, TType.STRUCT, TType.LIST,
    TType.SET, TType.MAP, knownType.
  intros. repeat match goal with
  | H : _ || _ = false |- _ => apply orb_false_iff in H; destruct H
  | H : (_ =? _) = false |- _ => apply Z.eqb_neq in H
  end.
  destruct (Z.leb_spec 0 type); [|reflexivity].
  destruct (Z.leb_spec type 12); [lia|reflexivity].
Qed.

Lemma skip_failures_aux fuel :
  (forall type r e, skip fuel type r = Some (Abrupt e) -> skipFailure e = true)
  /\ (forall r e top below,
        lastFieldId r = top :: below ->
        skipFields fuel r = Some (Abrupt e) -> skipFailure e = true).
Proof.
  induction fuel as [|fuel [IHskip IHfields]]; [split; intros; discriminate|].
  split.
  - intros type r e H. simpl in H.
    destruct (type =? TType.STOP) eqn:E0; [discriminate|].
    destruct ((type =? TType.BOOL) || (type =? TType.BOOL_TRUE) || (type =? TType.BOOL_FALSE))
      eqn:E1.
    { destruct (boolValue r); [discriminate|]. inversion H as [H']. revert H'.
      apply lift_abrupt.
      apply truncates_bind; [apply truncates_readByte|intros; apply truncates_ret]. }
    destruct ((type =? TType.BYTE) || (type =? TType.I08)) eqn:E2.
    { inversion H as [H']. revert H'. apply lift_abrupt.
      apply truncates_bind; [apply truncates_readByte|intros; apply truncates_ret]. }
    destruct (type =? TType.I16) eqn:E3.
    { inversion H as [H']. revert H'. apply lift_abrupt.
      apply truncates_bind; [|intros; apply truncates_ret].
      apply truncates_bind; [apply truncates_readZigZag|intros; apply truncates_ret]. }
    destruct (type =? TType.I32) eqn:E4.
    { inversion H as [H']. revert H'. apply lift_abrupt.
      apply truncates_bind; [|intros; apply truncates_ret].
      apply truncates_bind; [apply truncates_readZigZag|intros; apply truncates_ret]. }
    destruct (type =? TType.I64) eqn:E5.
    { inversion H as [H']. revert H'. apply lift_abrupt.
      apply truncates_bind; [apply truncates_readI64|intros; apply truncates_ret]. }
    destruct (type =? TType.DOUBLE) eqn:E6.
    { simpl in H. unfold readDouble in H.
      destruct (Z.of_nat (offset r) + 8 >? len (buffer r)); inversion H; reflexivity. }
    destruct (type =? TType.STRING) eqn:E7.
    { inversion H as [H']. revert H'. apply lift_abrupt.
      apply truncates_bind; [apply truncates_readBinary|intros; apply truncates_ret]. }
    destruct (type =? TType.STRUCT) eqn:E8.
    { unfold lift at 1 in H. simpl in H.
      destruct (skipFields fuel (setLastFieldId (0 :: lastFieldId r) r))
        as [[[] r2|e2]|] eqn:E; simpl in H; try discriminate.
      inversion H; subst.
      eapply (IHfields (setLastFieldId (0 :: lastFieldId r) r) e 0 (lastFieldId r));
        [reflexivity|exact E]. }
    destruct ((type =? TType.LIST) || (type =? TType.SET)) eqn:E9.
    { simpl in H. destruct (lift readListBegin r) as [h r1|e1] eqn:E; simpl in H.
      - eapply forLoop_abrupt; [|exact H]. intros r1' e1. apply IHskip.
      - inversion H; subst. eapply lift_abrupt; [apply truncates_readListBegin|exact E]. }
    destruct (type =? TType.MAP) eqn:E10.
    { simpl in H. destruct (lift readMapBegin r) as [h r1|e1] eqn:E; simpl in H.
      - eapply forLoop_abrupt; [|exact H]. intros r1' e1 Hkv. cbv beta in Hkv.
        destruct (skip fuel (MapHeader.ktype h) r1') as [[[] rk|ek]|] eqn:Ek;
          simpl in Hkv; try discriminate.
        + eapply IHskip; exact Hkv.
        + inversion Hkv; subst. eapply IHskip; exact Ek.
      - inversion H; subst. eapply lift_abrupt; [apply truncates_readMapBegin|exact E]. }
    inversion H; subst. simpl. rewrite unknown_type by assumption. reflexivity.
  - intros r e top below Hs H. simpl in H.
    unfold lift in H. destruct (readFieldBegin r) as [[f r1]|e1] eqn:Ef; simpl in H.
    + destruct (readFieldBegin_effect _ _ _ _ _ Hs Ef) as (_ & _ & _ & [top1 Hs1] & _).
      destruct (ftype f =? TType.STOP); [discriminate|].
      destruct (skip fuel (ftype f) r1) as [[[] r2|e2]|] eqn:Es; simpl in H;
        try discriminate.
      * destruct (proj1 (skip_restores_aux fuel) _ _ _ Es) as (_ & Hs2 & _).
        eapply (IHfields r2 e top1 below); [congruence|exact H].
      * inversion H; subst. eapply IHskip; exact Es.
    + inversion H; subst. eapply readFieldBegin_throws; eassumption.
Qed.

Lemma follows_remaining r r' : follows r r' -> (remaining r' <= remaining r)%nat.
Proof. unfold follows, remaining. intros (Hb & Ho & _). rewrite Hb. lia. Qed.

Lemma restores_remaining r r' : restores r r' -> (remaining r' <= remaining r)%nat.
Proof. intros [H _]. apply follows_remaining. exact H. Qed.

Lemma consumes_bind {A B : Type} (m : M A) (k : A -> M B) :
  consumes m -> (forall a, advances (k a)) -> consumes (bind m k).
Proof.
  intros Hm Hk r b r' H. unfold bind in H.
  destruct (m r) as [[a r1]|e] eqn:E; [|discriminate].
  pose proof (Hm _ _ _ E). pose proof (follows_remaining _ _ (Hk a _ _ _ H)). lia.
Qed.

Lemma consumes_readByte : consumes readByte.
Proof.
  intros r a r' H. unfold readByte in H.
  destruct (Nat.leb_spec (List.length (buffer r)) (offset r)); [discriminate|].
  inversion H; subst. unfold remaining. simpl. lia.
Qed.

Lemma consumes_readVarint : consumes readVarint.
Proof.
  intros r a r' H. apply readVarint_ok in H. destruct H as (_ & Hb & _ & _ & Ho).
  unfold remaining. rewrite Hb. lia.
Qed.

Lemma consumes_readListBegin : consumes readListBegin.
Proof.
  unfold readListBegin. apply consumes_bind; [apply consumes_readByte|].
  intros byte. apply advances_bind; [|intros; apply advances_ret].
  destruct (Z.land (Z.shiftr byte 4) 15 =? 15); [|apply advances_ret].
  apply advances_bind; [apply advances_readVarint|intros; apply advances_ret].
Qed.

Lemma consumes_readMapBegin : consumes readMapBegin.
Proof.
  unfold readMapBegin. apply consumes_bind; [apply consumes_readVarint|].
  intros n. destruct (Number n =? 0); [apply advances_ret|].
  apply advances_bind; [apply advances_readByte|intros; apply advances_ret].
Qed.

Lemma consumes_readZigZag : consumes readZigZag.
Proof.
  apply consumes_bind; [apply consumes_readVarint|intros; apply advances_ret].
Qed.

Lemma consumes_readI64 : consumes readI64.
Proof.
  apply consumes_bind; [apply consumes_readZigZag|].
  intros v. destruct ((v >=? MIN_SAFE_INTEGER) && (v <=? MAX_SAFE_INTEGER));
    apply advances_ret.
Qed.

Lemma consumes_readBinary : consumes readBinary.
Proof.
  intros r a r' H. pose proof (advances_readBinary _ _ _ H) as Hf.
  unfold readBinary, bind in H.
  destruct (readVarint r) as [[n r1]|e] eqn:E; [|discriminate].
  pose proof (consumes_readVarint _ _ _ E) as Hc.
  destruct (Number n <? 0); [discriminate|].
  destruct (Z.gtb_spec (Z.of_nat (offset r1) + Number n) (len (buffer r1))) as [|Eo];
    [discriminate|].
  inversion H; subst. apply readVarint_ok in E. destruct E as (Hn & Hb & _).
  unfold remaining, Number, len in *. simpl. rewrite Hb in *. lia.
Qed.

(** What is left to do does not grow over a call that restores the
    reader, and shrinks when the call moves the cursor. *)
Lemma restores_effort r r' : restores r r' -> (effort r' <= effort r)%nat.
Proof.
  intros (Hf & _ & Hb). pose proof (follows_remaining _ _ Hf). unfold effort.
  destruct (boolValue r); [destruct (boolValue r'); lia|].
  rewrite (Hb eq_refl). lia.
Qed.

Lemma restores_progress r r' :
  restores r r' -> (remaining r' < remaining r)%nat -> (effort r' < effort r)%nat.
Proof.
  intros (_ & _ & Hb) Hlt. unfold effort.
  destruct (boolValue r); [destruct (boolValue r'); lia|].
  rewrite (Hb eq_refl). lia.
Qed.

Lemma lift_consumes {A : Type} (m : M A) r a r' :
  consumes m -> lift m r = Normal a r' -> (remaining r' < remaining r)%nat.
Proof.
  intros Hm H. unfold lift in H.
  destruct (m r) as [[a' r1]|e] eqn:E; inversion H; subst. eapply Hm; exact E.
Qed.

(** The loop over the fields of a struct reads at least the stop byte. *)
Lemma skipFields_consumes fuel r r' top below :
  lastFieldId r = top :: below ->
  skipFields fuel r = Some (Normal tt r') -> (remaining r' < remaining r)%nat.
Proof.
  intros Hs H. destruct fuel as [|fuel]; [discriminate|]. simpl in H.
  unfold lift in H. destruct (readFieldBegin r) as [[f r1]|e] eqn:Ef; simpl in H;
    [|discriminate].
  destruct (readFieldBegin_effect _ _ _ _ _ Hs Ef) as (Hf & Ho & Hlt & [top1 Hs1] & _).
  assert (Hrem : (remaining r1 < remaining r)%nat).
  { destruct Hf as (Hb & _ & _). unfold remaining. rewrite Hb. lia. }
  destruct (ftype f =? TType.STOP); [inversion H; subst; exact Hrem|].
  destruct (skip fuel (ftype f) r1) as [[[] r2|e2]|] eqn:Es; simpl in H; try discriminate.
  destruct (proj1 (skip_restores_aux fuel) _ _ _ Es) as (Hf2 & Hs2 & _).
  destruct (proj2 (skip_restores_aux fuel) r2 r' top1 below) as (Hf3 & _);
    [congruence|exact H|].
  pose proof (follows_remaining _ _ Hf2). pose proof (follows_remaining _ _ Hf3). lia.
Qed.

(** A return of [skip] for a type other than STOP has read a byte or
    cleared the pending boolean. *)
Lemma skip_progress fuel type r r' :
  (type =? TType.STOP) = false ->
  skip fuel type r = Some (Normal tt r') -> (effort r' < effort r)%nat.
Proof.
  intros Hns H.
  pose proof (proj1 (skip_restores_aux fuel) _ _ _ H) as Hres.
  destruct fuel as [|fuel]; [discriminate|]. simpl in H. rewrite Hns in H.
  destruct ((type =? TType.BOOL) || (type =? TType.BOOL_TRUE) || (type =? TType.BOOL_FALSE)).
  { destruct (boolValue r) eqn:Eb.
    - inversion H; subst. unfold effort, remaining. simpl. rewrite Eb. lia.
    - inversion H as [H']. apply restores_progress; [exact Hres|].
      revert H'. apply lift_consumes.
      apply consumes_bind; [apply consumes_readByte|intros; apply advances_ret]. }
  apply restores_progress; [exact Hres|].
  destruct ((type =? TType.BYTE) || (type =? TType.I08)).
  { inversion H as [H']. revert H'. apply lift_consumes.
    apply consumes_bind; [apply consumes_readByte|intros; apply advances_ret]. }
  destruct (type =? TType.I16).
  { inversion H as [H']. revert H'. apply lift_consumes.
    apply consumes_bind; [|intros; apply advances_ret].
    apply consumes_bind; [apply consumes_readZigZag|intros; apply advances_ret]. }
  destruct (type =? TType.I32).
  { inversion H as [H']. revert H'. apply lift_consumes.
    apply consumes_bind; [|intros; apply advances_ret].
    apply consumes_bind; [apply consumes_readZigZag|intros; apply advances_ret]. }
  destruct (type =? TType.I64).
  { inversion H as [H']. revert H'. apply lift_consumes.
    apply consumes_bind; [apply consumes_readI64|intros; apply advances_ret]. }
  destruct (type =? TType.DOUBLE).
  { simpl in H. unfold readDouble in H.
    destruct (Z.gtb_spec (Z.of_nat (offset r) + 8) (len (buffer r))); inversion H; subst.
    unfold remaining, len in *. simpl. lia. }
  destruct (type =? TType.STRING).
  { inversion H as [H']. revert H'. apply lift_consumes.
    apply consumes_bind; [apply consumes_readBinary|intros; apply advances_ret]. }
  destruct (type =? TType.STRUCT).
  { unfold lift at 1 in H. simpl in H.
    destruct (skipFields fuel (setLastFieldId (0 :: lastFieldId r) r))
      as [[[] r2|e]|] eqn:E; simpl in H; try discriminate.
    inversion H; subst.
    pose proof (skipFields_consumes fuel (setLastFieldId (0 :: lastFieldId r) r) r2
                  0 (lastFieldId r) eq_refl E) as Hc.
    unfold remaining in *. simpl in *. exact Hc. }
  destruct ((type =? TType.LIST) || (type =? TType.SET)).
  { simpl in H. destruct (lift readListBegin r) as [h r1|e] eqn:E; simpl in H;
      [|discriminate].
    pose proof (lift_consumes _ _ _ _ consumes_readListBegin E) as Hc.
    apply forLoop_restores in H;
      [|intros r1' r2'; apply (proj1 (skip_restores_aux fuel))].
    pose proof (restores_remaining _ _ H). lia. }
  destruct (type =? TType.MAP); [|discriminate].
  simpl in H. destruct (lift readMapBegin r) as [h r1|e] eqn:E; simpl in H;
    [|discriminate].
  pose proof (lift_consumes _ _ _ _ consumes_readMapBegin E) as Hc.
  apply forLoop_restores in H.
  - pose proof (restores_remaining _ _ H). lia.
  - intros r1' r2' Hkv. cbv beta in Hkv.
    destruct (skip fuel (MapHeader.ktype h) r1') as [[[] rk|ek]|] eqn:Ek; simpl in Hkv;
      try discriminate.
    eapply restores_trans; eapply (proj1 (skip_restores_aux fuel)); eassumption.
Qed.

(** A loop without end whose body does not throw does not end. *)
Lemma repeatForever_idle fuel body : forall r,
  (forall r1 c1, body r1 = Some c1 -> exists r2, c1 = Normal tt r2) ->
  repeatForever fuel body r = None.
Proof.
  induction fuel as [|fuel IH]; intros r Hbody; simpl; [reflexivity|].
  destruct (body r) as [c1|] eqn:E; [|reflexivity].
  destruct (Hbody _ _ E) as [r2 ->]. simpl. apply IH. exact Hbody.
Qed.

(** The outcome of a loop does not depend on the fuel of its body, nor on
    its own, once they suffice. *)
Lemma repeatBody_agree n body body' bound : forall r c,
  (remaining r <= bound)%nat ->
  (forall r1 c1, (remaining r1 <= bound)%nat -> body r1 = Some c1 -> body' r1 = Some c1) ->
  (forall r1 r2, body r1 = Some (Normal tt r2) -> (remaining r2 <= remaining r1)%nat) ->
  repeatBody n body r = Some c -> repeatBody n body' r = Some c.
Proof.
  induction n as [|n IH]; intros r c Hr Hagree Hmono H; simpl in *; [exact H|].
  destruct (body r) as [[[] r1|e]|] eqn:E; simpl in H; try discriminate.
  - rewrite (Hagree _ _ Hr E). simpl. apply IH; try assumption.
    specialize (Hmono _ _ E). lia.
  - rewrite (Hagree _ _ Hr E). exact H.
Qed.

Lemma repeatForever_agree fuel body body' bound : forall r c fuel',
  (remaining r <= bound)%nat ->
  (forall r1 c1, (remaining r1 <= bound)%nat -> body r1 = Some c1 -> body' r1 = Some c1) ->
  (forall r1 r2, body r1 = Some (Normal tt r2) ->
     (remaining r2 <= remaining r1)%nat /\ (effort r2 < effort r1)%nat) ->
  (effort r < fuel')%nat ->
  repeatForever fuel body r = Some c -> repeatForever fuel' body' r = Some c.
Proof.
  induction fuel as [|fuel IH]; intros r c fuel' Hr Hagree Hstep Hfuel H; simpl in H;
    [discriminate|].
  destruct fuel' as [|fuel']; [lia|]. simpl.
  destruct (body r) as [[[] r1|e]|] eqn:E; simpl in H; try discriminate.
  - rewrite (Hagree _ _ Hr E). simpl. destruct (Hstep _ _ E) as [Hle Hlt].
    apply IH; try assumption; lia.
  - rewrite (Hagree _ _ Hr E). exact H.
Qed.

Lemma forLoop_agree fuel fuel' size body body' r c :
  (forall r1 c1, (remaining r1 <= remaining r)%nat ->
     body r1 = Some c1 -> body' r1 = Some c1) ->
  (forall r1 r2, body r1 = Some (Normal tt r2) -> (remaining r2 <= remaining r1)%nat) ->
  (forall r1 r2, body r1 = Some (Normal tt r2) -> (effort r2 < effort r1)%nat)
  \/ (forall r1 c1, body r1 = Some c1 -> exists r2, c1 = Normal tt r2) ->
  (effort r < fuel')%nat ->
  forLoop fuel size body r = Some c -> forLoop fuel' size body' r = Some c.
Proof.
  intros Hagree Hmono Hstep Hfuel H. unfold forLoop in *.
  destruct (size <=? 2 ^ 53 + 1).
  - eapply repeatBody_agree; try eassumption. lia.
  - destruct Hstep as [Hstep|Hidle].
    + eapply repeatForever_agree; try eassumption; [lia|].
      intros r1 r2 E. split; [eapply Hmono|eapply Hstep]; exact E.
    + rewrite repeatForever_idle in H by assumption. discriminate.
Qed.

(** The outcome of [skip] does not depend on the fuel: an outcome reached
    with some fuel is reached with every fuel of twice the bytes to be
    read, and two, or more. *)
Lemma skip_bounded_aux fuel :
  (forall type r c fuel',
     skip fuel type r = Some c -> (2 * remaining r + 2 <= fuel')%nat ->
     skip fuel' type r = Some c)
  /\ (forall r c fuel' top below,
        lastFieldId r = top :: below ->
        skipFields fuel r = Some c -> (2 * remaining r + 1 <= fuel')%nat ->
        skipFields fuel' r = Some c).
Proof.
  induction fuel as [|fuel [IHskip IHfields]]; [split; intros; discriminate|].
  assert (Hmono : forall t r1 r2, skip fuel t r1 = Some (Normal tt r2) ->
                                  (remaining r2 <= remaining r1)%nat).
  { intros t r1 r2 E. apply restores_remaining.
    exact (proj1 (skip_restores_aux fuel) _ _ _ E). }
  assert (Hidle : forall t r1 c1, (t =? TType.STOP) = true -> skip fuel t r1 = Some c1 ->
                                  exists r2, c1 = Normal tt r2).
  { intros t r1 c1 Et E. destruct fuel; [discriminate|]. simpl in E. rewrite Et in E.
    inversion E. eauto. }
  split.
  - intros type r c fuel' H Hfuel. destruct fuel' as [|fuel']; [lia|].
    simpl in H |- *.
    destruct (type =? TType.STOP); [exact H|].
    destruct ((type =? TType.BOOL) || (type =? TType.BOOL_TRUE) || (type =? TType.BOOL_FALSE));
      [exact H|].
    destruct ((type =? TType.BYTE) || (type =? TType.I08)); [exact H|].
    destruct (type =? TType.I16); [exact H|].
    destruct (type =? TType.I32); [exact H|].
    destruct (type =? TType.I64); [exact H|].
    destruct (type =? TType.DOUBLE); [exact H|].
    destruct (type =? TType.STRING); [exact H|].
    destruct (type =? TType.STRUCT).
    { unfold lift at 1 in H. unfold lift at 1. simpl in *.
      destruct (skipFields fuel (setLastFieldId (0 :: lastFieldId r) r))
        as [[[] r2|e2]|] eqn:E; simpl in H; try discriminate;
        rewrite (IHfields (setLastFieldId (0 :: lastFieldId r) r) _ fuel'
                   0 (lastFieldId r) eq_refl E)
          by (unfold remaining in *; simpl; lia);
        exact H. }
    destruct ((type =? TType.LIST) || (type =? TType.SET)).
    { simpl in *. destruct (lift readListBegin r) as [h r1|e1] eqn:E; simpl in *;
        [|exact H].
      pose proof (lift_consumes _ _ _ _ consumes_readListBegin E) as Hc.
      revert H. apply forLoop_agree.
      - intros r1' c1 Hr1' E1. apply (IHskip _ _ _ _ E1). lia.
      - apply Hmono.
      - destruct (ListHeader.etype h =? TType.STOP) eqn:Et.
        + right. intros r1' c1. apply Hidle. exact Et.
        + left. intros r1' r2'. apply skip_progress. exact Et.
      - unfold effort. destruct (boolValue r1); lia. }
    destruct (type =? TType.MAP); [|exact H].
    simpl in *. destruct (lift readMapBegin r) as [h r1|e1] eqn:E; simpl in *;
      [|exact H].
    pose proof (lift_consumes _ _ _ _ consumes_readMapBegin E) as Hc.
    revert H. apply forLoop_agree.
    + intros r1' c1 Hr1' Hkv. cbv beta in Hkv |- *.
      destruct (skip fuel (MapHeader.ktype h) r1') as [[[] rk|ek]|] eqn:Ek;
        simpl in Hkv; try discriminate;
        rewrite (IHskip _ _ _ fuel' Ek) by lia; simpl.
      * pose proof (Hmono _ _ _ Ek). apply (IHskip _ _ _ _ Hkv). lia.
      * exact Hkv.
    + intros r1' r2' Hkv. cbv beta in Hkv.
      destruct (skip fuel (MapHeader.ktype h) r1') as [[[] rk|ek]|] eqn:Ek;
        simpl in Hkv; try discriminate.
      pose proof (Hmono _ _ _ Ek). pose proof (Hmono _ _ _ Hkv). lia.
    + destruct (MapHeader.ktype h =? TType.STOP) eqn:Etk;
        [destruct (MapHeader.vtype h =? TType.STOP) eqn:Etv|].
      * right. intros r1' c1 Hkv. cbv beta in Hkv.
        destruct (skip fuel (MapHeader.ktype h) r1') as [[[] rk|ek]|] eqn:Ek;
          simpl in Hkv; try discriminate.
        -- eapply Hidle; eassumption.
        -- destruct (Hidle _ _ _ Etk Ek). discriminate.
      * left. intros r1' r2' Hkv. cbv beta in Hkv.
        destruct (skip fuel (MapHeader.ktype h) r1') as [[[] rk|ek]|] eqn:Ek;
          simpl in Hkv; try discriminate.
        pose proof (restores_effort _ _ (proj1 (skip_restores_aux fuel) _ _ _ Ek)).
        pose proof (skip_progress _ _ _ _ Etv Hkv). lia.
      * left. intros r1' r2' Hkv. cbv beta in Hkv.
        destruct (skip fuel (MapHeader.ktype h) r1') as [[[] rk|ek]|] eqn:Ek;
          simpl in Hkv; try discriminate.
        pose proof (skip_progress _ _ _ _ Etk Ek).
        pose proof (restores_effort _ _ (proj1 (skip_restores_aux fuel) _ _ _ Hkv)). lia.
    + unfold effort. destruct (boolValue r1); lia.
  - intros r c fuel' top below Hs H Hfuel. destruct fuel' as [|fuel']; [lia|].
    simpl in H |- *.
    unfold lift in *. destruct (readFieldBegin r) as [[f r1]|e1] eqn:Ef; simpl in *;
      [|exact H].
    destruct (readFieldBegin_effect _ _ _ _ _ Hs Ef) as (Hf & Ho & Hlt & [top1 Hs1] & _).
    assert (Hrem : (remaining r1 < remaining r)%nat).
    { destruct Hf as (Hb & _ & _). unfold remaining. rewrite Hb. lia. }
    destruct (ftype f =? TType.STOP); [exact H|].
    destruct (skip fuel (ftype f) r1) as [[[] r2|e2]|] eqn:Es; simpl in H;
      try discriminate; rewrite (IHskip _ _ _ fuel' Es) by lia; simpl.
    + destruct (proj1 (skip_restores_aux fuel) _ _ _ Es) as (Hf2 & Hs2 & _).
      pose proof (follows_remaining _ _ Hf2).
      apply (IHfields r2 c fuel' top1 below); [congruence|exact H|lia].
    + exact H.
Qed.

Lemma announcesHuge_follows r r1 : follows r r1 -> announcesHuge r1 -> announcesHuge r.
Proof.
  intros Hf (r2 & Hf2 & H). exists r2. split; [eapply follows_trans; eassumption|exact H].
Qed.

Lemma repeatBody_none n body : forall r,
  (forall r1 r2, body r1 = Some (Normal tt r2) -> follows r1 r2) ->
  repeatBody n body r = None -> exists r1, follows r r1 /\ body r1 = None.
Proof.
  induction n as [|n IH]; intros r Hbody H; simpl in H; [discriminate|].
  destruct (body r) as [[[] r1|e]|] eqn:E; simpl in H; try discriminate.
  - destruct (IH _ Hbody H) as (r2 & Hf & Hn). exists r2.
    split; [eapply follows_trans; [eapply Hbody; exact E|exact Hf]|exact Hn].
  - exists r. split; [apply follows_refl|exact E].
Qed.

(** With a fuel of twice the bytes to be read, and two, [skip] does not
    end only where a loop does not: at a header that announces more than
    [2^53 + 1] entries. *)
Lemma skip_stalls_aux fuel :
  (forall type r, (2 * remaining r + 2 <= fuel)%nat ->
     skip fuel type r = None -> announcesHuge r)
  /\ (forall r top below,
        lastFieldId r = top :: below ->
        (2 * remaining r + 1 <= fuel)%nat -> skipFields fuel r = None -> announcesHuge r).
Proof.
  induction fuel as [|fuel [IHskip IHfields]]; [split; intros; lia|].
  assert (Hfollows : forall t r1 r2, skip fuel t r1 = Some (Normal tt r2) -> follows r1 r2).
  { intros t r1 r2 E. exact (proj1 (proj1 (skip_restores_aux fuel) _ _ _ E)). }
  split.
  - intros type r Hfuel H. simpl in H.
    destruct (type =? TType.STOP); [discriminate|].
    destruct ((type =? TType.BOOL) || (type =? TType.BOOL_TRUE) || (type =? TType.BOOL_FALSE));
      [destruct (boolValue r); discriminate|].
    destruct ((type =? TType.BYTE) || (type =? TType.I08)); [discriminate|].
    destruct (type =? TType.I16); [discriminate|].
    destruct (type =? TType.I32); [discriminate|].
    destruct (type =? TType.I64); [discriminate|].
    destruct (type =? TType.DOUBLE); [destruct (readDouble r); discriminate|].
    destruct (type =? TType.STRING); [discriminate|].
    destruct (type =? TType.STRUCT).
    { unfold lift at 1 in H. simpl in H.
      destruct (skipFields fuel (setLastFieldId (0 :: lastFieldId r) r))
        as [[[] r2|e2]|] eqn:E; simpl in H; try discriminate.
      apply (announcesHuge_follows r (setLastFieldId (0 :: lastFieldId r) r)).
      - unfold follows. simpl. auto.
      - apply (IHfields _ 0 (lastFieldId r)); [reflexivity| |exact E].
        unfold remaining in *. simpl. lia. }
    destruct ((type =? TType.LIST) || (type =? TType.SET)).
    { simpl in H. unfold lift in H.
      destruct (readListBegin r) as [[h r1]|e1] eqn:E; simpl in H; [|discriminate].
      pose proof (consumes_readListBegin _ _ _ E) as Hc.
      pose proof (advances_readListBegin _ _ _ E) as Hf.
      unfold forLoop in H. destruct (Z.leb_spec (ListHeader.size h) (2 ^ 53 + 1)).
      - apply repeatBody_none in H; [|apply Hfollows].
        destruct H as (r1' & Hf1 & Hn). pose proof (follows_remaining _ _ Hf1).
        apply (announcesHuge_follows r r1'); [eapply follows_trans; eassumption|].
        apply (IHskip _ _) in Hn; [exact Hn|lia].
      - exists r. split; [apply follows_refl|]. left. exists h, r1. auto. }
    destruct (type =? TType.MAP); [|discriminate].
    simpl in H. unfold lift in H.
    destruct (readMapBegin r) as [[h r1]|e1] eqn:E; simpl in H; [|discriminate].
    pose proof (consumes_readMapBegin _ _ _ E) as Hc.
    pose proof (advances_readMapBegin _ _ _ E) as Hf.
    unfold forLoop in H. destruct (Z.leb_spec (MapHeader.size h) (2 ^ 53 + 1)).
    + apply repeatBody_none in H.
      * destruct H as (r1' & Hf1 & Hn). pose proof (follows_remaining _ _ Hf1).
        cbv beta in Hn.
        destruct (skip fuel (MapHeader.ktype h) r1') as [[[] rk|ek]|] eqn:Ek;
          simpl in Hn; try discriminate.
        -- pose proof (Hfollows _ _ _ Ek) as Hfk. pose proof (follows_remaining _ _ Hfk).
           apply (announcesHuge_follows r rk);
             [eapply follows_trans; [exact Hf|eapply follows_trans; eassumption]|].
           apply (IHskip _ _) in Hn; [exact Hn|lia].
        -- apply (announcesHuge_follows r r1'); [eapply follows_trans; eassumption|].
           apply (IHskip _ _) in Ek; [exact Ek|lia].
      * intros r1' r2' Hkv. cbv beta in Hkv.
        destruct (skip fuel (MapHeader.ktype h) r1') as [[[] rk|ek]|] eqn:Ek;
          simpl in Hkv; try discriminate.
        eapply follows_trans; eapply Hfollows; eassumption.
    + exists r. split; [apply follows_refl|]. right. exists h, r1. auto.
  - intros r top below Hs Hfuel H. simpl in H.
    unfold lift in H. destruct (readFieldBegin r) as [[f r1]|e1] eqn:Ef; simpl in H;
      [|discriminate].
    destruct (readFieldBegin_effect _ _ _ _ _ Hs Ef) as (Hf & Ho & Hlt & [top1 Hs1] & _).
    assert (Hrem : (remaining r1 < remaining r)%nat).
    { destruct Hf as (Hb & _ & _). unfold remaining. rewrite Hb. lia. }
    destruct (ftype f =? TType.STOP); [discriminate|].
    destruct (skip fuel (ftype f) r1) as [[[] r2|e2]|] eqn:Es; simpl in H;
      try discriminate.
    + destruct (proj1 (skip_restores_aux fuel) _ _ _ Es) as (Hf2 & Hs2 & _).
      pose proof (follows_remaining _ _ Hf2).
      apply (announcesHuge_follows r r2); [eapply follows_trans; eassumption|].
      apply (IHfields r2 top1 below); [congruence|lia|exact H].
    + apply (announcesHuge_follows r r1 Hf). apply (IHskip _ _) in Es; [exact Es|lia].
Qed.

(** X5.  A call of [skip] returns or throws, whatever the type and the
    reader, unless a loop over the entries of a list, set or map does not
    end.  With a fuel of [skipFuel r] (twice the bytes left, and two) or
    more the outcome is there and is the same; or there is none, with any
    fuel, and then a header at or after the cursor announces more than
    [2^53 + 1] entries, a number the loop counter, a double, does not
    reach.  The latter happens: on the nine bytes F0 82 80 80 80 80 80 80
    10, a list of [2^53 + 2] entries of type STOP, which take no bytes,
    [skip] does not return. *)
Theorem skip_outcome (type : Z) (r : Reader) :
  ((exists c, forall fuel, (skipFuel r <= fuel)%nat -> skip fuel type r = Some c)
   \/ ((forall fuel, skip fuel type r = None) /\ announcesHuge r))
  /\ (forall fuel,
        skip fuel TType.LIST (newReader [xf0; x82; x80; x80; x80; x80; x80; x80; x10])
        = None).
Proof.
  assert (Hbounded : forall t r0 fuel c, skip fuel t r0 = Some c ->
                                         skip (skipFuel r0) t r0 = Some c).
  { intros t r0 fuel c H. apply (proj1 (skip_bounded_aux fuel) _ _ _ _ H).
    unfold skipFuel. lia. }
  split.
  - destruct (skip (skipFuel r) type r) as [c|] eqn:E.
    + left. exists c. intros fuel Hle.
      apply (proj1 (skip_bounded_aux (skipFuel r)) _ _ _ _ E). exact Hle.
    + right. split.
      * intros fuel. destruct (skip fuel type r) as [c|] eqn:Ef; [|reflexivity].
        rewrite (Hbounded _ _ _ _ Ef) in E. discriminate.
      * apply (proj1 (skip_stalls_aux (skipFuel r)) type r); [unfold skipFuel; lia|exact E].
  - intros fuel.
    destruct (skip fuel TType.LIST
                (newReader [xf0; x82; x80; x80; x80; x80; x80; x80; x10])) as [c|] eqn:Ef;
      [|reflexivity].
    apply Hbounded in Ef. vm_compute in Ef. discriminate.
Qed.

(** X6.  When [skip] returns, the buffer is as it was, the cursor is where it
    was or further and within the buffer if it was, the stack of last field
    ids is as before the call (so the field-id deltas of the enclosing
    struct go on from the right id), and no boolean is left pending unless
    one was before. *)
Theorem skip_restores_reader (fuel : nat) (type : Z) (r r' : Reader) :
  skip fuel type r = Some (Normal tt r') -> restores r r'.
Proof. apply (proj1 (skip_restores_aux fuel)). Qed.

(** X7.  [skip] throws only the buffer underflows of the read methods and
    'Unknown type to skip' for a type that has no case, which are the types
    outside 0..12; and it throws the latter for each such type, so a struct
    whose first field has a one-byte header with type nibble 13, 14 or 15
    cannot be skipped. *)
Theorem skip_failures (fuel : nat) (type : Z) (r : Reader) :
  (forall e, skip fuel type r = Some (Abrupt e) -> skipFailure e = true)
  /\ (knownType type = false ->
      skip (S fuel) type r = Some (Abrupt (UnknownTypeToSkip type)))
  /\ (forall b, nth_error (buffer r) (offset r) = Some b ->
      13 <= u8 b mod 16 -> u8 b / 16 <> 0 ->
      skip (S (S (S fuel))) TType.STRUCT r
      = Some (Abrupt (UnknownTypeToSkip (u8 b mod 16)))).
Proof.
  split; [intros e; apply (proj1 (skip_failures_aux fuel))|].
  assert (Hunknown : forall fuel' t r1, knownType t = false ->
            skip (S fuel') t r1 = Some (Abrupt (UnknownTypeToSkip t))).
  { intros fuel' t r1 Hk. unfold knownType in Hk. simpl.
    unfold TType.STOP, TType.BOOL, TType.BOOL_TRUE, TType.BOOL_FALSE, TType.BYTE,
      TType.I08, TType.I16, TType.I32, TType.I64, TType.DOUBLE, TType.STRING,
      TType.STRUCT, TType.LIST, TType.SET, TType.MAP.
    assert (Hr : t < 0 \/ 12 < t).
    { destruct (Z.leb_spec 0 t); [|lia]. destruct (Z.leb_spec t 12); [discriminate|lia]. }
    repeat match goal with
    | |- context [?a =? ?b] => destruct (Z.eqb_spec a b); [lia|]
    end. reflexivity. }
  split; [apply Hunknown|].
  intros b Hb Hty Hd.
  assert (Hm : u8 b mod 16 < 16) by (apply Z.mod_pos_bound; lia).
  assert (Hc : compactTypeToThriftType (u8 b mod 16) = u8 b mod 16).
  { unfold compactTypeToThriftType, COMPACT_TYPES.STOP, COMPACT_TYPES.BOOL_TRUE,
      COMPACT_TYPES.BOOL_FALSE, COMPACT_TYPES.BYTE, COMPACT_TYPES.I16, COMPACT_TYPES.I32,
      COMPACT_TYPES.I64, COMPACT_TYPES.DOUBLE, COMPACT_TYPES.BINARY, COMPACT_TYPES.LIST,
      COMPACT_TYPES.SET, COMPACT_TYPES.MAP, COMPACT_TYPES.STRUCT.
    repeat match goal with
    | |- context [?a =? ?b] => destruct (Z.eqb_spec a b); [lia|]
    end. reflexivity. }
  set (r1 := setLastFieldId (0 :: lastFieldId r) r).
  assert (Hfields : skipFields (S (S fuel)) r1
                    = Some (Abrupt (UnknownTypeToSkip (u8 b mod 16)))).
  { change (skipFields (S (S fuel)) r1) with
      (andThen (Some (lift readFieldBegin r1)) (fun field r2 =>
       if ftype field =? TType.STOP then Some (Normal tt r2)
       else
         andThen (skip (S fuel) (ftype field) r2) (fun _ r3 =>
         skipFields (S fuel) r3))).
    unfold lift.
    rewrite (readFieldBegin_short r1 b 0 (lastFieldId r) Hb eq_refl Hd).
    unfold andThen at 1. simpl ftype. rewrite Hc.
    destruct (Z.eqb_spec (u8 b mod 16) TType.STOP) as [E|_];
      [unfold TType.STOP in E; lia|].
    rewrite Hunknown; [reflexivity|].
    unfold knownType. destruct (Z.leb_spec (u8 b mod 16) 12); [lia|].
    apply andb_false_r. }
  change (skip (S (S (S fuel))) TType.STRUCT r) with
    (andThen (skipFields (S (S fuel)) r1) (fun _ r2 => Some (lift readStructEnd r2))).
  rewrite Hfields. reflexivity.
Qed.

(** X8.  The header of a list or set is one byte, whose high nibble is the size
    and whose low nibble the element type, unless the high nibble is 15:
    then the size follows as a varint.  The header of a map is the size as
    a varint and, unless the size is zero, one byte with the key type in
    the high and the value type in the low nibble: an empty map is the one
    byte 0 and reports the types as STOP.  Sizes are never negative. *)
Theorem container_headers (r : Reader) :
  match nth_error (buffer r) (offset r) with
  | None => readListBegin r = Throw BufferUnderflow
  | Some b =>
      let etype := compactTypeToThriftType (u8 b mod 16) in
      if u8 b / 16 =? 15 then
        readListBegin r
        = match readVarint (setOffset (S (offset r)) r) with
          | Ok (n, r1) => Ok (ListHeader.mk etype n, r1)
          | Throw e => Throw e
          end
      else readListBegin r = Ok (ListHeader.mk etype (u8 b / 16), setOffset (S (offset r)) r)
  end
  /\ readSetBegin r = readListBegin r
  /\ match readVarint r with
     | Throw e => readMapBegin r = Throw e
     | Ok (n, r1) =>
         if n =? 0 then readMapBegin r = Ok (MapHeader.mk TType.STOP TType.STOP 0, r1)
         else
           match nth_error (buffer r1) (offset r1) with
           | None => readMapBegin r = Throw BufferUnderflow
           | Some b =>
               readMapBegin r
               = Ok (MapHeader.mk (compactTypeToThriftType (u8 b / 16))
                                  (compactTypeToThriftType (u8 b mod 16)) n,
                     setOffset (S (offset r1)) r1)
           end
     end
  /\ (forall h r', readListBegin r = Ok (h, r') -> 0 <= ListHeader.size h)
  /\ (forall h r', readMapBegin r = Ok (h, r') -> 0 <= MapHeader.size h).
Proof.
  assert (Hlist :
    match nth_error (buffer r) (offset r) with
    | None => readListBegin r = Throw BufferUnderflow
    | Some b =>
        let etype := compactTypeToThriftType (u8 b mod 16) in
        if u8 b / 16 =? 15 then
          readListBegin r
          = match readVarint (setOffset (S (offset r)) r) with
            | Ok (n, r1) => Ok (ListHeader.mk etype n, r1)
            | Throw e => Throw e
            end
        else readListBegin r
             = Ok (ListHeader.mk etype (u8 b / 16), setOffset (S (offset r)) r)
    end).
  { destruct (nth_error (buffer r) (offset r)) as [b|] eqn:E.
    - unfold readListBegin, bind. rewrite (readByte_at _ _ E).
      destruct (nibbles b) as [-> ->]. cbv zeta.
      destruct (u8 b / 16 =? 15); [|reflexivity].
      destruct (readVarint (setOffset (S (offset r)) r)) as [[n r1]|e]; reflexivity.
    - apply nth_error_None in E. unfold readListBegin, bind, readByte.
      destruct (Nat.leb_spec (List.length (buffer r)) (offset r)); [reflexivity|lia]. }
  assert (Hmap :
    match readVarint r with
    | Throw e => readMapBegin r = Throw e
    | Ok (n, r1) =>
        if n =? 0 then readMapBegin r = Ok (MapHeader.mk TType.STOP TType.STOP 0, r1)
        else
          match nth_error (buffer r1) (offset r1) with
          | None => readMapBegin r = Throw BufferUnderflow
          | Some b =>
              readMapBegin r
              = Ok (MapHeader.mk (compactTypeToThriftType (u8 b / 16))
                                 (compactTypeToThriftType (u8 b mod 16)) n,
                    setOffset (S (offset r1)) r1)
          end
    end).
  { unfold readMapBegin, bind. destruct (readVarint r) as [[n r1]|e]; [|reflexivity].
    unfold Number. destruct (n =? 0); [reflexivity|].
    destruct (nth_error (buffer r1) (offset r1)) as [b|] eqn:E.
    - rewrite (readByte_at _ _ E). destruct (nibbles b) as [-> ->]. reflexivity.
    - apply nth_error_None in E. unfold readByte.
      destruct (Nat.leb_spec (List.length (buffer r1)) (offset r1)); [reflexivity|lia]. }
  split; [exact Hlist|]. split; [reflexivity|]. split; [exact Hmap|]. split.
  - intros h r' H. destruct (nth_error (buffer r) (offset r)) as [b|]; [|congruence].
    cbv zeta in Hlist. pose proof (u8_range b) as Hb.
    destruct (u8 b / 16 =? 15).
    + rewrite Hlist in H.
      destruct (readVarint (setOffset (S (offset r)) r)) as [[n r1]|e] eqn:Ev;
        [|discriminate].
      apply readVarint_ok in Ev. inversion H; subst. simpl. tauto.
    + rewrite Hlist in H. inversion H; subst. simpl. apply Z.div_pos; lia.
  - intros h r' H. destruct (readVarint r) as [[n r1]|e] eqn:Ev; [|congruence].
    apply readVarint_ok in Ev. destruct Ev as [Hn _].
    destruct (n =? 0).
    + rewrite Hmap in H. inversion H; subst. simpl. lia.
    + destruct (nth_error (buffer r1) (offset r1)); [|congruence].
      rewrite Hmap in H. inversion H; subst. simpl. exact Hn.
Qed.

(** X25.  A binary value written as the base-128 encoding of its length and
    then its bytes is read back by [readBinary], which moves the cursor past
    it, whatever follows. *)
Theorem readBinary_roundtrip (payload rest : list byte) (r : Reader) :
  skipn (offset r) (buffer r) = (encodeVarint (len payload) ++ payload ++ rest)%list ->
  readBinary r
  = Ok (payload,
        setOffset (offset r + List.length (encodeVarint (len payload))
                   + List.length payload) r).
Proof.
  intros Hbytes.
  set (k := List.length (encodeVarint (len payload))).
  assert (Hv : readVarint r = Ok (len payload, setOffset (offset r + k) r)).
  { unfold readVarint. rewrite Hbytes. unfold encodeVarint.
    rewrite readVarint_loop_encode;
      [|split; [apply len_nonneg|apply encodeVarint_enough; apply len_nonneg]
       |lia|simpl; lia].
    rewrite Z.pow_0_r, Z.mul_1_r. reflexivity. }
  assert (Hlen : (offset r + k + List.length payload + List.length rest
                  = List.length (buffer r))%nat).
  { pose proof (f_equal (@List.length byte) Hbytes) as H.
    rewrite length_skipn, !length_app in H. fold k in H.
    pose proof (encodeVarint_groups_length (Z.to_nat (Z.log2 (len payload))) (len payload)).
    unfold encodeVarint in k. lia. }
  assert (Hrest : skipn (offset r + k) (buffer r) = (payload ++ rest)%list).
  { rewrite Nat.add_comm, <- skipn_skipn, Hbytes. unfold k.
    rewrite skipn_app, skipn_all, Nat.sub_diag. reflexivity. }
  unfold readBinary, bind. rewrite Hv. unfold Number. simpl offset. simpl buffer.
  destruct (Z.ltb_spec (len payload) 0) as [Hneg|_];
    [pose proof (len_nonneg payload); lia|].
  unfold len in *.
  destruct (Z.gtb_spec (Z.of_nat (offset r + k) + Z.of_nat (List.length payload))
              (Z.of_nat (List.length (buffer r)))) as [Hgt|_]; [lia|].
  rewrite slice_range by lia.
  replace (Z.to_nat (Z.of_nat (offset r + k) + Z.of_nat (List.length payload)
                     - Z.of_nat (offset r + k))) with (List.length payload) by lia.
  rewrite Nat2Z.id, Hrest, firstn_app, firstn_all, Nat.sub_diag. simpl firstn.
  rewrite app_nil_r. unfold setOffset. simpl.
  replace (Z.to_nat (Z.of_nat (offset r + k) + Z.of_nat (List.length payload)))
    with (offset r + k + List.length payload)%nat by lia.
  reflexivity.
Qed.

End ReaderExtras.


(** The encoding of 300 is the two bytes AC 02. *)
Lemma readVarint_roundtrip_witness :
  Thrift.encodeVarint 300 = [xac; x02]
  /\ Thrift.readVarint (Thrift.mkReader [x00; xac; x02; xff] 1 [0] None)
     = Ok (300, Thrift.mkReader [x00; xac; x02; xff] 3 [0] None).
Proof.
  split; [reflexivity|].
  refine (proj1 (readVarint_roundtrip 300 (Thrift.mkReader [x00; xac; x02; xff] 1 [0] None)
                   [xff] _ eq_refl)).
  lia.
Defined.


(** At the example struct: [skip] moves the cursor over its seven bytes and
    leaves the reader as a fresh one otherwise. *)
Lemma skip_restores_reader_witness :
  Thrift.skip 6 Thrift.TType.STRUCT (Thrift.newReader Examples.exampleStruct)
    = Some (Thrift.Normal tt (Thrift.mkReader Examples.exampleStruct 7 [0] None))
  /\ Thrift.restores (Thrift.newReader Examples.exampleStruct)
       (Thrift.mkReader Examples.exampleStruct 7 [0] None).
Proof.
  split; [reflexivity|].
  apply (skip_restores_reader 6 Thrift.TType.STRUCT). reflexivity.
Defined.

(** A struct whose first field has the type nibble 13, and one that ends
    after the header of an i32 field. *)
Lemma skip_failures_witness :
  Thrift.skip 3 Thrift.TType.STRUCT (Thrift.newReader [x1d])
    = Some (Thrift.Abrupt (Thrift.UnknownTypeToSkip 13))
  /\ Thrift.skip 3 Thrift.TType.STRUCT (Thrift.newReader [x15])
     = Some (Thrift.Abrupt (Thrift.Raised BufferUnderflowReadingVarint))
  /\ Thrift.skipFailure (Thrift.Raised BufferUnderflowReadingVarint) = true.
Proof.
  split; [|split; [reflexivity|]].
  - apply (proj2 (proj2 (skip_failures 0 Thrift.TType.STRUCT (Thrift.newReader [x1d]))) x1d);
      [reflexivity|vm_compute; discriminate|vm_compute; discriminate].
  - apply (proj1 (skip_failures 3 Thrift.TType.STRUCT (Thrift.newReader [x15]))).
    reflexivity.
Defined.

(** The binary value of the one byte 41, after another byte. *)
Lemma readBinary_roundtrip_witness :
  Thrift.readBinary (Thrift.mkReader [x00; x01; x41; xff] 1 [0] None)
  = Ok ([x41], Thrift.mkReader [x00; x01; x41; xff] 3 [0] None).
Proof.
  exact (readBinary_roundtrip [x41] [xff] (Thrift.mkReader [x00; x01; x41; xff] 1 [0] None)
           eq_refl).
Defined.

(** The zig-zag code of -3 is 5, one byte. *)
Lemma readZigZag_roundtrip_witness :
  Thrift.readZigZag (Thrift.mkReader [x05] 0 [0] None)
  = Ok (-3, Thrift.mkReader [x05] 1 [0] None)
  /\ Thrift.readI32 (Thrift.mkReader [x05] 0 [0] None)
     = Ok (-3, Thrift.mkReader [x05] 1 [0] None).
Proof.
  destruct (readZigZag_roundtrip (-3) (Thrift.mkReader [x05] 0 [0] None) [] eq_refl)
    as (Hz & Hsafe & _).
  split; [exact Hz|].
  destruct Hsafe as (_ & H32 & _); [|exact H32].
  split; vm_compute; discriminate.
Defined.

(* ================================================================== *)
(** * Further properties of the parser (src/parquetParser.js) *)

Section ParserExtras.

Import Parser.

(** X9.  [bytesEqual] decides the equality of two byte arrays: it is true
    exactly when they have the same length and the same byte at every
    index, whichever of the two is given first. *)
Theorem bytesEqual_decides (a b : list byte) :
  (bytesEqual a b = true <-> a = b)
  /\ (bytesEqual a b = false <-> a <> b)
  /\ bytesEqual a b = bytesEqual b a.
Proof.
  assert (Hf : forall x y, bytesEqual x y = false <-> x <> y).
  { intros x y. split.
    - intros H E. apply bytesEqual_eq in E. congruence.
    - intros H. destruct (bytesEqual x y) eqn:E; [|reflexivity].
      apply bytesEqual_eq in E. contradiction. }
  split; [apply bytesEqual_eq|]. split; [apply Hf|].
  destruct (bytesEqual b a) eqn:E.
  - apply bytesEqual_eq in E. subst. apply bytesEqual_eq. reflexivity.
  - apply Hf. apply Hf in E. congruence.
Qed.

(** The span of a batch under construction is at most the bytes of its
    requests and one tolerance per request that joined. *)
Lemma absorb_span gap rs : forall cur,
  0 <= gap -> (forall r, In r rs -> 0 <= length r) ->
  end_ cur - start cur
    <= totalLength (requests cur) + gap * (Z.of_nat (List.length (requests cur)) - 1) ->
  Forall (fun b => end_ b - start b
                   <= totalLength (requests b)
                      + gap * (Z.of_nat (List.length (requests b)) - 1))
         (absorb gap cur rs).
Proof.
  assert (Happ : forall l r, totalLength (l ++ [r]) = totalLength l + length r).
  { induction l as [|x l IH]; intros r; simpl; [lia|]. rewrite IH. lia. }
  induction rs as [|r rs IH]; intros cur Hgap Hlen Hcur; simpl.
  - constructor; [exact Hcur|constructor].
  - assert (Hr : 0 <= length r) by (apply Hlen; left; reflexivity).
    assert (Hlen' : forall x, In x rs -> 0 <= length x)
      by (intros; apply Hlen; right; assumption).
    destruct (Z.leb_spec (offset r) (end_ cur + gap)).
    + apply IH; [assumption|assumption|]. simpl.
      rewrite Happ, length_app. simpl List.length. nia.
    + constructor; [exact Hcur|]. apply IH; [assumption|assumption|]. simpl. lia.
Qed.


Lemma precedes_chain gap (bs : list Batch) :
  0 <= gap -> Forall (fun b => start b <= end_ b) bs ->
  Forall (fun b => exists first, hd_error (requests b) = Some first
                                 /\ start b = offset first) bs ->
  gapsBetween gap bs -> StronglySorted (precedes gap) bs.
Proof.
  intros Hgap. induction bs as [|b1 bs IH]; intros Hse Hfirst Hg; [constructor|].
  inversion Hse as [|? ? Hb1 Hse']; subst. inversion Hfirst as [|? ? _ Hfirst']; subst.
  destruct bs as [|b2 bs]; [constructor; constructor|].
  simpl in Hg. destruct Hg as [(first & Hhd & Hlt) Hg'].
  specialize (IH Hse' Hfirst' Hg').
  constructor; [exact IH|].
  inversion Hfirst' as [|? ? (first' & Hhd' & Hst) _]; subst.
  assert (H12 : precedes gap b1 b2) by (unfold precedes; congruence).
  constructor; [exact H12|].
  apply StronglySorted_inv in IH. destruct IH as [_ Hall].
  inversion Hse' as [|? ? Hb2 _]; subst.
  eapply Forall_impl; [|exact Hall]. unfold precedes in *. intros b Hb. lia.
Qed.

(** X11.  The batches lie one after the other in the file, each more than
    the tolerance behind the end of the one before: no two reads of index
    data overlap, and no index byte is fetched twice. *)
Theorem batches_separated (gap : Z) (readRequests : list ReadRequest) :
  0 <= gap ->
  (forall r, In r readRequests -> 0 <= length r) ->
  StronglySorted (precedes gap) (batchRequests gap (sortByOffset readRequests))
  /\ Forall (fun b => start b <= end_ b) (batchRequests gap (sortByOffset readRequests)).
Proof.
  intros Hgap Hlen.
  set (sorted := sortByOffset readRequests).
  assert (Hlen' : forall r, In r sorted -> 0 <= length r).
  { intros r Hr. apply Hlen. eapply Permutation_in; [apply sortByOffset_perm|exact Hr]. }
  assert (Hgreedy : Forall (greedyBatch gap) (batchRequests gap sorted)).
  { rewrite batchRequests_absorb. destruct sorted; [constructor|].
    apply absorb_greedy, greedyBatch_new. }
  assert (Hcov : Forall covers (batchRequests gap sorted))
    by (apply batchRequests_covers; [exact Hlen'|apply sortByOffset_sorted]).
  assert (Hmem : forall b x, In b (batchRequests gap sorted) -> In x (requests b) ->
                   In x sorted).
  { intros b x Hb Hx. rewrite <- (batchRequests_concat gap sorted). apply in_concat.
    exists (requests b). split; [apply in_map; exact Hb|exact Hx]. }
  assert (Hse : Forall (fun b => start b <= end_ b) (batchRequests gap sorted)).
  { apply Forall_forall. intros b Hb.
    rewrite Forall_forall in Hgreedy, Hcov. specialize (Hgreedy b Hb).
    unfold greedyBatch in Hgreedy.
    destruct (requests b) as [|first rest] eqn:E; [contradiction|].
    assert (Hin : In first (requests b)) by (rewrite E; left; reflexivity).
    destruct (Hcov b Hb first Hin). specialize (Hlen' first (Hmem b first Hb Hin)). lia. }
  split; [|exact Hse].
  apply precedes_chain; [exact Hgap|exact Hse| |].
  - eapply Forall_impl; [|exact Hgreedy]. intros b Hb. unfold greedyBatch in Hb.
    destruct (requests b) as [|first rest]; [contradiction|].
    exists first. split; [reflexivity|tauto].
  - rewrite batchRequests_absorb. destruct sorted; [exact I|]. apply absorb_gaps.
Qed.

Lemma length_absorb gap rs : forall cur,
  (List.length (absorb gap cur rs) <= S (List.length rs))%nat.
Proof.
  induction rs as [|r rs IH]; intros cur; simpl; [lia|].
  destruct (offset r <=? end_ cur + gap); [specialize (IH (extendBatch cur r))|
    specialize (IH (newBatch r))]; simpl; lia.
Qed.

Lemma length_batchRequests gap rs :
  (List.length (batchRequests gap rs) <= List.length rs)%nat.
Proof.
  rewrite batchRequests_absorb. destruct rs as [|r rs]; [simpl; lia|].
  apply length_absorb.
Qed.

Lemma length_columnRequests rg col cc : (List.length (columnRequests rg col cc) <= 2)%nat.
Proof.
  unfold columnRequests. rewrite length_app.
  destruct (truthy _ && truthy _), (truthy _ && truthy _); simpl; lia.
Qed.

Lemma length_collectColumns rg cols : forall col,
  (List.length (collectColumns rg col cols) <= 2 * List.length cols)%nat.
Proof.
  induction cols as [|c cols IH]; intros col; simpl; [lia|].
  rewrite length_app. pose proof (length_columnRequests rg col c). specialize (IH (S col)).
  lia.
Qed.

Lemma length_collectRowGroups rgs : forall rg,
  (List.length (collectRowGroups rg rgs)
   <= 2 * fold_right (fun rowGroup acc => List.length (columns rowGroup) + acc) 0 rgs)%nat.
Proof.
  induction rgs as [|g rgs IH]; intros rg; simpl; [lia|].
  rewrite length_app. pose proof (length_collectColumns rg (columns g) 0).
  specialize (IH (S rg)). lia.
Qed.

Context {ColumnIndex OffsetIndex : Type}.
Variable FileMetaData_read : Thrift.Reader -> FileMetaData * option Exn.
Variable ColumnIndex_read : Thrift.Reader -> ColumnIndex * option Exn.
Variable OffsetIndex_read : Thrift.Reader -> OffsetIndex * option Exn.

Local Abbreviation parseParquetFileStreaming :=
  (parseParquetFileStreaming FileMetaData_read ColumnIndex_read OffsetIndex_read).
Local Abbreviation parseParquetFile :=
  (parseParquetFile FileMetaData_read ColumnIndex_read OffsetIndex_read).
Local Abbreviation parsePageIndexes := (parsePageIndexes ColumnIndex_read OffsetIndex_read).
Local Abbreviation parseColumnChunk := (parseColumnChunk ColumnIndex_read OffsetIndex_read).
Local Abbreviation parsePageIndexesStreaming :=
  (parsePageIndexesStreaming ColumnIndex_read OffsetIndex_read).
Local Abbreviation readBatches := (readBatches ColumnIndex_read OffsetIndex_read).
Local Abbreviation decodeRequest := (decodeRequest ColumnIndex_read OffsetIndex_read).
Local Abbreviation readFileMetaData := (readFileMetaData FileMetaData_read).
Local Abbreviation expectedSlot := (expectedSlot ColumnIndex_read OffsetIndex_read).
Local Abbreviation decodable := (decodable ColumnIndex_read OffsetIndex_read).
Local Abbreviation PI := (PageIndexes ColumnIndex OffsetIndex).

Lemma length_reads file batches : forall (indexes : PI),
  (List.length (fst (readBatches file batches indexes)) <= List.length batches)%nat.
Proof.
  induction batches as [|b bs IH]; intros indexes; simpl; [lia|].
  unfold readFileSlice. destruct (unreadable file (start b) (end_ b)); simpl; [lia|].
  match goal with |- context [Parser.readBatches _ _ file bs ?i] =>
    specialize (IH i);
    destruct (Parser.readBatches ColumnIndex_read OffsetIndex_read file bs i) as [t o]
  end.
  simpl in *. lia.
Qed.

(** X12.  The streaming decoder issues at most one read per batch, there are
    at most as many batches as requests, and at most two requests per
    column chunk; for a footer that declares no index it issues no read at
    all beyond the three of the footer. *)
Theorem streaming_read_count (file : File) (fileMetaData : FileMetaData) :
  (List.length (fst (parsePageIndexesStreaming file fileMetaData))
   <= List.length (planBatches fileMetaData))%nat
  /\ (List.length (planBatches fileMetaData)
      <= List.length (collectReadRequests fileMetaData))%nat
  /\ (List.length (collectReadRequests fileMetaData)
      <= 2 * columnChunkCount fileMetaData)%nat
  /\ (collectReadRequests fileMetaData = [] ->
      parsePageIndexesStreaming file fileMetaData = ([], Ok (initialIndexes fileMetaData))).
Proof.
  split; [apply length_reads|]. split.
  - unfold planBatches.
    rewrite <- (Permutation_length (sortByOffset_perm (collectReadRequests fileMetaData))).
    apply length_batchRequests.
  - split; [apply length_collectRowGroups|].
    intros H. unfold Parser.parsePageIndexesStreaming, planBatches. rewrite H. reflexivity.
Qed.

Lemma length_updateNth {A : Type} (f : A -> A) (l : list A) : forall i,
  List.length (updateNth i f l) = List.length l.
Proof. induction l; intros [|i]; simpl; auto. Qed.

Lemma shape_updateNth {A : Type} (f : list A -> list A) (l : list (list A)) :
  (forall row, List.length (f row) = List.length row) ->
  forall i, map (@List.length A) (updateNth i f l) = map (@List.length A) l.
Proof.
  intros Hf. induction l as [|row l IH]; intros [|i]; simpl; try reflexivity.
  - rewrite Hf. reflexivity.
  - rewrite IH. reflexivity.
Qed.

Lemma shape_decodeRequest batchBytes batch (indexes : PI) req :
  map (@List.length _) (decodeRequest batchBytes batch indexes req)
  = map (@List.length _) indexes.
Proof.
  unfold Parser.decodeRequest.
  destruct (type req);
    [destruct (ColumnIndex_read _) as [v [e|]]|destruct (OffsetIndex_read _) as [v [e|]]];
    try reflexivity; apply shape_updateNth; intros row; apply length_updateNth.
Qed.

Lemma shape_fold batchBytes batch rs : forall (indexes : PI),
  map (@List.length _) (fold_left (decodeRequest batchBytes batch) rs indexes)
  = map (@List.length _) indexes.
Proof.
  induction rs as [|r rs IH]; intros indexes; simpl; [reflexivity|].
  rewrite IH. apply shape_decodeRequest.
Qed.

Lemma shape_readBatches file batches : forall (indexes : PI) reads result,
  readBatches file batches indexes = (reads, Ok result) ->
  map (@List.length _) result = map (@List.length _) indexes.
Proof.
  induction batches as [|b bs IH]; intros indexes reads result H; simpl in H.
  - inversion H; subst. reflexivity.
  - unfold readFileSlice in H. destruct (unreadable file (start b) (end_ b));
      simpl in H; [discriminate|].
    match type of H with context [Parser.readBatches _ _ file bs ?i] =>
      destruct (Parser.readBatches ColumnIndex_read OffsetIndex_read file bs i)
        as [t o] eqn:E
    end.
    inversion H; subst. rewrite (IH _ _ _ E). apply shape_fold.
Qed.

Lemma shape_parsePageIndexes (bytes : list byte) (fileMetaData : FileMetaData) :
  map (@List.length _) (parsePageIndexes bytes fileMetaData)
  = map (fun rowGroup => List.length (columns rowGroup)) (row_groups fileMetaData).
Proof.
  unfold Parser.parsePageIndexes. rewrite map_map. apply map_ext. intros rg.
  apply length_map.
Qed.

Lemma shape_parsePageIndexesStreaming (file : File) (fileMetaData : FileMetaData)
  reads result :
  parsePageIndexesStreaming file fileMetaData = (reads, Ok result) ->
  map (@List.length _) result
  = map (fun rowGroup => List.length (columns rowGroup)) (row_groups fileMetaData).
Proof.
  intros H. unfold Parser.parsePageIndexesStreaming in H.
  rewrite (shape_readBatches _ _ _ _ _ H). unfold initialIndexes.
  rewrite map_map. apply map_ext. intros rg. apply length_map.
Qed.

(** X13.  The page indexes have the shape of the footer, one row per row
    group and one slot per column chunk, on the legacy path always and on
    the streaming path whenever it returns. *)
Theorem pageIndexes_shape (bytes : list byte) (file : File) (fileMetaData : FileMetaData) :
  map (@List.length _) (parsePageIndexes bytes fileMetaData)
    = map (fun rowGroup => List.length (columns rowGroup)) (row_groups fileMetaData)
  /\ forall reads result,
       parsePageIndexesStreaming file fileMetaData = (reads, Ok result) ->
       map (@List.length _) result
       = map (fun rowGroup => List.length (columns rowGroup)) (row_groups fileMetaData).
Proof.
  split; [apply shape_parsePageIndexes|].
  intros reads result. apply shape_parsePageIndexesStreaming.
Qed.

Lemma streaming_ok_reads (file : File) reads p :
  parseParquetFileStreaming file = (reads, Ok p) ->
  12 <= len (contents file) /\ headerReadable file.
Proof.
  unfold Parser.parseParquetFileStreaming, fileSize_of. intros H.
  destruct (Z.ltb_spec (len (contents file)) 12) as [|Hlen]; [discriminate|].
  split; [exact Hlen|]. unfold headerReadable. cbv zeta.
  unfold readFileSlice in H.
  destruct (unreadable file 0 4); [discriminate|]. unfold ioBind at 1 in H.
  destruct (negb (bytesEqual (slice (contents file) 0 4) PARQUET_MAGIC));
    [discriminate|].
  destruct (unreadable file (len (contents file) - 8) (len (contents file)));
    [discriminate|].
  unfold ioBind at 1 in H.
  rewrite slice_footerEnd_magic, slice_footerEnd_length in H by assumption.
  destruct (negb (bytesEqual (trailingMagic (contents file)) PARQUET_MAGIC));
    [discriminate|].
  destruct (footerLengthField (contents file) >? len (contents file) - 8);
    [discriminate|].
  destruct (unreadable file
              (len (contents file) - 8 - footerLengthField (contents file))
              (len (contents file) - 8 - footerLengthField (contents file)
               + footerLengthField (contents file))); [discriminate|].
  auto.
Qed.

Lemma readFileMetaData_ok (footerBytes : list byte) (md : FileMetaData) :
  readFileMetaData footerBytes = Ok md ->
  FileMetaData_read (Thrift.newReader footerBytes) = (md, None).
Proof.
  unfold Parser.readFileMetaData.
  destruct (FileMetaData_read _) as [m [e|]]; intros H; inversion H; reflexivity.
Qed.

(** X14.  The record an entry point returns is consistent: the file size is
    that of the input and at least 12, the footer length is an unsigned
    32-bit number, the footer starts at an offset that is not negative and
    ends 8 bytes before the end of the file, the metadata is the object
    [FileMetaData.read] filled, without throwing, from a fresh reader on
    exactly those bytes, and the page indexes have the shape of the row
    groups. *)
Theorem parsed_record (bytes : list byte) (file : File) :
  (forall p, parseParquetFile bytes = Ok p -> wellLocated FileMetaData_read bytes p)
  /\ (forall reads p, parseParquetFileStreaming file = (reads, Ok p) ->
        wellLocated FileMetaData_read (contents file) p
        /\ firstn 3 reads
           = [(0, 4); (fileSize p - 8, fileSize p);
              (footerStart p, footerStart p + footerLength p)]).
Proof.
  assert (HL : forall bs, 0 <= footerLengthField bs < 2 ^ 32).
  { intros bs. unfold footerLengthField. apply getUint32LE_range. }
  split.
  - intros p H. destruct (Z.ltb_spec (len bytes) 12) as [Hlt|Hlen].
    { unfold Parser.parseParquetFile in H.
      destruct (Z.ltb_spec (len bytes) 12); [discriminate|lia]. }
    rewrite parseParquetFile_unfold in H by assumption. cbv zeta in H.
    destruct (negb (bytesEqual (leadingMagic bytes) PARQUET_MAGIC)); [discriminate|].
    destruct (negb (bytesEqual (trailingMagic bytes) PARQUET_MAGIC)); [discriminate|].
    destruct (Z.gtb_spec (footerLengthField bytes) (len bytes - 8)); [discriminate|].
    destruct (readFileMetaData _) as [md|e] eqn:Emd; simpl in H; [|discriminate].
    inversion H; subst. unfold wellLocated. simpl. specialize (HL bytes).
    repeat split; try lia.
    + replace (len bytes - 8 - footerLengthField bytes + footerLengthField bytes)
        with (len bytes - 8) by lia. apply readFileMetaData_ok, Emd.
    + apply shape_parsePageIndexes.
  - intros reads p H. destruct (streaming_ok_reads _ _ _ H) as [Hlen Hhdr].
    rewrite parseParquetFileStreaming_unfold in H by assumption. cbv zeta in H.
    destruct (negb (bytesEqual (leadingMagic (contents file)) PARQUET_MAGIC));
      [discriminate|].
    destruct (negb (bytesEqual (trailingMagic (contents file)) PARQUET_MAGIC));
      [discriminate|].
    destruct (Z.gtb_spec (footerLengthField (contents file)) (len (contents file) - 8));
      [discriminate|].
    unfold ioBind at 1 in H.
    destruct (readFileMetaData _) as [md|e] eqn:Emd; [|discriminate].
    destruct (parsePageIndexesStreaming file md) as [reads' [result|e]] eqn:Epi;
      simpl in H; [|discriminate].
    inversion H; subst. unfold wellLocated. simpl. specialize (HL (contents file)).
    split.
    2:{ replace (len (contents file) - 8 - footerLengthField (contents file)
                 + footerLengthField (contents file))
          with (len (contents file) - 8) by lia. reflexivity. }
    repeat split; try lia.
    + replace (len (contents file) - 8 - footerLengthField (contents file)
               + footerLengthField (contents file))
        with (len (contents file) - 8) by lia. apply readFileMetaData_ok, Emd.
    + apply (shape_parsePageIndexesStreaming _ _ _ _ Epi).
Qed.

(** X15.  On a file whose reads succeed the streaming entry point does what
    the legacy one does on the file's bytes: it throws the same exception,
    or returns the same file size, footer position and metadata, and (for
    index ranges that are not negative) the same page-index slot for every
    column chunk on whose index bytes no decoder throws. *)
Theorem streaming_agrees_with_legacy (file : File) :
  reliable file ->
  (forall e, parseParquetFile (contents file) = Throw e ->
             snd (parseParquetFileStreaming file) = Throw e)
  /\ (forall p, parseParquetFile (contents file) = Ok p ->
        (forall r, In r (collectReadRequests (fileMetaData p)) ->
                   0 <= offset r /\ 0 <= length r) ->
        exists p',
          snd (parseParquetFileStreaming file) = Ok p'
          /\ fileSize p' = fileSize p /\ footerLength p' = footerLength p
          /\ footerStart p' = footerStart p /\ fileMetaData p' = fileMetaData p
          /\ forall rg col rowGroup columnChunk,
               nth_error (row_groups (fileMetaData p)) rg = Some rowGroup ->
               nth_error (columns rowGroup) col = Some columnChunk ->
               decodable (contents file) columnChunk ->
               slotAt (pageIndexes p') rg col = slotAt (pageIndexes p) rg col).
Proof.
  intros Hrel.
  destruct (Z.ltb_spec (len (contents file)) 12) as [Hlt|Hlen].
  { assert (Hl : parseParquetFile (contents file) = Throw FileTooSmall).
    { unfold Parser.parseParquetFile.
      destruct (Z.ltb_spec (len (contents file)) 12); [reflexivity|lia]. }
    assert (Hs : parseParquetFileStreaming file = ([], Throw FileTooSmall)).
    { unfold Parser.parseParquetFileStreaming, fileSize_of.
      destruct (Z.ltb_spec (len (contents file)) 12); [reflexivity|lia]. }
    rewrite Hl, Hs. split; [intros e H; exact H|intros p H; discriminate]. }
  rewrite parseParquetFile_unfold by assumption.
  rewrite parseParquetFileStreaming_unfold
    by (try assumption; apply reliable_headerReadable; exact Hrel).
  cbv zeta.
  destruct (negb (bytesEqual (leadingMagic (contents file)) PARQUET_MAGIC));
    [split; [intros e H; exact H|intros p H; discriminate]|].
  destruct (negb (bytesEqual (trailingMagic (contents file)) PARQUET_MAGIC));
    [split; [intros e H; exact H|intros p H; discriminate]|].
  destruct (footerLengthField (contents file) >? len (contents file) - 8);
    [split; [intros e H; exact H|intros p H; discriminate]|].
  unfold ioBind at 1.
  destruct (readFileMetaData _) as [md|e0]; simpl resultBind;
    [|split; [intros e H; exact H|intros p H; discriminate]].
  split; [intros e H; discriminate|].
  intros p H Hwf. inversion H; subst. simpl in Hwf.
  destruct (streaming_slots ColumnIndex_read OffsetIndex_read file md Hrel Hwf)
    as (result & E & Hs).
  unfold ioBind. rewrite E. simpl. eexists. split; [reflexivity|]. simpl.
  repeat split.
  intros rg col rowGroup columnChunk Hrg Hcol Hdec.
  rewrite (Hs rg col rowGroup columnChunk Hrg Hcol).
  rewrite (parsePageIndexes_slot ColumnIndex_read OffsetIndex_read _ _ _ _ rowGroup
             columnChunk Hrg Hcol).
  f_equal. symmetry. apply parseColumnChunk_decodable. exact Hdec.
Qed.

End ParserExtras.


Lemma batches_separated_witness :
  StronglySorted (Parser.precedes 1000)
    (Parser.batchRequests 1000 (Parser.sortByOffset Examples.exampleRequests)).
Proof.
  apply (batches_separated 1000 Examples.exampleRequests); [lia|].
  intros r [<-|[<-|[<-|[]]]]; simpl; lia.
Defined.

(** At the example file: both entry points return the same record but for
    the slot whose decoder throws. *)
Lemma streaming_agrees_with_legacy_witness :
  Parser.reliable Examples.exampleReliableFile
  /\ exists p',
       snd (Parser.parseParquetFileStreaming Examples.exampleFileMetaData_read
              Examples.exampleIndex_read Examples.exampleIndex_read
              Examples.exampleReliableFile) = Ok p'
       /\ Parser.fileSize p' = 15 /\ Parser.footerLength p' = 1
       /\ Parser.footerStart p' = 6 /\ Parser.fileMetaData p' = Examples.exampleMetaData.
Proof.
  assert (Hrel : Parser.reliable Examples.exampleReliableFile) by (intros s e; reflexivity).
  split; [exact Hrel|].
  destruct (proj2 (streaming_agrees_with_legacy Examples.exampleFileMetaData_read
                     Examples.exampleIndex_read Examples.exampleIndex_read
                     Examples.exampleReliableFile Hrel)
              (Parser.mkParsed 15 1 6 Examples.exampleMetaData
                 (Parser.parsePageIndexes Examples.exampleIndex_read
                    Examples.exampleIndex_read Examples.exampleBytes
                    Examples.exampleMetaData))
              eq_refl) as (p' & H & H1 & H2 & H3 & H4 & _).
  - intros r [<-|[<-|[]]]; simpl; unfold Number; lia.
  - exists p'. auto.
Defined.

(* ================================================================== *)
(** * Further properties of the formatter (src/statsFormatter.js) *)

Section FormatterExtras.

Import Stats.

Local Open Scope string_scope.
Local Open Scope Z_scope.

Lemma lxor_255 (b : byte) : Z.lxor (u8 b) 255 = 255 - u8 b.
Proof. destruct b; reflexivity. Qed.

Lemma lor_shiftl_8 (acc x : Z) :
  0 <= acc -> 0 <= x < 256 -> Z.lor (Z.shiftl acc 8) x = acc * 256 + x.
Proof.
  intros Ha Hx. rewrite Z.lor_comm. rewrite lor_shiftl_add by lia.
  change (2 ^ 8) with 256. lia.
Qed.

Lemma fold_lor_add (g h : byte -> Z) (value : list byte) : forall acc,
  0 <= acc -> (forall b, g b = h b /\ 0 <= h b < 256) ->
  fold_left (fun a b => Z.lor (Z.shiftl a 8) (g b)) value acc
  = fold_left (fun a b => a * 256 + h b) value acc.
Proof.
  induction value as [|b value IH]; intros acc Ha Hg; cbn [fold_left]; [reflexivity|].
  destruct (Hg b) as [Hgh Hh]. rewrite Hgh, lor_shiftl_8 by auto.
  apply IH; [lia|exact Hg].
Qed.

Lemma fold_complement (value : list byte) : forall acc acc',
  fold_left (fun a b => a * 256 + (255 - u8 b)) value acc
  + fold_left (fun a b => a * 256 + u8 b) value acc'
  = (acc + acc' + 1) * 256 ^ len value - 1.
Proof.
  induction value as [|b value IH]; intros acc acc'.
  - simpl. lia.
  - cbn [fold_left]. rewrite IH. unfold len. cbn [List.length].
    rewrite Nat2Z.inj_succ, Z.pow_succ_r by lia. lia.
Qed.

Lemma fold_bigEndian (value : list byte) : forall acc,
  fold_left (fun a b => a * 256 + u8 b) value acc = acc * 256 ^ len value + bigEndian value.
Proof.
  unfold bigEndian. induction value as [|b value IH]; intros acc.
  - simpl. lia.
  - cbn [fold_left]. rewrite IH, (IH (0 * 256 + u8 b)). unfold len. cbn [List.length].
    rewrite Nat2Z.inj_succ, Z.pow_succ_r by lia. lia.
Qed.

Lemma bigEndian_range (value : list byte) : 0 <= bigEndian value < 256 ^ len value.
Proof.
  unfold bigEndian. induction value as [|b value IH] using rev_ind.
  - simpl. lia.
  - rewrite fold_left_app. simpl. unfold len in *. rewrite length_app. simpl.
    rewrite Nat2Z.inj_add, Z.pow_add_r by lia. change (256 ^ Z.of_nat 1) with 256.
    pose proof (u8_range b). lia.
Qed.

Lemma bigEndian_cons (b : byte) (value : list byte) :
  bigEndian (b :: value) = u8 b * 256 ^ len value + bigEndian value.
Proof. unfold bigEndian at 1. cbn [fold_left]. rewrite fold_bigEndian. lia. Qed.

(** X16.  The decimal branch for byte arrays reads the bytes as a big-endian
    two's-complement integer of their length: the unsigned big-endian value,
    less [256 ^ length] if the first byte has its high bit set; no bytes
    give 0. *)
Theorem decimalOfBytes_twos_complement (value : list byte) :
  decimalOfBytes value
  = match value with
    | [] => 0
    | b :: _ =>
        if 128 <=? u8 b then bigEndian value - 256 ^ len value else bigEndian value
    end
  /\ (value <> [] -> decimalOfBytes value = asIntN (8 * len value) (bigEndian value))
  /\ (value <> [] ->
      - 2 ^ (8 * len value - 1) <= decimalOfBytes value < 2 ^ (8 * len value - 1)).
Proof.
  assert (Hcase : decimalOfBytes value
    = match value with
      | [] => 0
      | b :: _ =>
          if 128 <=? u8 b then bigEndian value - 256 ^ len value else bigEndian value
      end).
  { destruct value as [|b value]; [reflexivity|].
    unfold decimalOfBytes.
    assert (Hbit : negb (Z.land (u8 b) 128 =? 0) = (128 <=? u8 b)).
    { destruct b; reflexivity. }
    rewrite Hbit. destruct (128 <=? u8 b).
    - rewrite (fold_lor_add (fun x => Z.lxor (u8 x) 255) (fun x => 255 - u8 x));
        [|lia|intros x; rewrite lxor_255; pose proof (u8_range x); lia].
      pose proof (fold_complement (b :: value) 0 0) as H.
      fold (bigEndian (b :: value)) in H. lia.
    - rewrite (fold_lor_add u8 u8);
        [reflexivity|lia|intros x; pose proof (u8_range x); split; [reflexivity|lia]]. }
  split; [exact Hcase|].
  assert (Hsplit : value <> [] ->
    exists b rest, value = b :: rest
      /\ 256 ^ len value = 2 * 2 ^ (8 * len value - 1)
      /\ ((128 <=? u8 b) = true -> 2 ^ (8 * len value - 1) <= bigEndian value)
      /\ ((128 <=? u8 b) = false -> bigEndian value < 2 ^ (8 * len value - 1))).
  { intros Hne. destruct value as [|b rest]; [contradiction|]. exists b, rest.
    split; [reflexivity|].
    assert (Hlen : len (b :: rest) = len rest + 1)
      by (unfold len; cbn [List.length]; lia).
    assert (Hpow : 2 ^ (8 * len (b :: rest) - 1) = 128 * 256 ^ len rest).
    { rewrite Hlen. replace (8 * (len rest + 1) - 1) with (7 + 8 * len rest) by lia.
      unfold len. rewrite Z.pow_add_r by lia. rewrite Z.pow_mul_r by lia. reflexivity. }
    rewrite Hpow, bigEndian_cons.
    pose proof (bigEndian_range rest) as Hr. pose proof (u8_range b) as Hb.
    split; [rewrite Hlen, Z.pow_add_r by (unfold len; lia); lia|].
    split; intros H.
    - apply Z.leb_le in H. nia.
    - apply Z.leb_gt in H. nia. }
  split; intros Hne; destruct (Hsplit Hne) as (b & rest & -> & Hpow & Hhi & Hlo);
    rewrite Hcase; pose proof (bigEndian_range (b :: rest)) as Hr.
  - unfold asIntN. replace (2 ^ (8 * len (b :: rest))) with (256 ^ len (b :: rest))
      by (rewrite Z.pow_mul_r by (unfold len; lia); reflexivity).
    destruct (128 <=? u8 b) eqn:E.
    + specialize (Hhi eq_refl).
      replace (bigEndian (b :: rest) + 2 ^ (8 * len (b :: rest) - 1))
        with (bigEndian (b :: rest) - 2 ^ (8 * len (b :: rest) - 1)
              + 1 * 256 ^ len (b :: rest)) by lia.
      rewrite Z.mod_add, Z.mod_small by lia. lia.
    + specialize (Hlo eq_refl). rewrite Z.mod_small by lia. lia.
  - destruct (128 <=? u8 b) eqn:E.
    + specialize (Hhi eq_refl). lia.
    + specialize (Hlo eq_refl). lia.
Qed.

Lemma hexDigit_cases (d : Z) (P : Z -> Prop) :
  0 <= d < 16 ->
  P 0 -> P 1 -> P 2 -> P 3 -> P 4 -> P 5 -> P 6 -> P 7 -> P 8 -> P 9 -> P 10 -> P 11 ->
  P 12 -> P 13 -> P 14 -> P 15 -> P d.
Proof.
  intros Hd. assert (H : d = 0 \/ d = 1 \/ d = 2 \/ d = 3 \/ d = 4 \/ d = 5 \/ d = 6
    \/ d = 7 \/ d = 8 \/ d = 9 \/ d = 10 \/ d = 11 \/ d = 12 \/ d = 13 \/ d = 14
    \/ d = 15) by lia.
  intros. repeat (destruct H as [->|H]; [assumption|]). subst. assumption.
Qed.

Lemma hexDigit_isHexDigit (d : Z) : 0 <= d < 16 -> isHexDigit (hexDigit d) = true.
Proof.
  intros Hd. apply (hexDigit_cases d (fun d => isHexDigit (hexDigit d) = true) Hd);
    reflexivity.
Qed.

Lemma hexDigit_not_dash (d : Z) : 0 <= d < 16 -> Ascii.eqb (hexDigit d) "-" = false.
Proof.
  intros Hd. apply (hexDigit_cases d (fun d => Ascii.eqb (hexDigit d) "-" = false) Hd);
    reflexivity.
Qed.

Lemma hexDigit_value (d : Z) :
  0 <= d < 16 ->
  Z.of_N (N_of_ascii (hexDigit d)) = if d <? 10 then 48 + d else 87 + d.
Proof.
  intros Hd.
  apply (hexDigit_cases d
           (fun d => Z.of_N (N_of_ascii (hexDigit d)) = if d <? 10 then 48 + d else 87 + d)
           Hd); reflexivity.
Qed.

Lemma hexDigit_inj (d d' : Z) :
  0 <= d < 16 -> 0 <= d' < 16 -> hexDigit d = hexDigit d' -> d = d'.
Proof.
  intros Hd Hd' H. apply (f_equal (fun c => Z.of_N (N_of_ascii c))) in H.
  rewrite !hexDigit_value in H by assumption.
  destruct (Z.ltb_spec d 10), (Z.ltb_spec d' 10); lia.
Qed.

Lemma nibble_ranges (b : byte) : 0 <= u8 b / 16 < 16 /\ 0 <= u8 b mod 16 < 16.
Proof.
  pose proof (u8_range b). split; [|apply Z.mod_pos_bound; lia].
  split; [apply Z.div_pos; lia|apply Z.div_lt_upper_bound; lia].
Qed.

Lemma u8_inj (b b' : byte) : u8 b = u8 b' -> b = b'.
Proof.
  unfold u8. intros H. apply N2Z.inj in H.
  pose proof (Byte.of_to_N b) as E. rewrite H, Byte.of_to_N in E. congruence.
Qed.

Lemma hexByte_inj (b b' : byte) : hexByte b = hexByte b' -> b = b'.
Proof.
  unfold hexByte. intros H. inversion H as [[Hhi Hlo]].
  destruct (nibble_ranges b), (nibble_ranges b').
  apply hexDigit_inj in Hhi; [|assumption|assumption].
  apply hexDigit_inj in Hlo; [|assumption|assumption].
  apply u8_inj. rewrite (Z.div_mod (u8 b) 16), (Z.div_mod (u8 b') 16) by lia. lia.
Qed.

Lemma hexJoin_cons (b : byte) (l : list byte) :
  hexJoin "" (b :: l) = hexByte b ++ hexJoin "" l.
Proof.
  unfold hexJoin. cbn [map join]. destruct (map hexByte l) eqn:E; [|reflexivity].
  destruct l; [reflexivity|discriminate].
Qed.

Lemma hexJoin_inj (a : list byte) : forall b, hexJoin "" a = hexJoin "" b -> a = b.
Proof.
  induction a as [|x a IH]; intros [|y b] H.
  - reflexivity.
  - rewrite hexJoin_cons in H. discriminate.
  - rewrite hexJoin_cons in H. discriminate.
  - rewrite !hexJoin_cons in H. unfold hexByte in H. simpl in H.
    inversion H as [[H1 H2 H3]].
    assert (x = y) by (apply hexByte_inj; unfold hexByte; congruence).
    subst. f_equal. apply IH. exact H3.
Qed.

Lemma hexJoin_digits (l : list byte) :
  String.length (hexJoin "" l) = (2 * List.length l)%nat
  /\ forallb isHexDigit (list_ascii_of_string (hexJoin "" l)) = true
  /\ without "-" (hexJoin "" l) = hexJoin "" l.
Proof.
  induction l as [|b l (IH1 & IH2 & IH3)]; [repeat split|].
  rewrite hexJoin_cons. unfold hexByte. destruct (nibble_ranges b) as [Hhi Hlo].
  cbn [append String.length list_ascii_of_string forallb without].
  rewrite !hexDigit_isHexDigit, !hexDigit_not_dash, IH1, IH2, IH3 by assumption.
  repeat split. simpl. lia.
Qed.

Lemma without_hexDigit (d : Z) (s : string) :
  0 <= d < 16 -> without "-" (String (hexDigit d) s) = String (hexDigit d) (without "-" s).
Proof. intros Hd. cbn [without]. rewrite hexDigit_not_dash by assumption. reflexivity. Qed.

(** The rendering of sixteen bytes, written out. *)
Lemma formatUUID_sixteen (b0 b1 b2 b3 b4 b5 b6 b7 b8 b9 b10 b11 b12 b13 b14 b15 : byte) :
  formatUUID [b0; b1; b2; b3; b4; b5; b6; b7; b8; b9; b10; b11; b12; b13; b14; b15]
  = hexJoin "" [b0; b1; b2; b3] ++ "-" ++ hexJoin "" [b4; b5] ++ "-"
    ++ hexJoin "" [b6; b7] ++ "-" ++ hexJoin "" [b8; b9] ++ "-"
    ++ hexJoin "" [b10; b11; b12; b13; b14; b15].
Proof.
  unfold formatUUID, hexJoin, strSliceFrom, strSlice, strlen.
  cbv - [hexDigit u8 Z.div Z.modulo]. reflexivity.
Qed.

Lemma without_app (c : ascii) (a b : string) :
  without c (a ++ b) = without c a ++ without c b.
Proof.
  induction a as [|x a IH]; [reflexivity|]. cbn [append without].
  destruct (Ascii.eqb x c); [exact IH|]. cbn [append]. rewrite IH. reflexivity.
Qed.

Lemma without_formatUUID (bytes : list byte) :
  without "-" (formatUUID bytes) = hexJoin "" bytes.
Proof.
  destruct (Z.eq_dec (len bytes) 16) as [H16|Hne].
  - unfold len in H16.
    do 16 (destruct bytes as [|? bytes]; [simpl in H16; lia|]).
    destruct bytes; [|simpl in H16; lia].
    rewrite formatUUID_sixteen. rewrite !without_app.
    rewrite !(proj2 (proj2 (hexJoin_digits _))).
    change (without "-" "-") with "".
    unfold hexJoin, hexByte. cbn [map join append]. reflexivity.
  - unfold formatUUID. destruct (Z.eqb_spec (len bytes) 16); [contradiction|].
    simpl negb. cbv iota. apply hexJoin_digits.
Qed.

(** X17.  [formatUUID] renders sixteen bytes as 36 characters, the 32
    lower-case hexadecimal digits of the bytes in order with a dash after
    the digits 8, 12, 16 and 20; any other number of bytes as their
    hexadecimal digits alone, two per byte. *)
Theorem formatUUID_shape (bytes : list byte) :
  String.length (hexJoin "" bytes) = (2 * List.length bytes)%nat
  /\ forallb isHexDigit (list_ascii_of_string (hexJoin "" bytes)) = true
  /\ without "-" (formatUUID bytes) = hexJoin "" bytes
  /\ (len bytes <> 16 -> formatUUID bytes = hexJoin "" bytes)
  /\ (len bytes = 16 ->
      String.length (formatUUID bytes) = 36%nat
      /\ String.get 8 (formatUUID bytes) = Some "-"%char
      /\ String.get 13 (formatUUID bytes) = Some "-"%char
      /\ String.get 18 (formatUUID bytes) = Some "-"%char
      /\ String.get 23 (formatUUID bytes) = Some "-"%char).
Proof.
  split; [apply hexJoin_digits|]. split; [apply hexJoin_digits|].
  split; [apply without_formatUUID|]. split.
  - intros Hne. unfold formatUUID. destruct (Z.eqb_spec (len bytes) 16); [contradiction|].
    reflexivity.
  - intros H16. unfold len in H16.
    do 16 (destruct bytes as [|? bytes]; [simpl in H16; lia|]).
    destruct bytes; [|simpl in H16; lia].
    rewrite formatUUID_sixteen. unfold hexJoin, hexByte. repeat split.
Qed.

(** X18.  [formatUUID] loses nothing: two byte strings have the same rendering
    only if they are the same. *)
Theorem formatUUID_injective (a b : list byte) :
  formatUUID a = formatUUID b <-> a = b.
Proof.
  split; [|intros ->; reflexivity].
  intros H. apply hexJoin_inj. rewrite <- !without_formatUUID. rewrite H. reflexivity.
Qed.

(** X19.  [parseINT96Timestamp] gives [null] unless there are exactly twelve
    bytes; of twelve bytes it takes the first eight as the nanoseconds of
    the day and the last four as the Julian day, both little-endian, and
    gives the [Date] of the milliseconds since the epoch (Julian day
    2440588), which is an invalid date (time value NaN) when they exceed
    8.64e15 in magnitude.  When the nanoseconds are less than a day, the
    milliseconds of whole days are the days since the epoch and the rest
    the milliseconds of the day, and the date is valid for the days from
    -100 000 000 up to 100 000 000 (excluded) and invalid for the days
    beyond. *)
Theorem parseINT96Timestamp_spec (bytes : list byte) :
  let nanoseconds := getBigUint64LE bytes in
  let julianDay := getInt32LE (skipn 8 bytes) in
  let unixDays := julianDay - 2440588 in
  let unixMs := unixDays * 86400000 + nanoseconds / 1000000 in
  (len bytes <> 12 -> parseINT96Timestamp bytes = None)
  /\ (len bytes = 12 -> parseINT96Timestamp bytes = Some (newDate unixMs))
  /\ (Z.abs unixMs <= 8640000000000000 -> getTime (newDate unixMs) = Some unixMs)
  /\ (8640000000000000 < Z.abs unixMs -> getTime (newDate unixMs) = None)
  /\ 0 <= nanoseconds < 2 ^ 64
  /\ - 2 ^ 31 <= julianDay < 2 ^ 31
  /\ (nanoseconds < 86400 * 10 ^ 9 ->
      unixMs / 86400000 = unixDays
      /\ unixMs mod 86400000 = nanoseconds / 1000000
      /\ (-100000000 <= unixDays < 100000000 -> getTime (newDate unixMs) = Some unixMs)
      /\ (unixDays < -100000000 \/ 100000000 < unixDays ->
          getTime (newDate unixMs) = None)).
Proof.
  cbv zeta.
  pose proof (getUint32LE_range bytes) as Hlo.
  pose proof (getUint32LE_range (skipn 4 bytes)) as Hhi.
  pose proof (getUint32LE_range (skipn 8 bytes)) as Hday.
  assert (Hn : 0 <= getBigUint64LE bytes < 2 ^ 64) by (unfold getBigUint64LE; lia).
  assert (Hvalid : forall ms, Z.abs ms <= 8640000000000000 ->
                              getTime (newDate ms) = Some ms).
  { intros ms H. unfold newDate, validDate. simpl.
    destruct (Z.leb_spec (Z.abs ms) 8640000000000000); [reflexivity|lia]. }
  assert (Hinvalid : forall ms, 8640000000000000 < Z.abs ms ->
                                getTime (newDate ms) = None).
  { intros ms H. unfold newDate, validDate. simpl.
    destruct (Z.leb_spec (Z.abs ms) 8640000000000000); [lia|reflexivity]. }
  split; [|split; [|split; [apply Hvalid|split; [apply Hinvalid|split; [exact Hn|split]]]]].
  - intros Hne. unfold parseINT96Timestamp.
    destruct (Z.eqb_spec (len bytes) 12); [contradiction|reflexivity].
  - intros H12. unfold parseINT96Timestamp. rewrite H12. simpl negb. cbv iota zeta.
    unfold Number. rewrite Z.shiftl_mul_pow2 by lia.
    fold (getBigUint64LE bytes). rewrite Z.quot_div_nonneg by lia. reflexivity.
  - unfold getInt32LE. cbv zeta. destruct (Z.ltb_spec (getUint32LE (skipn 8 bytes)) (2 ^ 31));
      lia.
  - intros Hday'.
    assert (Hms : 0 <= getBigUint64LE bytes / 1000000 < 86400000).
    { split; [apply Z.div_pos; lia|]. apply Z.div_lt_upper_bound; lia. }
    split; [|split; [|split]].
    + rewrite Z.add_comm. rewrite Z.div_add by lia. rewrite Z.div_small by lia. lia.
    + rewrite Z.add_comm. rewrite Z.mod_add by lia. apply Z.mod_small. lia.
    + intros Hrange. apply Hvalid. lia.
    + intros Hrange. apply Hinvalid. lia.
Qed.

Variable rt : Runtime.

(** X20.  A logical type with a member set decides alone; the converted type,
    the scale and the precision of the schema element are looked at only
    when the element has no logical type or one with no member set. *)
Theorem logicalType_precedence (logicalType : LogicalType)
  (converted_type converted_type' scale scale' precision precision' : option Z) :
  if hasMember logicalType
  then getLogicalTypeInfo rt
         (Some (SchemaElement.mk (Some logicalType) converted_type scale precision))
       = getLogicalTypeInfo rt
           (Some (SchemaElement.mk (Some logicalType) converted_type' scale' precision'))
  else getLogicalTypeInfo rt
         (Some (SchemaElement.mk (Some logicalType) converted_type scale precision))
       = getLogicalTypeInfo rt
           (Some (SchemaElement.mk None converted_type scale precision)).
Proof.
  destruct logicalType as [s d [t|] [ts|] [i|] [dc|] u j b e];
    destruct s, d, u, j, b, e; try destruct t; try destruct ts; try destruct i;
    try destruct dc; reflexivity.
Qed.

Lemma length_lit (s : string) : List.length (lit s) = String.length s.
Proof. unfold lit. rewrite length_map. apply length_list_of. Qed.

(** X21.  A byte array that is no UUID and no decimal is rendered in at most
    52 characters whatever its length: the text in quotes if it decodes to
    at most 50 printable characters, its first 47 characters and an
    ellipsis in quotes if it decodes to more, and the bounded hexadecimal
    rendering otherwise. *)
Theorem byte_array_bounded (value : list byte) (columnMeta : ColumnMetaData.t)
  (schemaElement : option SchemaElement.t) :
  let physicalType := getTypeName rt (ColumnMetaData.type columnMeta) in
  let logicalInfo := getLogicalTypeInfo rt schemaElement in
  physicalType = "BYTE_ARRAY" \/ physicalType = "FIXED_LEN_BYTE_ARRAY" ->
  typeIs logicalInfo "UUID" = false -> typeIs logicalInfo "DECIMAL" = false ->
  exists rendered,
    formatStatValue rt (Some value) (Some columnMeta) schemaElement = Ok rendered
    /\ len rendered <= 52.
Proof.
  intros physicalType logicalInfo Hphys Huuid Hdec.
  unfold formatStatValue. fold physicalType logicalInfo.
  assert (Hhex : len (lit (hexFallback value)) <= 52).
  { unfold len. rewrite length_lit.
    pose proof (proj2 (hexFallback_bounded value)). lia. }
  assert (Htry : formatStatValue_try rt value physicalType logicalInfo
    = let hex := Ok (lit (hexFallback value)) in
      if typeIs logicalInfo "STRING" || typeIs logicalInfo "JSON"
         || typeIs logicalInfo "ENUM" || typeIsNull logicalInfo
      then
        match decodeUtf8 rt value with
        | Ok text =>
            if isPrintable text then
              if len text >? 50
              then Ok (lit quote ++ slice text 0 47 ++ lit ("..." ++ quote))%list
              else Ok (lit quote ++ text ++ lit quote)%list
            else hex
        | Throw _ => hex
        end
      else hex).
  { unfold formatStatValue_try. rewrite Huuid, Hdec.
    destruct Hphys as [-> | ->]; reflexivity. }
  rewrite Htry. cbv zeta.
  destruct (typeIs logicalInfo "STRING" || typeIs logicalInfo "JSON"
            || typeIs logicalInfo "ENUM" || typeIsNull logicalInfo);
    [|eexists; split; [reflexivity|exact Hhex]].
  destruct (decodeUtf8 rt value) as [text|e];
    [|eexists; split; [reflexivity|exact Hhex]].
  destruct (isPrintable text); [|eexists; split; [reflexivity|exact Hhex]].
  destruct (Z.gtb_spec (len text) 50) as [Hlong|Hshort].
  - eexists. split; [reflexivity|]. unfold len in *.
    rewrite !length_app, !length_lit. rewrite slice_range by lia.
    rewrite length_firstn, length_skipn.
    change (Z.to_nat (47 - 0)) with 47%nat. change (Z.to_nat 0) with 0%nat.
    change (String.length quote) with 1%nat.
    change (String.length ("..." ++ quote)) with 4%nat. lia.
  - eexists. split; [reflexivity|]. unfold len in *.
    rewrite !length_app, !length_lit. simpl. lia.
Qed.

End FormatterExtras.

(** A byte array that holds the text abc. *)
Lemma byte_array_bounded_witness :
  Stats.formatStatValue Examples.asciiRuntime (Some [x61; x62; x63])
    (Some (Stats.ColumnMetaData.mk 6)) None
  = Ok (lit (quote ++ "abc" ++ quote))
  /\ exists rendered,
       Stats.formatStatValue Examples.asciiRuntime (Some [x61; x62; x63])
         (Some (Stats.ColumnMetaData.mk 6)) None = Ok rendered
       /\ len rendered <= 52.
Proof.
  split; [reflexivity|].
  apply (byte_array_bounded Examples.asciiRuntime [x61; x62; x63]
           (Stats.ColumnMetaData.mk 6) None); [left; reflexivity|reflexivity|reflexivity].
Defined.

Section SchemaLookupFacts.

Import Stats.

Local Open Scope string_scope.
Local Open Scope Z_scope.

Variable Elem : Type.
Variable name : Elem -> option string.
Variable typeDefined : Elem -> bool.

Local Abbreviation findSchemaElement := (findSchemaElement Elem name typeDefined).
Local Abbreviation nameIs := (nameIs Elem name).

Lemma nth_last (A : Type) (l : list A) (d : A) : nth (List.length l - 1) l d = last l d.
Proof.
  induction l as [|x l IH]; [reflexivity|].
  destruct l as [|y l]; [reflexivity|].
  cbn [List.length last] in *. rewrite <- IH.
  replace (S (S (List.length l)) - 1)%nat with (S (S (List.length l) - 1)) by lia.
  reflexivity.
Qed.

Lemma nameIs_eq elem s : nameIs elem s = true -> name elem = Some s.
Proof.
  unfold Stats.nameIs. destruct (name elem) as [n|]; [|discriminate].
  intros H. apply String.eqb_eq in H. congruence.
Qed.

(** X22.  [findSchemaElement] gives [null] for a missing schema, a missing
    path and an empty path.  What it finds is an element of the schema
    whose name is the last component of the path or the whole path joined
    by dots.  The first element with the name of the last component and a
    type wins over any match of the whole path, so two paths that end in
    the same component find the same element when the schema has such an
    element. *)
Theorem findSchemaElement_spec (schema : list Elem) (pathInSchema : list string) :
  let columnName := last pathInSchema "" in
  let typed := fun elem => nameIs elem columnName && typeDefined elem in
  findSchemaElement None (Some pathInSchema) = None
  /\ findSchemaElement (Some schema) None = None
  /\ findSchemaElement (Some schema) (Some []) = None
  /\ (pathInSchema <> [] ->
      findSchemaElement (Some schema) (Some pathInSchema)
      = match find typed schema with
        | Some elem => Some elem
        | None => find (fun elem => nameIs elem (join "." pathInSchema)) schema
        end)
  /\ (forall elem,
        findSchemaElement (Some schema) (Some pathInSchema) = Some elem ->
        In elem schema
        /\ (name elem = Some columnName \/ name elem = Some (join "." pathInSchema)))
  /\ (forall pathInSchema',
        pathInSchema <> [] -> pathInSchema' <> [] ->
        last pathInSchema' "" = columnName ->
        existsb typed schema = true ->
        findSchemaElement (Some schema) (Some pathInSchema')
        = findSchemaElement (Some schema) (Some pathInSchema)).
Proof.
  intros columnName typed.
  assert (Hunfold : forall p, p <> [] ->
    findSchemaElement (Some schema) (Some p)
    = match find (fun elem => nameIs elem (last p "") && typeDefined elem) schema with
      | Some elem => Some elem
      | None => find (fun elem => nameIs elem (join "." p)) schema
      end).
  { intros p Hp. unfold Stats.findSchemaElement.
    destruct p as [|x p]; [contradiction|]. cbn [List.length Nat.eqb].
    rewrite <- (nth_last _ (x :: p) ""). reflexivity. }
  split; [reflexivity|]. split; [reflexivity|]. split; [reflexivity|].
  split; [apply Hunfold|]. split.
  - intros elem H. destruct pathInSchema as [|x p]; [discriminate|].
    rewrite Hunfold in H by discriminate. fold columnName in H. fold typed in H.
    destruct (find typed schema) as [e|] eqn:E.
    + inversion H; subst. apply find_some in E. destruct E as [Hin Ht].
      split; [exact Hin|]. left. apply nameIs_eq.
      unfold typed in Ht. apply andb_prop in Ht. tauto.
    + apply find_some in H. destruct H as [Hin Hn].
      split; [exact Hin|]. right. apply nameIs_eq. exact Hn.
  - intros p' Hp Hp' Hlast Hex.
    rewrite (Hunfold pathInSchema Hp), (Hunfold p' Hp'), Hlast.
    fold columnName. fold typed.
    destruct (find typed schema) as [e|] eqn:E; [reflexivity|].
    apply existsb_exists in Hex. destruct Hex as (x & Hin & Hx).
    rewrite (find_none _ _ E x Hin) in Hx. discriminate.
Qed.

End SchemaLookupFacts.

(* ================================================================== *)
(** * Properties of the encoding helpers
      (src/components/hierarchical/encodingUtils.js) *)

Section EncodingFacts.

Import EncodingUtils.

Local Open Scope string_scope.
Local Open Scope Z_scope.

Lemma setAdd_spec (set : list Z) (x : Z) :
  NoDup set -> NoDup (setAdd set x) /\ forall y, In y (setAdd set x) <-> In y set \/ y = x.
Proof.
  intros Hnd. unfold setAdd. destruct (existsb (Z.eqb x) set) eqn:E.
  - split; [exact Hnd|]. intros y. split; [auto|].
    intros [H| ->]; [exact H|]. apply existsb_exists in E.
    destruct E as (z & Hz & Hxz). apply Z.eqb_eq in Hxz. subst. exact Hz.
  - split.
    + apply NoDup_app; [exact Hnd|repeat constructor; intros []|].
      intros y Hy [Hxy|[]]. subst y.
      assert (H : existsb (Z.eqb x) set = true)
        by (apply existsb_exists; exists x; split; [exact Hy|apply Z.eqb_refl]).
      congruence.
    + intros y. rewrite in_app_iff. simpl. intuition.
Qed.

Lemma newSet_spec (xs : list Z) : forall set,
  NoDup set ->
  NoDup (fold_left setAdd xs set)
  /\ forall y, In y (fold_left setAdd xs set) <-> In y set \/ In y xs.
Proof.
  induction xs as [|x xs IH]; intros set Hnd; simpl.
  - split; [exact Hnd|]. intros y. tauto.
  - destruct (setAdd_spec set x Hnd) as [Hnd' Hin].
    destruct (IH _ Hnd') as [H1 H2]. split; [exact H1|].
    intros y. rewrite H2, Hin. intuition.
Qed.

Variable Encoding : Z -> option string.
Variable PageType : Z -> option string.
Variable Stat : Type.
Variable page_type : Stat -> Z.
Variable stat_encoding : Stat -> Z.
Variable stat_count : Stat -> Z.

Local Abbreviation getPrimaryEncodings :=
  (getPrimaryEncodings Encoding Stat page_type stat_encoding).
Local Abbreviation formatEncodingStats :=
  (formatEncodingStats Encoding PageType Stat page_type stat_encoding stat_count).
Local Abbreviation groupStep :=
  (groupStep Encoding PageType Stat page_type stat_encoding stat_count).
Local Abbreviation getEncodingName := (getEncodingName Encoding).

Lemma dataEncodings_spec (stats : list Stat) : forall set,
  NoDup set ->
  let result :=
    fold_left (fun set stat =>
                 if (page_type stat =? 0) || (page_type stat =? 3)
                 then setAdd set (stat_encoding stat) else set) stats set in
  NoDup result
  /\ forall y, In y result <->
       In y set
       \/ exists stat, In stat stats /\ stat_encoding stat = y
                       /\ (page_type stat = 0 \/ page_type stat = 3).
Proof.
  induction stats as [|s stats IH]; intros set Hnd; simpl.
  - split; [exact Hnd|]. intros y. split; [auto|]. intros [H|(st & [] & _)]. exact H.
  - destruct (Z.eqb_spec (page_type s) 0) as [E0|N0]; simpl.
    + destruct (setAdd_spec set (stat_encoding s) Hnd) as [Hnd' Hin].
      destruct (IH _ Hnd') as [H1 H2]. split; [exact H1|].
      intros y. rewrite H2, Hin. split.
      * intros [[H| ->]|(st & Hst & Hy & Hp)]; [auto| |].
        -- right. exists s. auto.
        -- right. exists st. auto.
      * intros [H|(st & [<-|Hst] & Hy & Hp)]; [auto|auto|].
        right. exists st. auto.
    + destruct (Z.eqb_spec (page_type s) 3) as [E3|N3].
      * destruct (setAdd_spec set (stat_encoding s) Hnd) as [Hnd' Hin].
        destruct (IH _ Hnd') as [H1 H2]. split; [exact H1|].
        intros y. rewrite H2, Hin. split.
        -- intros [[H| ->]|(st & Hst & Hy & Hp)]; [auto| |].
           ++ right. exists s. auto.
           ++ right. exists st. auto.
        -- intros [H|(st & [<-|Hst] & Hy & Hp)]; [auto|auto|].
           right. exists st. auto.
      * destruct (IH _ Hnd) as [H1 H2]. split; [exact H1|].
        intros y. rewrite H2. split.
        -- intros [H|(st & Hst & Hy & Hp)]; [auto|]. right. exists st. auto.
        -- intros [H|(st & [<-|Hst] & Hy & Hp)]; [auto|lia|].
           right. exists st. auto.
Qed.

(** X23.  [getPrimaryEncodings] gives no encoding twice and gives only
    encodings of the column or of its data-page statistics; it gives none
    exactly when the column lists none (whatever the statistics say); and
    when some statistic is for a data page (page type 0 or 3) it gives the
    encodings of those statistics and nothing else. *)
Theorem getPrimaryEncodings_spec (encodings : option (list Z))
  (encodingStats : option (list Stat)) :
  let result := getPrimaryEncodings encodings encodingStats in
  let ofDataPage y :=
    exists stats stat, encodingStats = Some stats /\ In stat stats
                       /\ stat_encoding stat = y
                       /\ (page_type stat = 0 \/ page_type stat = 3) in
  NoDup result
  /\ (forall y, In y result ->
        (exists encs, encodings = Some encs /\ In y encs) \/ ofDataPage y)
  /\ (result = [] <-> encodings = None \/ encodings = Some [])
  /\ (encodings <> None -> encodings <> Some [] -> (exists y, ofDataPage y) ->
      forall y, In y result <-> ofDataPage y).
Proof.
  intros result ofDataPage. subst result. unfold EncodingUtils.getPrimaryEncodings.
  destruct encodings as [[|e encs]|].
  2:{ cbn [List.length Nat.eqb].
      set (data := match encodingStats with
                   | Some stats => fold_left _ stats []
                   | None => []
                   end).
      assert (Hdata : NoDup data /\ forall y, In y data <-> ofDataPage y).
      { subst data. destruct encodingStats as [stats|].
        - destruct (dataEncodings_spec stats [] (NoDup_nil _)) as [H1 H2].
          split; [exact H1|]. intros y. rewrite H2. unfold ofDataPage. split.
          + intros [[]|(st & Hst & Hy & Hp)]. exists stats, st. auto.
          + intros (stats' & st & Hs & Hst & Hy & Hp). inversion Hs; subst.
            right. exists st. auto.
        - split; [constructor|]. intros y. split; [intros []|].
          intros (stats' & st & Hs & _). discriminate. }
      destruct Hdata as [Hnd Hin].
      destruct (newSet_spec (e :: encs) [] (NoDup_nil _)) as [Hu1 Hu2].
      fold (newSet (e :: encs)) in Hu1, Hu2.
      assert (Hune : newSet (e :: encs) <> []).
      { intros E. assert (H : In e (newSet (e :: encs))) by (apply Hu2; right; left;
          reflexivity). rewrite E in H. exact H. }
      destruct (Nat.ltb_spec 0 (List.length data)) as [Hpos|Hzero].
      - split; [exact Hnd|]. split; [intros y Hy; right; apply Hin; exact Hy|].
        split.
        + split; [|intros [H|H]; discriminate].
          intros E. rewrite E in Hpos. simpl in Hpos. lia.
        + intros _ _ _ y. apply Hin.
      - assert (Hd : data = []) by (destruct data; [reflexivity|simpl in Hzero; lia]).
        set (filtered := filter _ (newSet (e :: encs))).
        assert (Hres : forall y,
          In y (if (1 <? List.length (newSet (e :: encs)))%nat
                   && (0 <? List.length filtered)%nat
                then filtered else newSet (e :: encs)) -> In y (e :: encs)).
        { intros y Hy.
          destruct ((1 <? List.length (newSet (e :: encs)))%nat
                    && (0 <? List.length filtered)%nat).
          - apply filter_In in Hy. destruct Hy as [Hy _]. apply Hu2 in Hy.
            destruct Hy as [[]|Hy]. exact Hy.
          - apply Hu2 in Hy. destruct Hy as [[]|Hy]. exact Hy. }
        split.
        { destruct ((1 <? List.length (newSet (e :: encs)))%nat
                    && (0 <? List.length filtered)%nat);
            [apply NoDup_filter; exact Hu1|exact Hu1]. }
        split; [intros y Hy; left; exists (e :: encs); split; [reflexivity|auto]|].
        split.
        + split; [|intros [H|H]; discriminate].
          intros E.
          destruct ((1 <? List.length (newSet (e :: encs)))%nat) eqn:E1; simpl in E.
          * destruct (Nat.ltb_spec 0 (List.length filtered)) as [Hf|Hf].
            -- rewrite E in Hf. simpl in Hf. lia.
            -- contradiction.
          * contradiction.
        + intros _ _ (y0 & Hy0). apply Hin in Hy0. rewrite Hd in Hy0. contradiction. }
  - split; [constructor|]. split; [intros y []|]. split; [tauto|].
    intros _ H. contradiction.
  - split; [constructor|]. split; [intros y []|]. split; [tauto|].
    intros H. contradiction.
Qed.

Local Abbreviation statKey := (statKey Encoding PageType Stat page_type stat_encoding).
Local Abbreviation countFor :=
  (countFor Encoding PageType Stat page_type stat_encoding stat_count).
Local Abbreviation totalStatCount := (totalStatCount Stat stat_count).
Local Abbreviation grouping :=
  (grouping Encoding PageType Stat page_type stat_encoding stat_count).

Lemma addCount_keys key n grouped : map fst (addCount key n grouped) = map fst grouped.
Proof.
  induction grouped as [|[k g] grouped IH]; [reflexivity|]. simpl.
  destruct (String.eqb k key); simpl; [reflexivity|]. rewrite IH. reflexivity.
Qed.

Lemma addCount_total key n grouped :
  In key (map fst grouped) ->
  totalCount (map snd (addCount key n grouped)) = totalCount (map snd grouped) + n.
Proof.
  induction grouped as [|[k g] grouped IH]; intros Hin; [destruct Hin|]. simpl.
  destruct (String.eqb_spec k key) as [->|Hne]; simpl; [lia|].
  rewrite IH; [lia|]. destruct Hin as [H|H]; [contradiction|exact H].
Qed.

Lemma addCount_entry key n grouped :
  NoDup (map fst grouped) ->
  forall k g, In (k, g) (addCount key n grouped) ->
    exists g0, In (k, g0) grouped
               /\ pageType g = pageType g0 /\ encoding g = encoding g0
               /\ count g = count g0 + (if String.eqb k key then n else 0).
Proof.
  induction grouped as [|[k0 g0] grouped IH]; intros Hnd k g Hin; [destruct Hin|].
  simpl in Hin. inversion Hnd as [|? ? Hnotin Hnd']; subst.
  destruct (String.eqb_spec k0 key) as [->|Hne].
  - destruct Hin as [H|H].
    + inversion H; subst. exists g0. rewrite String.eqb_refl. simpl. auto.
    + exists g. destruct (String.eqb_spec k key) as [->|_].
      * exfalso. apply Hnotin. apply (in_map fst) in H. exact H.
      * split; [right; exact H|]. repeat split. lia.
  - destruct Hin as [H|H].
    + inversion H; subst. exists g.
      destruct (String.eqb_spec k key) as [->|_]; [contradiction|].
      split; [left; reflexivity|]. repeat split. lia.
    + destruct (IH Hnd' k g H) as (g1 & Hin1 & H1). exists g1. split; [right; exact Hin1|].
      exact H1.
Qed.

Lemma countFor_snoc key seen stat :
  countFor key (seen ++ [stat])
  = countFor key seen + (if String.eqb (statKey stat) key then stat_count stat else 0).
Proof.
  unfold EncodingUtils.countFor. induction seen as [|s seen IH]; simpl; [lia|].
  rewrite IH. lia.
Qed.

Lemma totalStatCount_snoc seen stat :
  totalStatCount (seen ++ [stat]) = totalStatCount seen + stat_count stat.
Proof.
  unfold EncodingUtils.totalStatCount. induction seen as [|s seen IH]; simpl; [lia|].
  rewrite IH. lia.
Qed.

Lemma totalCount_snoc groups g :
  totalCount (groups ++ [g]) = totalCount groups + count g.
Proof.
  unfold totalCount. induction groups as [|x groups IH]; simpl; [lia|]. rewrite IH. lia.
Qed.

Lemma countFor_absent key seen :
  (forall stat, In stat seen -> statKey stat <> key) -> countFor key seen = 0.
Proof.
  unfold EncodingUtils.countFor. induction seen as [|s seen IH]; intros H; [reflexivity|].
  simpl. destruct (String.eqb_spec (statKey s) key) as [E|_].
  - exfalso. apply (H s); [left; reflexivity|exact E].
  - rewrite IH; [lia|]. intros st Hst. apply H. right. exact Hst.
Qed.

Lemma groupStep_grouping grouped seen stat :
  grouping grouped seen -> grouping (groupStep grouped stat) (seen ++ [stat]).
Proof.
  intros (Hnd & Hent & Htot & Hlen & Hkeys).
  unfold EncodingUtils.groupStep. cbv zeta. fold (statKey stat).
  set (key := statKey stat).
  set (fresh := mkGroup (getPageTypeName PageType (page_type stat))
                  (getShortEncodingName Encoding (stat_encoding stat)) 0).
  set (grouped' := if existsb (fun kg => String.eqb (fst kg) key) grouped then grouped
                   else (grouped ++ [(key, fresh)])%list).
  assert (Hex : existsb (fun kg => String.eqb (fst kg) key) grouped = true
                <-> In key (map fst grouped)).
  { rewrite existsb_exists. split.
    - intros ([k g] & Hin & Hk). apply String.eqb_eq in Hk. simpl in Hk. subst.
      apply (in_map fst) in Hin. exact Hin.
    - intros Hin. apply in_map_iff in Hin. destruct Hin as ([k g] & Hk & Hin).
      simpl in Hk. subst. exists (key, g). split; [exact Hin|apply String.eqb_refl]. }
  assert (Hg' : NoDup (map fst grouped')
    /\ In key (map fst grouped')
    /\ (forall k g, In (k, g) grouped' ->
          k = pageType g ++ ":" ++ encoding g /\ count g = countFor k seen
          /\ exists st, In st (seen ++ [stat]) /\ statKey st = k)
    /\ totalCount (map snd grouped') = totalStatCount seen
    /\ (List.length grouped' <= S (List.length seen))%nat
    /\ (forall st, In st seen -> In (statKey st) (map fst grouped'))).
  { subst grouped'.
    destruct (existsb (fun kg => String.eqb (fst kg) key) grouped) eqn:E.
    - split; [exact Hnd|]. split; [apply Hex; reflexivity|].
      split.
      { intros k g Hin. destruct (Hent k g Hin) as (H1 & H2 & st & Hst & Hk).
        split; [exact H1|]. split; [exact H2|]. exists st.
        split; [apply in_or_app; left; exact Hst|exact Hk]. }
      split; [exact Htot|]. split; [lia|exact Hkeys].
    - assert (Hnot : ~ In key (map fst grouped)).
      { intros Hin. apply Hex in Hin. congruence. }
      split.
      { rewrite map_app. apply NoDup_app; [exact Hnd|repeat constructor; intros []|].
        intros k Hk [Hkk|[]]. simpl in Hkk. subst. contradiction. }
      split; [rewrite map_app; apply in_or_app; right; left; reflexivity|].
      split.
      { intros k g Hin. apply in_app_or in Hin. destruct Hin as [Hin|[Hin|[]]].
        - destruct (Hent k g Hin) as (H1 & H2 & st & Hst & Hk).
          split; [exact H1|]. split; [exact H2|]. exists st.
          split; [apply in_or_app; left; exact Hst|exact Hk].
        - inversion Hin; subst. split; [reflexivity|]. split.
          + simpl. symmetry. apply countFor_absent. intros st Hst Hk.
            apply Hnot. rewrite <- Hk. apply Hkeys. exact Hst.
          + exists stat. split; [apply in_or_app; right; left; reflexivity|reflexivity]. }
      split; [rewrite map_app; cbn [map snd]; rewrite totalCount_snoc; simpl; lia|].
      split; [rewrite length_app; simpl; lia|].
      intros st Hst. rewrite map_app. apply in_or_app. left. apply Hkeys. exact Hst. }
  destruct Hg' as (Hnd' & Hkey' & Hent' & Htot' & Hlen' & Hkeys').
  unfold EncodingUtils.grouping. rewrite addCount_keys.
  split; [exact Hnd'|]. split.
  { intros k g Hin.
    destruct (addCount_entry key (stat_count stat) grouped' Hnd' k g Hin)
      as (g0 & Hin0 & Hp & He & Hc).
    destruct (Hent' k g0 Hin0) as (H1 & H2 & Hst).
    split; [rewrite Hp, He; exact H1|]. split; [|exact Hst].
    rewrite countFor_snoc, Hc, H2. fold key.
    rewrite (String.eqb_sym key k). reflexivity. }
  split; [rewrite addCount_total, totalStatCount_snoc by exact Hkey'; lia|].
  split.
  { assert (E : List.length (addCount key (stat_count stat) grouped')
                = List.length grouped').
    { rewrite <- (length_map fst), addCount_keys, length_map. reflexivity. }
    rewrite E, length_app. simpl. lia. }
  intros st Hst. apply in_app_or in Hst. destruct Hst as [Hst|[<-|[]]];
    [apply Hkeys'; exact Hst|exact Hkey'].
Qed.

Lemma fold_groupStep_grouping stats : forall grouped seen,
  grouping grouped seen -> grouping (fold_left groupStep stats grouped) (seen ++ stats).
Proof.
  induction stats as [|s stats IH]; intros grouped seen H; simpl.
  - rewrite app_nil_r. exact H.
  - replace (seen ++ s :: stats)%list with ((seen ++ [s]) ++ stats)%list
      by (rewrite <- app_assoc; reflexivity).
    apply IH. apply groupStep_grouping. exact H.
Qed.


End EncodingFacts.
